(** * ddb: feature registration, lifecycle, event binding and the shell
      environment backup.

    A shallow embedding of [ddb/__main__.py] (feature graph resolution,
    feature lifecycle, binding of actions to the event bus, command line
    handling, console entry point), of the environment backup codec and of
    [apply_diff_to_shell] of [ddb/feature/shell/actions.py], and of the
    flattening of the configuration and its overrides from the environment
    of [ddb/config/config.py]. *)

From Stdlib Require Import ZArith NArith Lia Bool.
From stdpp Require Import base option list gmap strings sorting pretty.

Open Scope string_scope.
Open Scope list_scope.

Set Warnings "-clear-no-such-hyp,-register-all".

(** ** Python helpers *)

Module Py.

(** [s.endswith(suffix)] *)
Definition endswith (s suffix : string) : bool :=
  let n := String.length s in
  let k := String.length suffix in
  (k <=? n)%nat && String.eqb (String.substring (n - k) k s) suffix.

(** [s[0:len(s) - len(suffix)]], for a suffix no longer than [s] *)
Definition drop_suffix (s suffix : string) : string :=
  String.substring 0 (String.length s - String.length suffix) s.

(** [sorted(l, key=...)] is stable: an element is placed before the first
    later element that is not smaller than it is. *)
Fixpoint insert_sorted {A} (leb : A → A → bool) (x : A) (l : list A) : list A :=
  match l with
  | [] => [x]
  | y :: l' => if leb x y then x :: y :: l' else y :: insert_sorted leb x l'
  end.

Fixpoint sorted {A} (leb : A → A → bool) (l : list A) : list A :=
  match l with
  | [] => []
  | x :: l' => insert_sorted leb x (sorted leb l')
  end.

(** An insertion-ordered dict with string keys: [d[k] = v] keeps the place of
    a key that is already there and appends a new one. *)
Definition dict (V : Type) : Type := list (string * V).

Fixpoint dict_set {V} (d : dict V) (k : string) (v : V) : dict V :=
  match d with
  | [] => [(k, v)]
  | (k', v') :: d' =>
      if String.eqb k' k then (k, v) :: d' else (k', v') :: dict_set d' k v
  end.

Fixpoint dict_get {V} (d : dict V) (k : string) : option V :=
  match d with
  | [] => None
  | (k', v') :: d' => if String.eqb k' k then Some v' else dict_get d' k
  end.

Definition dict_keys {V} (d : dict V) : list string := d.*1.

Definition dict_has {V} (d : dict V) (k : string) : bool :=
  bool_decide (k ∈ dict_keys d).

End Py.

(** ** Exceptions and the state-and-exception monad *)

(** The namespace argparse returns: the selected command, the three global
    flags, and whatever else the command's own parser put there. *)
Record ParsedArgs := {
  pa_command : option string;
  pa_verbose : bool;
  pa_very_verbose : bool;
  pa_silent : bool;
  pa_options : list (string * string)
}.

Inductive Exn :=
| ValueError (msg : string)
| CircularDependencyError (data : gmap string (gset string))
| DuplicateNameError (name : string)
| KeyError (key : string)
| RestartWithArgs (restart_args : ParsedArgs)
| SystemExit (code : Z)
| OtherError (msg : string).

(** [CircularDependencyError] derives from [ValueError]. *)
Definition is_ValueError (e : Exn) : bool :=
  match e with
  | ValueError _ | CircularDependencyError _ => true
  | _ => false
  end.

Inductive Outcome (S A : Type) :=
| Ret (a : A) (s : S)
| Raise (e : Exn) (s : S).
Arguments Ret {S A} a s.
Arguments Raise {S A} e s.

Definition final_state {S A} (o : Outcome S A) : S :=
  match o with Ret _ s => s | Raise _ s => s end.

Definition raised {S A} (o : Outcome S A) : option Exn :=
  match o with Ret _ _ => None | Raise e _ => Some e end.

Definition M (S A : Type) : Type := S → Outcome S A.

Definition ret {S A} (a : A) : M S A := λ s, Ret a s.
Definition raise {S A} (e : Exn) : M S A := λ s, Raise e s.
Definition bind {S A B} (m : M S A) (k : A → M S B) : M S B :=
  λ s, match m s with
       | Ret a s' => k a s'
       | Raise e s' => Raise e s'
       end.
Definition get {S} : M S S := λ s, Ret s s.
Definition modify {S} (f : S → S) : M S unit := λ s, Ret tt (f s).

(** [try: m except RestartWithArgs as exc: h exc] *)
Definition try_restart {S A} (m : M S A) (h : ParsedArgs → M S A) : M S A :=
  λ s, match m s with
       | Raise (RestartWithArgs a) s' => h a s'
       | o => o
       end.

Notation "'let!' x ':=' m 'in' k" := (bind m (λ x, k))
  (at level 10, x name, m at level 100, k at level 200, only parsing).
Notation "m >> k" := (bind m (λ _, k))
  (at level 100, k at level 200, right associativity, only parsing).

(** [for x in l: body x] *)
Fixpoint for_each {S A} (l : list A) (body : A → M S unit) : M S unit :=
  match l with
  | [] => ret tt
  | x :: l' => body x >> for_each l' body
  end.

(** ** Topological sort *)

(** [toposort_flatten] of the [toposort] package, which [ddb] imports: the
    data maps an item to the set of items it depends on. Self-dependencies
    are discarded and items that only occur as dependencies get an empty
    set; then, level by level, the items with no dependency left are taken
    out, each level sorted, until no such item is left. What remains then is
    on a cycle or depends on one. *)
Module Toposort.

Abbreviation graph := (gmap string (gset string)).

Definition without_self (data : graph) : graph :=
  map_imap (λ k v, Some (v ∖ {[k]})) data.

Definition extra_items_in_deps (data : graph) : gset string :=
  ⋃ (map_to_list data).*2 ∖ dom data.

Definition with_extra_items (data : graph) : graph :=
  data ∪ gset_to_gmap ∅ (extra_items_in_deps data).

Definition ordered (data : graph) : gset string :=
  dom (filter (λ kv, kv.2 = ∅) data).

Definition remove_ordered (o : gset string) (data : graph) : graph :=
  (λ dep, dep ∖ o) <$> filter (λ kv, kv.1 ∉ o) data.

(** The [while True] loop: the levels it yields and the data it stops on.
    Every round but the last takes at least one item out, so [size data]
    rounds are enough (see [levels_fuel]). *)
Fixpoint levels (fuel : nat) (data : graph) : list (gset string) * graph :=
  match fuel with
  | O => ([], data)
  | S fuel' =>
      let o := ordered data in
      if decide (o = ∅) then ([], data)
      else let '(ls, rest) := levels fuel' (remove_ordered o data) in
           (o :: ls, rest)
  end.

Definition toposort (data : graph) : Exn + list (gset string) :=
  if decide (data = ∅) then inr []
  else
    let data1 := with_extra_items (without_self data) in
    let '(ls, rest) := levels (size data1) data1 in
    if decide (rest = ∅) then inr ls else inl (CircularDependencyError rest).

Definition toposort_flatten (data : graph) : Exn + list string :=
  match toposort data with
  | inl e => inl e
  | inr ls => inr (concat ((λ d, Py.sorted String.leb (elements d)) <$> ls))
  end.

End Toposort.

(** ** Data model *)

Set Implicit Arguments.

Section DataModel.

(** Everything the hooks of features and the commands act on: the
    configuration store, the context (with its exception list), the process
    environment. The registries and the event bus are kept apart from it, in
    [State]. *)
Variable W : Type.

(** The effect of a call into feature or command code on the world: the
    world it leaves, and the exception it raised if it did. *)
Definition Effect : Type := W → option Exn * W.

(** One entry of [event_bindings] when it is a sequence: an event name, or an
    (event name, method name) pair. *)
Inductive EventBinding :=
| BindEvent (event_name : string)
| BindMethod (event_name method_name : string).

(** [Action.event_bindings]: one event name or a sequence of bindings. *)
Inductive EventBindings :=
| SingleEvent (event_name : string)
| EventList (bindings : list EventBinding).

Record Action := {
  a_name : string;
  a_order : Z;
  a_disabled : W → bool;
  a_event_bindings : EventBindings
}.

Record Phase := { ph_name : string }.
Record Command := { c_name : string; c_phases : list string }.
Record Binary := { bin_name : string }.
Record Service := { sv_name : string }.

Record Feature := {
  f_name : string;
  f_dependencies : list string;
  f_disabled : W → bool;
  f_before_load : Effect;
  f_configure : Effect;
  f_after_load : Effect;
  f_phases : W → list Phase;
  f_commands : W → list Command;
  f_actions : W → list Action;
  f_binaries : W → list Binary;
  f_services : W → list Service
}.

(** What [action_event_binding_runner_factory(action, event_name, to_call,
    fail_fast=...)] is built from; [None] as method is the default entry
    point of the action. *)
Record Runner := {
  r_action : Action;
  r_event_name : string;
  r_method : option string;
  r_fail_fast : bool
}.

Definition action_event_binding_runner_factory
    (action : Action) (event_name : string) (to_call : option string)
    (fail_fast : bool) : Runner :=
  {| r_action := action; r_event_name := event_name;
     r_method := to_call; r_fail_fast := fail_fast |}.

Inductive RegistryId := RFeatures | RPhases | RCommands | RActions | RBinaries | RServices.

(** The calls into collaborators, in the order they are made. *)
Inductive Call :=
| CBeforeLoad (feature : string)
| CConfigure (feature : string)
| CAfterLoad (feature : string)
| CRegister (registry : RegistryId) (name : string)
| CToposort (data : gmap string (gset string))
| CExecuteCommand (command : string) (args : option ParsedArgs)
| CPrintHelp
| CConfigLoad
| CRegisterDefaultCaches.

Record State := {
  world : W;
  features : list Feature;
  phases : list Phase;
  commands : list Command;
  actions : list Action;
  binaries : list Binary;
  services : list Service;
  bus : gmap string (list Runner);
  config_args : option ParsedArgs;
  config_unknown_args : list string;
  log_level : string;
  calls : list Call
}.

Definition set_world (w : W) (s : State) : State :=
  {| world := w; features := features s; phases := phases s;
     commands := commands s; actions := actions s; binaries := binaries s;
     services := services s; bus := bus s; config_args := config_args s;
     config_unknown_args := config_unknown_args s; log_level := log_level s;
     calls := calls s |}.

Definition set_bus (b : gmap string (list Runner)) (s : State) : State :=
  {| world := world s; features := features s; phases := phases s;
     commands := commands s; actions := actions s; binaries := binaries s;
     services := services s; bus := b; config_args := config_args s;
     config_unknown_args := config_unknown_args s; log_level := log_level s;
     calls := calls s |}.

Definition set_config_args (a : option ParsedArgs) (s : State) : State :=
  {| world := world s; features := features s; phases := phases s;
     commands := commands s; actions := actions s; binaries := binaries s;
     services := services s; bus := bus s; config_args := a;
     config_unknown_args := config_unknown_args s; log_level := log_level s;
     calls := calls s |}.

Definition set_config_unknown_args (u : list string) (s : State) : State :=
  {| world := world s; features := features s; phases := phases s;
     commands := commands s; actions := actions s; binaries := binaries s;
     services := services s; bus := bus s; config_args := config_args s;
     config_unknown_args := u; log_level := log_level s;
     calls := calls s |}.

Definition set_log_level (l : string) (s : State) : State :=
  {| world := world s; features := features s; phases := phases s;
     commands := commands s; actions := actions s; binaries := binaries s;
     services := services s; bus := bus s; config_args := config_args s;
     config_unknown_args := config_unknown_args s; log_level := l;
     calls := calls s |}.

Definition log_call (c : Call) (s : State) : State :=
  {| world := world s; features := features s; phases := phases s;
     commands := commands s; actions := actions s; binaries := binaries s;
     services := services s; bus := bus s; config_args := config_args s;
     config_unknown_args := config_unknown_args s; log_level := log_level s;
     calls := calls s ++ [c] |}.

(** Running feature or command code: the call is logged, the world is
    replaced by the one the code leaves, and its exception, if any, is
    raised. *)
Definition call_effect (c : Call) (eff : Effect) : M State unit :=
  λ s, let s1 := log_call c s in
       match eff (world s1) with
       | (None, w) => Ret tt (set_world w s1)
       | (Some e, w) => Raise e (set_world w s1)
       end.

(** ** Registries *)

Definition set_features (l : list Feature) (s : State) : State :=
  {| world := world s; features := l; phases := phases s;
     commands := commands s; actions := actions s; binaries := binaries s;
     services := services s; bus := bus s; config_args := config_args s;
     config_unknown_args := config_unknown_args s; log_level := log_level s;
     calls := calls s |}.

Definition set_phases (l : list Phase) (s : State) : State :=
  {| world := world s; features := features s; phases := l;
     commands := commands s; actions := actions s; binaries := binaries s;
     services := services s; bus := bus s; config_args := config_args s;
     config_unknown_args := config_unknown_args s; log_level := log_level s;
     calls := calls s |}.

Definition set_commands (l : list Command) (s : State) : State :=
  {| world := world s; features := features s; phases := phases s;
     commands := l; actions := actions s; binaries := binaries s;
     services := services s; bus := bus s; config_args := config_args s;
     config_unknown_args := config_unknown_args s; log_level := log_level s;
     calls := calls s |}.

Definition set_actions (l : list Action) (s : State) : State :=
  {| world := world s; features := features s; phases := phases s;
     commands := commands s; actions := l; binaries := binaries s;
     services := services s; bus := bus s; config_args := config_args s;
     config_unknown_args := config_unknown_args s; log_level := log_level s;
     calls := calls s |}.

Definition set_binaries (l : list Binary) (s : State) : State :=
  {| world := world s; features := features s; phases := phases s;
     commands := commands s; actions := actions s; binaries := l;
     services := services s; bus := bus s; config_args := config_args s;
     config_unknown_args := config_unknown_args s; log_level := log_level s;
     calls := calls s |}.

Definition set_services (l : list Service) (s : State) : State :=
  {| world := world s; features := features s; phases := phases s;
     commands := commands s; actions := actions s; binaries := binaries s;
     services := l; bus := bus s; config_args := config_args s;
     config_unknown_args := config_unknown_args s; log_level := log_level s;
     calls := calls s |}.

(** A registry of the process: which one it is, the name of an object, and
    where its objects live in the state, in registration order. *)
Record Registry (A : Type) := {
  rid : RegistryId;
  obj_name : A → string;
  objects : State → list A;
  set_objects : list A → State → State
}.

Definition features_registry : Registry Feature :=
  {| rid := RFeatures; obj_name := f_name; objects := features; set_objects := set_features |}.
Definition phases_registry : Registry Phase :=
  {| rid := RPhases; obj_name := ph_name; objects := phases; set_objects := set_phases |}.
Definition commands_registry : Registry Command :=
  {| rid := RCommands; obj_name := c_name; objects := commands; set_objects := set_commands |}.
Definition actions_registry : Registry Action :=
  {| rid := RActions; obj_name := a_name; objects := actions; set_objects := set_actions |}.
Definition binaries_registry : Registry Binary :=
  {| rid := RBinaries; obj_name := bin_name; objects := binaries; set_objects := set_binaries |}.
Definition services_registry : Registry Service :=
  {| rid := RServices; obj_name := sv_name; objects := services; set_objects := set_services |}.

(** Modelled from the spec: [ddb.registry.Registry] is not among the sources.
    "Registries enforce name uniqueness at registration time (fails with
    DuplicateNameError otherwise)"; [all()] gives the registered objects in
    registration order. *)
Definition registry_register {A} (r : Registry A) (obj : A) : M State unit :=
  λ s, let s1 := log_call (CRegister (rid r) (obj_name r obj)) s in
       if bool_decide (obj_name r obj ∈ obj_name r <$> objects r s1)
       then Raise (DuplicateNameError (obj_name r obj)) s1
       else Ret tt (set_objects r (objects r s1 ++ [obj]) s1).

Definition registry_all {A} (r : Registry A) : M State (list A) :=
  λ s, Ret (objects r s) s.

Definition registry_get {A} (r : Registry A) (name : string) : M State A :=
  λ s, match List.find (λ o, String.eqb (obj_name r o) name) (objects r s) with
       | Some o => Ret o s
       | None => Raise (KeyError name) s
       end.

(** ** Event bus *)

(** Modelled from the spec: [ddb.event.bus] is not among the sources.
    "on(event_name, handler) registers a handler; emit(event_name, ...) invokes
    every handler bound to event_name, in registration order". *)
Definition bus_on (event_name : string) (handler : Runner) : M State unit :=
  modify (λ s, set_bus (<[event_name := default [] (bus s !! event_name) ++ [handler]]> (bus s)) s).

(** The handlers [emit(event_name)] goes through, first to last. *)
Definition bus_handlers (s : State) (event_name : string) : list Runner :=
  default [] (bus s !! event_name).

End DataModel.

Unset Implicit Arguments.

Arguments features_registry {W}.
Arguments phases_registry {W}.
Arguments commands_registry {W}.
Arguments actions_registry {W}.
Arguments binaries_registry {W}.
Arguments services_registry {W}.

(** ** Collaborators *)

(** What [ddb/__main__.py] calls and the sources do not contain, or what the
    installation decides. *)
Class Collaborators (W : Type) := {
  (** [get_default_features()] *)
  default_features : list (Feature W);
  (** the features the [ddb_features] entry points load *)
  entry_point_features : list (Feature W);
  (** [config.data.get('dependencies')], empty when there is none *)
  config_dependencies : W → Py.dict (list string);
  (** [config.load()] *)
  config_load : Effect W;
  register_default_caches : Effect W;
  (** [opts.parse_known_args(args)], with the parsers of the registered
      commands *)
  parse_known_args :
    list Command → option (list string) → Exn + (ParsedArgs * list string);
  (** [ddb.command.command.execute_command], which reads [config.args] and
      [config.unknown_args] *)
  execute_command : Command → option ParsedArgs → list string → Effect W;
  (** [context.exceptions] *)
  context_exceptions : W → list Exn
}.

Section Program.

Context {W : Type} {env : Collaborators W}.

Local Abbreviation State := (State W).
Local Abbreviation Feature := (Feature W).
Local Abbreviation Action := (Action W).
Local Abbreviation Registry := (Registry W).

(** ** Feature graph resolution *)

Definition optional_suffix : string := "[optional]".

(** The inner loop of [_prepare_dependencies_data], for one feature: its
    required dependencies, as declared, and all its dependencies without the
    optional marker. *)
Definition prepare_feature (declared : list string) : list string * gset string :=
  fold_left
    (λ '(feat_required_dependencies, dependencies) dependency_item,
       if negb (Py.endswith dependency_item optional_suffix)
       then (feat_required_dependencies ++ [dependency_item],
             dependencies ∪ {[dependency_item]})
       else (feat_required_dependencies,
             dependencies ∪ {[Py.drop_suffix dependency_item optional_suffix]}))
    declared ([], ∅).

Definition _prepare_dependencies_data (entrypoint_features : Py.dict Feature)
    : Py.dict (list string) * Toposort.graph :=
  fold_left
    (λ '(required_dependencies, toposort_data) '(name, feat),
       let '(feat_required_dependencies, dependencies) :=
         prepare_feature (f_dependencies feat) in
       (Py.dict_set required_dependencies name feat_required_dependencies,
        <[name := dependencies]> toposort_data))
    entrypoint_features ([], ∅).

Definition missing_dependency_message (name required_dependency : string) : string :=
  String.append "A required dependency is missing for "
    (String.append name
       (String.append " feature (" (String.append required_dependency ")"))).

Definition _check_missing_dependencies (entrypoint_features : Py.dict Feature)
    (required_dependencies : Py.dict (list string)) : M State unit :=
  for_each required_dependencies (λ '(name, feat_required_dependencies),
    for_each feat_required_dependencies (λ required_dependency,
      if negb (Py.dict_has entrypoint_features required_dependency)
      then raise (ValueError (missing_dependency_message name required_dependency))
      else ret tt)).

(** Lines 84-85: a feature the mapping names and the graph lacks becomes a
    node with no dependency. *)
Definition ensure_node (feat : string) (toposort_data : Toposort.graph) : Toposort.graph :=
  if bool_decide (feat ∈ dom toposort_data) then toposort_data
  else <[feat := ∅]> toposort_data.

(** Lines 86-87: [toposort_data[feat].add(feat_dependency)] for each one;
    the subscript raises [KeyError] on a key the graph lacks. *)
Definition add_dependency (feat feat_dependency : string)
    (toposort_data : Toposort.graph) : Exn + Toposort.graph :=
  match toposort_data !! feat with
  | None => inl (KeyError feat)
  | Some deps => inr (<[feat := deps ∪ {[feat_dependency]}]> toposort_data)
  end.

Definition add_dependencies (feat : string) (feat_dependencies : list string)
    (toposort_data : Toposort.graph) : Exn + Toposort.graph :=
  fold_left (λ acc feat_dependency,
               match acc with
               | inl e => inl e
               | inr td => add_dependency feat feat_dependency td
               end)
    feat_dependencies (inr toposort_data).

Definition merge_dependencies (dependencies : Py.dict (list string))
    (toposort_data : Toposort.graph) : Exn + Toposort.graph :=
  fold_left (λ acc '(feat, feat_dependencies),
               match acc with
               | inl e => inl e
               | inr td => add_dependencies feat feat_dependencies (ensure_node feat td)
               end)
    dependencies (inr toposort_data).

Definition call_toposort_flatten (data : Toposort.graph) : M State (list string) :=
  λ s, let s1 := log_call (CToposort data) s in
       match Toposort.toposort_flatten data with
       | inl e => Raise e s1
       | inr names => Ret names s1
       end.

Definition build_entrypoint_features (default_features : list Feature) : Py.dict Feature :=
  let entrypoint_features :=
    fold_left (λ d f, Py.dict_set d (f_name f) f) default_features [] in
  fold_left (λ d feature, Py.dict_set d (f_name feature) feature)
    entry_point_features entrypoint_features.

Definition register_features (default_features : list Feature) : M State unit :=
  let entrypoint_features := build_entrypoint_features default_features in
  let '(required_dependencies, toposort_data) :=
    _prepare_dependencies_data entrypoint_features in
  _check_missing_dependencies entrypoint_features required_dependencies >>
  let! s := get in
  let dependencies := config_dependencies (world s) in
  match merge_dependencies dependencies toposort_data with
  | inl e => raise e
  | inr toposort_data =>
      let! sorted_feature_names := call_toposort_flatten toposort_data in
      for_each sorted_feature_names (λ feature_name,
        match Py.dict_get entrypoint_features feature_name with
        | Some feature => registry_register features_registry feature
        | None => ret tt
        end)
  end.

(** ** Feature lifecycle *)

Definition register_objects {A} (features_list : list Feature)
    (objects_getter : Feature → W → list A) (registry : Registry A) : M State unit :=
  let! s := get in
  let all_objects :=
    fold_left (λ all_objects feature, all_objects ++ objects_getter feature (world s))
      features_list [] in
  for_each all_objects (λ obj, registry_register registry obj).

(** [lambda f: [a for a in f.actions if not a.disabled]] *)
Definition enabled_actions (f : Feature) (w : W) : list Action :=
  List.filter (λ a, negb (a_disabled a w)) (f_actions f w).

Definition load_registered_features : M State (list Feature) :=
  let! all_features := registry_all features_registry in
  for_each all_features (λ feature,
    call_effect (CBeforeLoad (f_name feature)) (f_before_load feature)) >>
  for_each all_features (λ feature,
    call_effect (CConfigure (f_name feature)) (f_configure feature)) >>
  let! s := get in
  let enabled_features := List.filter (λ f, negb (f_disabled f (world s))) all_features in
  register_objects enabled_features (λ f, f_phases f) phases_registry >>
  register_objects enabled_features (λ f, f_commands f) commands_registry >>
  register_objects enabled_features enabled_actions actions_registry >>
  register_objects enabled_features (λ f, f_binaries f) binaries_registry >>
  register_objects enabled_features (λ f, f_services f) services_registry >>
  for_each enabled_features (λ feature,
    call_effect (CAfterLoad (f_name feature)) (f_after_load feature)) >>
  ret enabled_features.

(** ** Binding actions to the event bus *)

Definition by_order (x y : Action) : bool := (a_order x <=? a_order y)%Z.

Definition register_actions_in_event_bus (fail_fast : bool) : M State unit :=
  let! all_actions := registry_all actions_registry in
  let sorted_actions := Py.sorted by_order all_actions in
  for_each sorted_actions (λ action,
    match a_event_bindings action with
    | SingleEvent event_name =>
        bus_on event_name
          (action_event_binding_runner_factory action event_name None fail_fast)
    | EventList event_bindings =>
        for_each event_bindings (λ event_binding,
          match event_binding with
          | BindEvent event_name =>
              bus_on event_name
                (action_event_binding_runner_factory action event_name None fail_fast)
          | BindMethod event_name method_name =>
              bus_on event_name
                (action_event_binding_runner_factory action event_name
                   (Some method_name) fail_fast)
          end)
    end).

(** ** Command line *)

Definition run_execute_command (command : Command) : M State unit :=
  λ s, call_effect (CExecuteCommand (c_name command) (config_args s))
         (execute_command command (config_args s) (config_unknown_args s)) s.

Definition select_log_level (parsed_args : ParsedArgs) : string :=
  if pa_very_verbose parsed_args then "DEBUG"
  else if pa_verbose parsed_args then "VERBOSE"
  else if pa_silent parsed_args then "CRITICAL"
  else "INFO".

(** [if parsed_args.command:] *)
Definition selected_command (parsed_args : ParsedArgs) : option string :=
  match pa_command parsed_args with
  | Some EmptyString | None => None
  | Some name => Some name
  end.

Definition handle_command_line (args : option (list string)) : M State unit :=
  let! registered := registry_all commands_registry in
  match parse_known_args registered args with
  | inl e => raise e
  | inr (parsed_args, unknown_args) =>
      modify (set_log_level (select_log_level parsed_args)) >>
      match selected_command parsed_args with
      | Some name =>
          let! command := registry_get commands_registry name in
          modify (set_config_args (Some parsed_args)) >>
          modify (set_config_unknown_args unknown_args) >>
          try_restart (run_execute_command command)
            (λ restart_args,
               modify (set_config_args (Some restart_args)) >>
               run_execute_command command)
      | None => modify (log_call CPrintHelp)
      end
  end.

(** ** Entry points *)

Definition main (args : option (list string)) : M State (list Exn) :=
  call_effect CConfigLoad config_load >>
  call_effect CRegisterDefaultCaches register_default_caches >>
  register_features default_features >>
  load_registered_features >>
  register_actions_in_event_bus false >>
  handle_command_line args >>
  let! s := get in
  ret (context_exceptions (world s)).

Definition console_script : M State unit :=
  let! exceptions := main None in
  match exceptions with
  | _ :: _ => raise (SystemExit 1)
  | [] => ret tt
  end.

(** The exit status of the process when the entry point ends with [o]:
    that of [sys.exit] when it was called, 1 when another exception went
    through, 0 when the entry point returned. *)
Definition exit_status {A} (o : Outcome State A) : Z :=
  match o with
  | Ret _ _ => 0
  | Raise (SystemExit code) _ => code
  | Raise _ _ => 1
  end.

End Program.

(** ** The shell environment backup *)

(** [encode_environ_backup] and [decode_environ_backup] of
    [ddb/feature/shell/actions.py]. A [str] is the list of its code points
    and [bytes] the list of its bytes; [None] stands for an exception. The
    library functions the two call are written out after CPython:
    [json.dumps] with its defaults ([ensure_ascii], separators [", "] and
    [": "]), [str.encode] and [bytes.decode] for UTF-8, [base64.b64encode]
    and [base64.b64decode] (that is [binascii.a2b_base64], not strict), and
    [json.loads] on the JSON texts that are one object whose values are
    strings, which is all [json.dumps] gives for a dict of strings; on any
    other text [json_loads] here gives [None]. *)
Module EnvBackup.

Open Scope N_scope.

Abbreviation str := (list N).
Abbreviation bytes := (list N).

(** A dict of strings, in insertion order. *)
Abbreviation environ := (list (str * str)).

Definition is_code_point (c : N) : bool := c <? 0x110000.
Definition is_high_surrogate (c : N) : bool := (0xd800 <=? c) && (c <=? 0xdbff).
Definition is_low_surrogate (c : N) : bool := (0xdc00 <=? c) && (c <=? 0xdfff).

(** *** [json.dumps] *)

(** ['{0:04x}'.format(n)] for [n < 0x10000] *)
Definition hex_digit (d : N) : N := if d <? 10 then 48 + d else 87 + d.

Definition hex4 (n : N) : str :=
  [hex_digit (n / 4096 mod 16); hex_digit (n / 256 mod 16);
   hex_digit (n / 16 mod 16); hex_digit (n mod 16)].

Definition u_escape (n : N) : str := [92; 117] ++ hex4 n.

(** The replacement of one character in [py_encode_basestring_ascii]: the
    short escapes, the printable ASCII characters as they are, [\uXXXX] for
    the rest of the basic plane and a surrogate pair beyond. *)
Definition escape_char (c : N) : str :=
  if c =? 92 then [92; 92]
  else if c =? 34 then [92; 34]
  else if c =? 8 then [92; 98]
  else if c =? 12 then [92; 102]
  else if c =? 10 then [92; 110]
  else if c =? 13 then [92; 114]
  else if c =? 9 then [92; 116]
  else if (32 <=? c) && (c <=? 126) then [c]
  else if c <? 0x10000 then u_escape c
  else
    let n := c - 0x10000 in
    let s1 := N.lor 0xd800 (N.land (N.shiftr n 10) 0x3ff) in
    let s2 := N.lor 0xdc00 (N.land n 0x3ff) in
    u_escape s1 ++ u_escape s2.

Definition encode_basestring_ascii (s : str) : str :=
  [34] ++ flat_map escape_char s ++ [34].

Definition dumps_item (kv : str * str) : str :=
  encode_basestring_ascii kv.1 ++ [58; 32] ++ encode_basestring_ascii kv.2.

Fixpoint dumps_items (d : environ) : str :=
  match d with
  | [] => []
  | [kv] => dumps_item kv
  | kv :: d' => dumps_item kv ++ [44; 32] ++ dumps_items d'
  end.

Definition json_dumps (d : environ) : str := [123] ++ dumps_items d ++ [125].

(** *** UTF-8 *)

Definition utf8_encode_char (c : N) : option bytes :=
  if c <? 0x80 then Some [c]
  else if c <? 0x800 then
    Some [N.lor 0xc0 (N.shiftr c 6); N.lor 0x80 (N.land c 0x3f)]
  else if c <? 0x10000 then
    if is_high_surrogate c || is_low_surrogate c then None
    else Some [N.lor 0xe0 (N.shiftr c 12);
               N.lor 0x80 (N.land (N.shiftr c 6) 0x3f);
               N.lor 0x80 (N.land c 0x3f)]
  else if c <? 0x110000 then
    Some [N.lor 0xf0 (N.shiftr c 18);
          N.lor 0x80 (N.land (N.shiftr c 12) 0x3f);
          N.lor 0x80 (N.land (N.shiftr c 6) 0x3f);
          N.lor 0x80 (N.land c 0x3f)]
  else None.

(** [s.encode("utf-8")] *)
Fixpoint utf8_encode (s : str) : option bytes :=
  match s with
  | [] => Some []
  | c :: s' =>
      match utf8_encode_char c, utf8_encode s' with
      | Some bs, Some bs' => Some (bs ++ bs')
      | _, _ => None
      end
  end.

Definition in_range (lo hi b : N) : bool := (lo <=? b) && (b <=? hi).
Definition continuation (b : N) : N := N.land b 0x3f.

(** [bs.decode("utf-8")]: shortest forms only, no surrogates, nothing above
    U+10FFFF. *)
Fixpoint utf8_decode (bs : bytes) : option str :=
  match bs with
  | [] => Some []
  | b0 :: bs1 =>
      if b0 <? 0x80 then option_map (cons b0) (utf8_decode bs1)
      else if in_range 0xc2 0xdf b0 then
        match bs1 with
        | b1 :: bs2 =>
            if in_range 0x80 0xbf b1
            then option_map (cons (N.lor (N.shiftl (N.land b0 0x1f) 6) (continuation b1)))
                   (utf8_decode bs2)
            else None
        | _ => None
        end
      else if in_range 0xe0 0xef b0 then
        match bs1 with
        | b1 :: b2 :: bs3 =>
            let lo := if b0 =? 0xe0 then 0xa0 else 0x80 in
            let hi := if b0 =? 0xed then 0x9f else 0xbf in
            if in_range lo hi b1 && in_range 0x80 0xbf b2
            then option_map
                   (cons (N.lor (N.shiftl (N.land b0 0x0f) 12)
                            (N.lor (N.shiftl (continuation b1) 6) (continuation b2))))
                   (utf8_decode bs3)
            else None
        | _ => None
        end
      else if in_range 0xf0 0xf4 b0 then
        match bs1 with
        | b1 :: b2 :: b3 :: bs4 =>
            let lo := if b0 =? 0xf0 then 0x90 else 0x80 in
            let hi := if b0 =? 0xf4 then 0x8f else 0xbf in
            if in_range lo hi b1 && in_range 0x80 0xbf b2 && in_range 0x80 0xbf b3
            then option_map
                   (cons (N.lor (N.shiftl (N.land b0 0x07) 18)
                            (N.lor (N.shiftl (continuation b1) 12)
                               (N.lor (N.shiftl (continuation b2) 6) (continuation b3)))))
                   (utf8_decode bs4)
            else None
        | _ => None
        end
      else None
  end.

(** *** Base64 *)

Definition b64_char (i : N) : N :=
  if i <? 26 then 65 + i
  else if i <? 52 then 97 + (i - 26)
  else if i <? 62 then 48 + (i - 52)
  else if i =? 62 then 43
  else 47.

(** [base64.b64encode(bs)] *)
Fixpoint b64encode (bs : bytes) : bytes :=
  match bs with
  | [] => []
  | [b0] =>
      [b64_char (N.shiftr b0 2); b64_char (N.shiftl (N.land b0 3) 4); 61; 61]
  | [b0; b1] =>
      [b64_char (N.shiftr b0 2);
       b64_char (N.lor (N.shiftl (N.land b0 3) 4) (N.shiftr b1 4));
       b64_char (N.shiftl (N.land b1 15) 2); 61]
  | b0 :: b1 :: b2 :: bs' =>
      [b64_char (N.shiftr b0 2);
       b64_char (N.lor (N.shiftl (N.land b0 3) 4) (N.shiftr b1 4));
       b64_char (N.lor (N.shiftl (N.land b1 15) 2) (N.shiftr b2 6));
       b64_char (N.land b2 63)] ++ b64encode bs'
  end.

(** [table_a2b_base64] *)
Definition b64_value (c : N) : option N :=
  if in_range 65 90 c then Some (c - 65)
  else if in_range 97 122 c then Some (c - 97 + 26)
  else if in_range 48 57 c then Some (c - 48 + 52)
  else if c =? 43 then Some 62
  else if c =? 47 then Some 63
  else None.

(** The loop of [binascii.a2b_base64] when not strict: a character outside
    the alphabet is skipped, a pad that completes a quad ends the input, and
    an input that ends inside a quad is an error. *)
Fixpoint a2b_base64 (data : bytes) (quad_pos leftchar pads : N) (bin_data : bytes)
    : option bytes :=
  match data with
  | [] => if quad_pos =? 0 then Some bin_data else None
  | this_ch :: data' =>
      if this_ch =? 61 then
        if 2 <=? quad_pos then
          if 4 <=? quad_pos + (pads + 1) then Some bin_data
          else a2b_base64 data' quad_pos leftchar (pads + 1) bin_data
        else a2b_base64 data' quad_pos leftchar pads bin_data
      else
        match b64_value this_ch with
        | None => a2b_base64 data' quad_pos leftchar pads bin_data
        | Some v =>
            if quad_pos =? 0 then a2b_base64 data' 1 v 0 bin_data
            else if quad_pos =? 1 then
              a2b_base64 data' 2 (N.land v 0x0f) 0
                (bin_data ++ [N.lor (N.shiftl leftchar 2) (N.shiftr v 4)])
            else if quad_pos =? 2 then
              a2b_base64 data' 3 (N.land v 0x03) 0
                (bin_data ++ [N.lor (N.shiftl leftchar 4) (N.shiftr v 2)])
            else
              a2b_base64 data' 0 0 0
                (bin_data ++ [N.lor (N.shiftl leftchar 6) v])
        end
  end.

(** [base64.b64decode(s)] of a [str]: it is first encoded as ASCII. *)
Definition b64decode (s : str) : option bytes :=
  if forallb (λ c, c <? 0x80) s then a2b_base64 s 0 0 0 [] else None.

(** *** [json.loads] *)

Definition is_ws (c : N) : bool :=
  (c =? 32) || (c =? 9) || (c =? 10) || (c =? 13).

Fixpoint skip_ws (s : str) : str :=
  match s with
  | c :: s' => if is_ws c then skip_ws s' else s
  | [] => []
  end.

Definition hex_value (c : N) : option N :=
  if in_range 48 57 c then Some (c - 48)
  else if in_range 97 102 c then Some (c - 87)
  else if in_range 65 70 c then Some (c - 55)
  else None.

(** The four hexadecimal digits after [\u], and what follows them. *)
Definition decode_uXXXX (s : str) : option (N * str) :=
  match s with
  | h1 :: h2 :: h3 :: h4 :: rest =>
      match hex_value h1, hex_value h2, hex_value h3, hex_value h4 with
      | Some a, Some b, Some c, Some d => Some (((a * 16 + b) * 16 + c) * 16 + d, rest)
      | _, _, _, _ => None
      end
  | _ => None
  end.

(** [BACKSLASH] *)
Definition backslash (esc : N) : option N :=
  if esc =? 34 then Some 34
  else if esc =? 92 then Some 92
  else if esc =? 47 then Some 47
  else if esc =? 98 then Some 8
  else if esc =? 102 then Some 12
  else if esc =? 110 then Some 10
  else if esc =? 114 then Some 13
  else if esc =? 116 then Some 9
  else None.

Inductive Lookahead :=
| NoEscape
| BadEscape
| Escape (uni2 : N) (rest : str).

(** What follows a [\uXXXX]: another one, well formed or not, or
    something else. *)
Definition lookahead (s : str) : Lookahead :=
  match s with
  | b :: u :: s' =>
      if (b =? 92) && (u =? 117) then
        match decode_uXXXX s' with
        | Some (uni2, rest) => Escape uni2 rest
        | None => BadEscape
        end
      else NoEscape
  | _ => NoEscape
  end.

Definition join_surrogates (uni uni2 : N) : N :=
  0x10000 + N.lor (N.shiftl (uni - 0xd800) 10) (uni2 - 0xdc00).

Definition cons_char (c : N) (r : option (str * str)) : option (str * str) :=
  match r with
  | Some (chars, rest) => Some (c :: chars, rest)
  | None => None
  end.

(** [scanstring], strict, from after the opening quote: the string and
    what follows its closing quote. Every round takes at least one
    character, so the length of the text is fuel enough. *)
Fixpoint scanstring (fuel : nat) (s : str) : option (str * str) :=
  match fuel with
  | O => None
  | S fuel' =>
      match s with
      | [] => None
      | c :: rest =>
          if c =? 34 then Some ([], rest)
          else if c =? 92 then
            match rest with
            | [] => None
            | esc :: rest1 =>
                if esc =? 117 then
                  match decode_uXXXX rest1 with
                  | None => None
                  | Some (uni, rest2) =>
                      if is_high_surrogate uni then
                        match lookahead rest2 with
                        | BadEscape => None
                        | Escape uni2 rest3 =>
                            if is_low_surrogate uni2
                            then cons_char (join_surrogates uni uni2) (scanstring fuel' rest3)
                            else cons_char uni (scanstring fuel' rest2)
                        | NoEscape => cons_char uni (scanstring fuel' rest2)
                        end
                      else cons_char uni (scanstring fuel' rest2)
                  end
                else
                  match backslash esc with
                  | Some char => cons_char char (scanstring fuel' rest1)
                  | None => None
                  end
            end
          else if c <? 0x20 then None
          else cons_char c (scanstring fuel' rest)
      end
  end.

(** The members of an object, from after the opening quote of a key: the
    pairs and what follows the closing brace. *)
Fixpoint scan_members (fuel : nat) (s : str) : option (environ * str) :=
  match fuel with
  | O => None
  | S fuel' =>
      match scanstring (length s) s with
      | None => None
      | Some (key, s1) =>
          match skip_ws s1 with
          | colon :: s2 =>
              if colon =? 58 then
                match skip_ws s2 with
                | quote :: s3 =>
                    if quote =? 34 then
                      match scanstring (length s3) s3 with
                      | None => None
                      | Some (value, s4) =>
                          match skip_ws s4 with
                          | nextchar :: s5 =>
                              if nextchar =? 125 then Some ([(key, value)], s5)
                              else if nextchar =? 44 then
                                match skip_ws s5 with
                                | quote' :: s6 =>
                                    if quote' =? 34 then
                                      match scan_members fuel' s6 with
                                      | Some (pairs, rest) => Some ((key, value) :: pairs, rest)
                                      | None => None
                                      end
                                    else None
                                | [] => None
                                end
                              else None
                          | [] => None
                          end
                      end
                    else None
                | [] => None
                end
              else None
          | [] => None
          end
      end
  end.

(** [dict(pairs)]: a later pair replaces the value of an equal key. *)
Fixpoint dict_set (d : environ) (k v : str) : environ :=
  match d with
  | [] => [(k, v)]
  | (k', v') :: d' =>
      if bool_decide (k' = k) then (k, v) :: d' else (k', v') :: dict_set d' k v
  end.

Definition dict_of_pairs (pairs : environ) : environ :=
  fold_left (λ d kv, dict_set d kv.1 kv.2) pairs [].

Definition json_loads (s : str) : option environ :=
  match skip_ws s with
  | brace :: s1 =>
      if brace =? 123 then
        match skip_ws s1 with
        | c :: s2 =>
            if c =? 125 then
              match skip_ws s2 with [] => Some [] | _ :: _ => None end
            else if c =? 34 then
              match scan_members (length s2) s2 with
              | Some (pairs, rest) =>
                  match skip_ws rest with
                  | [] => Some (dict_of_pairs pairs)
                  | _ :: _ => None
                  end
              | None => None
              end
            else None
        | [] => None
        end
      else None
  | [] => None
  end.

(** *** The two functions *)

(** [base64.b64encode(json.dumps(environ_backup).encode("utf-8")).decode("utf-8")] *)
Definition encode_environ_backup (environ_backup : environ) : option str :=
  match utf8_encode (json_dumps environ_backup) with
  | Some bs => utf8_decode (b64encode bs)
  | None => None
  end.

(** [json.loads(base64.b64decode(encoded_environ_backup).decode("utf-8"))] *)
Definition decode_environ_backup (encoded_environ_backup : str) : option environ :=
  match b64decode encoded_environ_backup with
  | Some bs =>
      match utf8_decode bs with
      | Some s => json_loads s
      | None => None
      end
  | None => None
  end.

Close Scope N_scope.

End EnvBackup.

(** ** A small installation *)

(** Three features in the manner of the built-in ones, a world that holds the
    configuration they read, and collaborators over it. *)
Module Example.

Record World := {
  w_disabled : list string;
  w_dependencies : Py.dict (list string);
  w_exceptions : list Exn
}.

Definition quiet : Effect World := λ w, (None, w).

Definition disable (name : string) : Effect World :=
  λ w, (None, {| w_disabled := name :: w_disabled w;
                 w_dependencies := w_dependencies w;
                 w_exceptions := w_exceptions w |}).

Definition is_disabled (name : string) (w : World) : bool :=
  existsb (String.eqb name) (w_disabled w).

Definition action (name : string) (order : Z) (bindings : EventBindings) : Action World :=
  {| a_name := name; a_order := order; a_disabled := is_disabled name;
     a_event_bindings := bindings |}.

Definition list_features : Action World :=
  action "core:list-features" 0 (SingleEvent "phase:info").
Definition emit_config : Action World :=
  action "docker:emit-docker-compose-config" 0
    (EventList [BindEvent "phase:configure"; BindMethod "phase:info" "describe"]).
Definition activate : Action World :=
  action "shell:bash:activate" (-256) (SingleEvent "phase:info").

Definition info : Command := {| c_name := "info"; c_phases := ["phase:info"] |}.

Definition feature (name : string) (dependencies : list string) (configure : Effect World)
    (ps : list Phase) (cs : list Command) (acts : list (Action World)) : Feature World :=
  {| f_name := name; f_dependencies := dependencies; f_disabled := is_disabled name;
     f_before_load := quiet; f_configure := configure; f_after_load := quiet;
     f_phases := λ _, ps; f_commands := λ _, cs; f_actions := λ _, acts;
     f_binaries := λ _, []; f_services := λ _, [] |}.

Definition core : Feature World :=
  feature "core" [] quiet [{| ph_name := "phase:info" |}] [info] [list_features].
Definition docker : Feature World :=
  feature "docker" ["core"] quiet [] [] [emit_config].
Definition shell : Feature World :=
  feature "shell" ["core"; "docker[optional]"] quiet [] [] [activate].
(** A feature that turns itself off when it is configured. *)
Definition traefik : Feature World :=
  feature "traefik" ["docker"] (disable "traefik") [] [] [action "traefik:extra" 5 (EventList [])].
(** A feature that requires one that does not exist. *)
Definition broken : Feature World :=
  feature "broken" ["core"; "missing"] quiet [] [] [].

Definition with_option (parsed_args : ParsedArgs) (option : string * string) : ParsedArgs :=
  {| pa_command := pa_command parsed_args; pa_verbose := pa_verbose parsed_args;
     pa_very_verbose := pa_very_verbose parsed_args; pa_silent := pa_silent parsed_args;
     pa_options := option :: pa_options parsed_args |}.

(** A command that asks for a restart until it is given an option. *)
Definition restart_once (parsed_args : option ParsedArgs) : Effect World :=
  λ w, match parsed_args with
       | Some pa =>
           match pa_options pa with
           | [] => (Some (RestartWithArgs (with_option pa ("eject", "true"))), w)
           | _ :: _ => (None, w)
           end
       | None => (None, w)
       end.

#[export] Instance collaborators : Collaborators World := {|
  default_features := [docker; traefik; core; shell];
  entry_point_features := [];
  config_dependencies := w_dependencies;
  config_load := quiet;
  register_default_caches := quiet;
  parse_known_args := λ _ args,
    inr ({| pa_command := match args with Some (name :: _) => Some name | _ => None end;
            pa_verbose := false; pa_very_verbose := false; pa_silent := false;
            pa_options := [] |}, []);
  execute_command := λ _ parsed_args _, restart_once parsed_args;
  context_exceptions := w_exceptions
|}.

Definition plain : World :=
  {| w_disabled := []; w_dependencies := []; w_exceptions := [] |}.

(** A configuration that names a feature nobody provides, as a key and as
    a dependency. *)
Definition with_ghost : World :=
  {| w_disabled := []; w_dependencies := [("ghost", ["core"]); ("shell", ["phantom"])];
     w_exceptions := [] |}.

(** A configuration whose dependencies close a cycle through a feature
    nobody provides. *)
Definition with_cycle : World :=
  {| w_disabled := [];
     w_dependencies := [("core", ["ghost"]); ("ghost", ["core"])];
     w_exceptions := [] |}.

(** A world in which one action has failed. *)
Definition failed : World :=
  {| w_disabled := []; w_dependencies := [];
     w_exceptions := [OtherError "boom"] |}.

Definition start (w : World) : State World :=
  {| world := w; features := []; phases := []; commands := []; actions := [];
     binaries := []; services := []; bus := ∅; config_args := None;
     config_unknown_args := []; log_level := EmptyString; calls := [] |}.

(** The state after [register_features] in the plain world. *)
Definition registered (w : World) : State World :=
  set_features [core; docker; shell; traefik] (start w).

End Example.

(** ** Configuration: [ddb/config/config.py] *)

Module Config.

(** Configuration data as YAML gives it: [None], a scalar, a dict as the
    list of its items in insertion order, a list. *)
Inductive Scalar :=
| SStr (s : string)
| SInt (n : Z)
| SBool (b : bool).

Inductive Data :=
| DNone
| DScalar (v : Scalar)
| DDict (items : list (string * Data))
| DList (items : list Data).

(** [if s:] for a string *)
Definition truthy (s : string) : bool :=
  match s with EmptyString => false | String _ _ => true end.

(** [str(i)] for an index *)
Definition str_of_index (i : nat) : string := pretty i.

(** [fmt % s] for a format [before%safter] *)
Definition percent_s (before after : string) (s : string) : string :=
  before +:+ s +:+ after.

(** [for x in l: output = body x output]: an exception of the body, or a
    body that does not end, ends the loop. *)
Fixpoint for_items {A S : Type} (l : list A) (body : A → S → option (Exn + S)) (s : S)
    : option (Exn + S) :=
  match l with
  | [] => Some (inr s)
  | x :: l' =>
      match body x s with
      | Some (inr s') => for_items l' body s'
      | Some (inl e) => Some (inl e)
      | None => None
      end
  end.

(** [enumerate(l)] from [i] *)
Fixpoint enumerate_from {A : Type} (i : nat) (l : list A) : list (nat * A) :=
  match l with
  | [] => []
  | x :: l' => (i, x) :: enumerate_from (S i) l'
  end.

Section flatten.
(** [dict(self.data)]. [self.data] is a [Dotty], which reads a key as a
    path: [dict] of it gives a dict, or raises, as it does with [KeyError]
    on a key it cannot follow. Nothing in a flattening changes
    [self.data], so that the outcome is the same every time. *)
Variable data_dict : Exn + Py.dict Data.
Variables (sep : string) (array_index_format : string → string).
Variables (key_transformer : string → string) (value_transformer : Data → Data).
Variable stop_for : list string.

(** The body of [Config.flatten] once its defaults are filled in, which
    is how it calls itself. The result is [Some (inr output)] when it
    returns, [Some (inl e)] when it raises, and [None] stands for a
    recursion that does not end. A [data] that is [None] is replaced by
    [dict(self.data)] at every call, not only at the first. *)
Fixpoint flatten_from (fuel : nat) (prefix : string) (data : Data) (output : Py.dict Data)
    : option (Exn + Py.dict Data) :=
  match fuel with
  | O => None
  | S fuel' =>
      let data :=
        match data with
        | DNone =>
            match data_dict with
            | inl e => inl e
            | inr root => inr (DDict root)
            end
        | _ => inr data
        end in
      match data with
      | inl e => Some (inl e)
      | inr data =>
          let stop_recursion := bool_decide (prefix ∈ stop_for) in
          match stop_recursion, data with
          | false, DDict items =>
              for_items items
                (λ '(name, value) output,
                   let key_prefix :=
                     (if truthy prefix then prefix +:+ sep else EmptyString)
                     +:+ key_transformer name in
                   let key_prefix := key_transformer key_prefix in
                   flatten_from fuel' key_prefix value output)
                output
          | false, DList items =>
              for_items (enumerate_from 0 items)
                (λ '(i, value) output,
                   let replace_prefix :=
                     (if truthy prefix then prefix else EmptyString)
                     +:+ array_index_format (str_of_index i) in
                   let replace_prefix := key_transformer replace_prefix in
                   flatten_from fuel' replace_prefix value output)
                output
          | _, _ => Some (inr (Py.dict_set output prefix (value_transformer data)))
          end
      end
  end.

End flatten.

(** [Config.flatten]: the arguments left out or [None] get their defaults. *)
Definition flatten (data_dict : Exn + Py.dict Data) (fuel : nat)
    (prefix : option string) (sep : string) (array_index_format : string → string)
    (key_transformer : option (string → string))
    (value_transformer : option (Data → Data))
    (stop_for : list string) (data : Data) (output : option (Py.dict Data))
    : option (Exn + Py.dict Data) :=
  let output := default [] output in
  let prefix := default EmptyString prefix in
  let key_transformer := default (λ x, x) key_transformer in
  let value_transformer := default (λ x, x) value_transformer in
  flatten_from data_dict sep array_index_format key_transformer value_transformer stop_for
    fuel prefix data output.


Section overrides.
Variable env_override_prefix : string.
(** [os.environ.get] *)
Variable environ_get : string → option string.
(** [str.upper] *)
Variable upper : string → string.

(** [if environ_value:] *)
Definition set_in_environ (name : string) : option string :=
  match environ_get name with
  | Some value => if truthy value then Some value else None
  | None => None
  end.

(** [Config.apply_environ_overrides]. Every item of a dict is assigned
    under its own key, which keeps the keys and their order; an element of
    a list is assigned only when a variable carries its own name. *)
Fixpoint apply_environ_overrides (data : Data) (prefix : option string) : Data :=
  let prefix :=
    match prefix with
    | Some p => if truthy p then p else env_override_prefix
    | None => env_override_prefix
    end in
  let prefix := upper prefix in
  match set_in_environ prefix with
  | Some environ_value => DScalar (SStr environ_value)
  | None =>
      match data with
      | DDict items =>
          DDict ((fix each (items : list (string * Data)) : list (string * Data) :=
                    match items with
                    | [] => []
                    | (name, value) :: items' =>
                        let key_prefix := prefix +:+ "_" +:+ name in
                        let key_prefix := upper key_prefix in
                        (name, apply_environ_overrides value (Some key_prefix)) :: each items'
                    end) items)
      | DList items =>
          DList ((fix each (i : nat) (items : list Data) : list Data :=
                    match items with
                    | [] => []
                    | value :: items' =>
                        let replace_prefix := prefix +:+ "[" +:+ str_of_index i +:+ "]" in
                        let replace_prefix := upper replace_prefix in
                        match set_in_environ replace_prefix with
                        | Some _ =>
                            apply_environ_overrides value (Some replace_prefix) :: each (S i) items'
                        | None => value :: each (S i) items'
                        end
                    end) 0%nat items)
      | _ => data
      end
  end.

End overrides.

End Config.

(** ** Shell: [apply_diff_to_shell] of [ddb/feature/shell/actions.py] *)

Module Shell.

(** An environment: a dict of strings. *)
Abbreviation Environment := (Py.dict string).

(** The key [dictdiffer] gives for a changed variable: its name, or, when
    the name holds a dot, a list that holds the name. *)
Inductive Key :=
| KeyName (name : string)
| KeyPath (path : list string).

(** What [dictdiffer.diff] yields for two environments, as
    [apply_diff_to_shell] reads it: [('add', _, [(key, value), ...])],
    [('change', key, (old, new))] and [('remove', _, [(key, value), ...])].
    The keys of the items added and removed are the names themselves. *)
Inductive Difference :=
| Add (dest_items : list (string * string))
| Change (source : Key) (old new : string)
| Remove (dest_items : list (string * string)).

(** The calls made on the shell integration, in order, with the key they
    are given. *)
Inductive ShellCall :=
| SetEnvironmentVariable (key : Key) (value : string)
| RemoveEnvironmentVariable (key : Key).

(** What ends [apply_diff_to_shell] early: the [TypeError] of a comparison
    in [sorted], or an exception of the ignore helper. *)
Inductive Failure :=
| TypeError
| HelperError (e : Exn).

(** [a <= b] on lists of strings, item by item. *)
Fixpoint path_leb (a b : list string) : bool :=
  match a, b with
  | [], _ => true
  | _ :: _, [] => false
  | x :: a', y :: b' => if String.eqb x y then path_leb a' b' else String.leb x y
  end.

Definition same_kind (a b : Key) : bool :=
  match a, b with
  | KeyName _, KeyName _ | KeyPath _, KeyPath _ => true
  | _, _ => false
  end.

(** [a <= b] on two keys of one kind. *)
Definition key_leb (a b : Key) : bool :=
  match a, b with
  | KeyName x, KeyName y => String.leb x y
  | KeyPath x, KeyPath y => path_leb x y
  | _, _ => false
  end.

Definition by_key (x y : Key * option string) : bool := key_leb x.1 y.1.

(** [sorted(variables, key=lambda variable: variable[0])]. A sort compares
    every item of a list of two or more with another one, and the
    comparison of a string with a list raises [TypeError]: [None]. *)
Definition sorted_by_key (variables : list (Key * option string))
    : option (list (Key * option string)) :=
  match variables with
  | [] => Some []
  | first :: _ =>
      if forallb (λ variable, same_kind first.1 variable.1) variables
      then Some (Py.sorted by_key variables)
      else None
  end.

Section apply_diff.
(** [dictdiffer.diff] *)
Variable diff : Environment → Environment → list Difference.
(** [zgitignore.ZgitIgnore(patterns).is_ignored(key)] for a name, and for
    a list, of which nothing is known. *)
Variable is_ignored : list string → string → bool.
Variable is_ignored_path : list string → list string → Exn + bool.

(** The first loop: the variables to set, with their value, and the ones to
    remove, with [None]. *)
Definition variables_of (differences : list Difference) : list (Key * option string) :=
  fold_left
    (λ variables difference,
       match difference with
       | Add dest_items =>
           fold_left (λ variables '(key, value), variables ++ [(KeyName key, Some value)])
             dest_items variables
       | Change source _ new => variables ++ [(source, Some new)]
       | Remove dest_items =>
           fold_left (λ variables '(key, _), variables ++ [(KeyName key, None)])
             dest_items variables
       end)
    differences [].

(** [not envignore_helper or not envignore_helper.is_ignored(key)] *)
Definition kept (envignore_helper : option (list string)) (key : Key) : Exn + bool :=
  match envignore_helper with
  | None => inr true
  | Some patterns =>
      match key with
      | KeyName name => inr (negb (is_ignored patterns name))
      | KeyPath path =>
          match is_ignored_path patterns path with
          | inl e => inl e
          | inr ignored => inr (negb ignored)
          end
      end
  end.

(** The calls made, and what ended them early if something did. *)
Definition apply_diff_to_shell (source_environment target_environment : Environment)
    (envignore : option (list string)) : list ShellCall * option Failure :=
  let variables := variables_of (diff source_environment target_environment) in
  let envignore_helper :=
    match envignore with
    | Some ((_ :: _) as patterns) => Some patterns
    | _ => None
    end in
  match sorted_by_key variables with
  | None => ([], Some TypeError)
  | Some sorted_variables =>
      fold_left
        (λ '(calls, failure) '(key, value),
           match failure with
           | Some _ => (calls, failure)
           | None =>
               match kept envignore_helper key with
               | inl e => (calls, Some (HelperError e))
               | inr true =>
                   match value with
                   | None => (calls ++ [RemoveEnvironmentVariable key], None)
                   | Some value => (calls ++ [SetEnvironmentVariable key value], None)
                   end
               | inr false => (calls, None)
               end
           end)
        sorted_variables ([], None)
  end.

End apply_diff.

End Shell.

(** * Facts *)

(** ** Python dicts *)

Module PyFacts.
Import Py.

Lemma eqb_decide (a b : string) : String.eqb a b = bool_decide (a = b).
Proof.
  destruct (String.eqb_spec a b); symmetry;
    [by apply bool_decide_eq_true | by apply bool_decide_eq_false].
Qed.

Section dict.
Context {V : Type}.
Implicit Types (d : dict V) (k : string) (v : V).

Lemma dict_keys_set_in d k v :
  k ∈ dict_keys d → dict_keys (dict_set d k v) = dict_keys d.
Proof.
  unfold dict_keys. induction d as [|[k' v'] d IH]; csimpl; intros Hin.
  - by apply elem_of_nil in Hin.
  - rewrite eqb_decide. case_bool_decide as Hk; csimpl; [by subst|].
    f_equal. apply IH. apply elem_of_cons in Hin as [->|]; done.
Qed.

Lemma dict_keys_set_notin d k v :
  k ∉ dict_keys d → dict_keys (dict_set d k v) = dict_keys d ++ [k].
Proof.
  unfold dict_keys. induction d as [|[k' v'] d IH]; csimpl; intros Hin; [done|].
  rewrite eqb_decide. apply not_elem_of_cons in Hin as [Hne Hin].
  rewrite bool_decide_eq_false_2 by done. csimpl. by rewrite IH.
Qed.

Lemma dict_set_notin d k v :
  k ∉ dict_keys d → dict_set d k v = d ++ [(k, v)].
Proof.
  unfold dict_keys. induction d as [|[k' v'] d IH]; csimpl; intros Hin; [done|].
  rewrite eqb_decide. apply not_elem_of_cons in Hin as [Hne Hin].
  rewrite bool_decide_eq_false_2 by done. by rewrite IH.
Qed.

Lemma dict_set_NoDup d k v : NoDup (dict_keys d) → NoDup (dict_keys (dict_set d k v)).
Proof.
  intros Hnd. destruct (decide (k ∈ dict_keys d)) as [Hin|Hin].
  - by rewrite dict_keys_set_in.
  - rewrite dict_keys_set_notin by done. apply NoDup_app. split_and!; [done| |apply NoDup_singleton].
    intros x Hx ->%list_elem_of_singleton. done.
Qed.

Lemma dict_get_None d k : dict_get d k = None ↔ k ∉ dict_keys d.
Proof.
  unfold dict_keys. induction d as [|[k' v'] d IH]; csimpl.
  - split; [intros _; apply not_elem_of_nil | done].
  - rewrite eqb_decide, not_elem_of_cons. case_bool_decide; csimpl.
    + split; [done | intros [? _]; congruence].
    + rewrite IH. split; [intros ?; split; [congruence|done] | by intros [_ ?]].
Qed.

Lemma dict_get_Some_elem d k v : dict_get d k = Some v → (k, v) ∈ d.
Proof.
  induction d as [|[k' v'] d IH]; csimpl; [done|].
  rewrite eqb_decide. case_bool_decide; csimpl.
  - intros [= ->]. subst. apply elem_of_cons; by left.
  - intros ?. apply elem_of_cons; right; auto.
Qed.

Lemma dict_elem_get d k v : NoDup (dict_keys d) → (k, v) ∈ d → dict_get d k = Some v.
Proof.
  unfold dict_keys. induction d as [|[k' v'] d IH]; csimpl; intros Hnd Hin.
  - by apply elem_of_nil in Hin.
  - apply NoDup_cons in Hnd as [Hk' Hnd]. rewrite eqb_decide.
    apply elem_of_cons in Hin as [[= -> ->]|Hin].
    + by rewrite bool_decide_eq_true_2.
    + rewrite bool_decide_eq_false_2; [by apply IH|].
      intros ->. apply Hk'. apply list_elem_of_fmap. by exists (k, v).
Qed.

Lemma dict_set_elem d k v k' v' :
  (k', v') ∈ dict_set d k v → (k', v') = (k, v) ∨ (k', v') ∈ d.
Proof.
  induction d as [|[k0 v0] d IH]; csimpl.
  - intros ->%list_elem_of_singleton. by left.
  - destruct (String.eqb k0 k).
    + intros [->|?]%elem_of_cons; [by left | right; apply elem_of_cons; by right].
    + intros [->|[->|?]%IH]%elem_of_cons; [right; apply elem_of_cons; by left | by left |].
      right; apply elem_of_cons; by right.
Qed.

Lemma dict_has_spec d k : dict_has d k = true ↔ k ∈ dict_keys d.
Proof. unfold dict_has. apply bool_decide_eq_true. Qed.

End dict.

Lemma dict_from_list_NoDup {A V} (key : A → string) (val : A → V) (l : list A) (d : dict V) :
  NoDup (dict_keys d) →
  NoDup (dict_keys (fold_left (λ d x, dict_set d (key x) (val x)) l d)).
Proof.
  revert d. induction l as [|x l IH]; csimpl; intros d Hd; [done|].
  apply IH. by apply dict_set_NoDup.
Qed.

Lemma dict_from_list_keyed {A V} (key : A → string) (val : A → V)
    (P : string → V → Prop) (l : list A) (d : dict V) :
  (∀ x, P (key x) (val x)) →
  (∀ k v, (k, v) ∈ d → P k v) →
  ∀ k v, (k, v) ∈ fold_left (λ d x, dict_set d (key x) (val x)) l d → P k v.
Proof.
  intros HP. revert d. induction l as [|x l IH]; csimpl; intros d Hd; [done|].
  apply IH. intros k v [[= -> ->]|?]%dict_set_elem; auto.
Qed.

End PyFacts.

(** ** [sorted] *)

Module SortedFacts.
Import Py.

Section sorted.
Context {A : Type} (leb : A → A → bool).

Lemma insert_sorted_perm x l : insert_sorted leb x l ≡ₚ x :: l.
Proof.
  induction l as [|y l IH]; simpl; [done|].
  destruct (leb x y); [done|]. rewrite IH. apply Permutation_swap.
Qed.

Lemma sorted_perm l : sorted leb l ≡ₚ l.
Proof.
  induction l as [|x l IH]; simpl; [done|].
  by rewrite insert_sorted_perm, IH.
Qed.

Lemma sorted_elem x l : x ∈ sorted leb l ↔ x ∈ l.
Proof. by rewrite sorted_perm. Qed.

Lemma sorted_NoDup l : NoDup l → NoDup (sorted leb l).
Proof. by rewrite sorted_perm. Qed.

End sorted.

(** Sorting on an integer key. *)
Section by_key.
Context {A : Type} (key : A → Z).

Definition key_leb (x y : A) : bool := (key x <=? key y)%Z.
Definition key_le (x y : A) : Prop := (key x ≤ key y)%Z.

Lemma insert_sorted_StronglySorted x l :
  StronglySorted key_le l → StronglySorted key_le (insert_sorted key_leb x l).
Proof.
  induction 1 as [|y l Hl IH Hy]; simpl.
  - repeat constructor.
  - unfold key_leb at 1. destruct (Z.leb_spec (key x) (key y)) as [Hle|Hgt].
    + constructor; [by constructor|]. constructor; [done|].
      eapply Forall_impl; [exact Hy|]. unfold key_le. intros; simpl in *; lia.
    + constructor; [done|]. rewrite insert_sorted_perm. constructor; [|done].
      unfold key_le. lia.
Qed.

Lemma sorted_StronglySorted l : StronglySorted key_le (sorted key_leb l).
Proof.
  induction l as [|x l IH]; simpl; [constructor|]. by apply insert_sorted_StronglySorted.
Qed.

(** Stability: among the elements of one key, the order is that of the
    input. *)
Lemma insert_sorted_filter k x l :
  List.filter (λ a, (key a =? k)%Z) (insert_sorted key_leb x l)
  = List.filter (λ a, (key a =? k)%Z) (x :: l).
Proof.
  induction l as [|y l IH]; [done|]. cbn [insert_sorted].
  unfold key_leb at 1. destruct (Z.leb_spec (key x) (key y)) as [Hle|Hgt]; [done|].
  cbn [List.filter] in *. rewrite IH.
  destruct (Z.eqb_spec (key x) k), (Z.eqb_spec (key y) k); try done. lia.
Qed.

Lemma sorted_stable k l :
  List.filter (λ a, (key a =? k)%Z) (sorted key_leb l)
  = List.filter (λ a, (key a =? k)%Z) l.
Proof.
  induction l as [|x l IH]; [done|]. cbn [sorted].
  rewrite insert_sorted_filter. cbn [List.filter]. by rewrite IH.
Qed.

(** Two elements of one key go to the same place. *)
Lemma insert_sorted_same_key x y l :
  key x = key y →
  ∃ p q, insert_sorted key_leb x l = p ++ x :: q ∧ insert_sorted key_leb y l = p ++ y :: q.
Proof.
  intros Hk. induction l as [|z l (p & q & Hx & Hy)]; simpl.
  - by exists [], [].
  - unfold key_leb at 1 3. rewrite <- Hk. destruct (key x <=? key z)%Z.
    + by exists [], (z :: l).
    + exists (z :: p), q. by rewrite Hx, Hy.
Qed.

Lemma insert_sorted_beside z x y p q :
  key x = key y →
  ∃ p' q', insert_sorted key_leb z (p ++ x :: q) = p' ++ x :: q' ∧
           insert_sorted key_leb z (p ++ y :: q) = p' ++ y :: q'.
Proof.
  intros Hk. induction p as [|h p (p' & q' & Hx & Hy)]; simpl.
  - unfold key_leb at 1 3. rewrite <- Hk. destruct (key z <=? key x)%Z.
    + by exists [z], q.
    + by exists [], (insert_sorted key_leb z q).
  - destruct (key_leb z h).
    + by exists (z :: h :: p), q.
    + exists (h :: p'), q'. by rewrite Hx, Hy.
Qed.

Lemma sorted_same_key x y pre post :
  key x = key y →
  ∃ p q, sorted key_leb (pre ++ x :: post) = p ++ x :: q ∧
         sorted key_leb (pre ++ y :: post) = p ++ y :: q.
Proof.
  intros Hk. induction pre as [|z pre (p & q & Hx & Hy)]; simpl.
  - by apply insert_sorted_same_key.
  - rewrite Hx, Hy. by apply insert_sorted_beside.
Qed.

End by_key.
End SortedFacts.

(** ** Topological sort *)

Module ToposortFacts.
Import Toposort.

Lemma ordered_subseteq (data : graph) : ordered data ⊆ dom data.
Proof. unfold ordered. apply dom_filter_subseteq. Qed.

Lemma dom_remove_ordered o (data : graph) :
  dom (remove_ordered o data) = dom data ∖ o.
Proof.
  unfold remove_ordered. rewrite dom_fmap_L.
  apply dom_filter_L. intros i. rewrite elem_of_difference, elem_of_dom.
  unfold is_Some. naive_solver.
Qed.

Lemma size_remove_ordered (data : graph) :
  ordered data ≠ ∅ → (size (remove_ordered (ordered data) data) < size data)%nat.
Proof.
  intros Hne. rewrite <- !size_dom, dom_remove_ordered.
  pose proof (ordered_subseteq data) as Hsub.
  rewrite size_difference by done.
  assert (size (ordered data) ≠ 0) by (by intros ?%size_empty_inv%leibniz_equiv).
  assert (size (ordered data) ≤ size (dom data))%nat by (by apply subseteq_size).
  lia.
Qed.

Lemma levels_empty n : levels n (∅ : graph) = ([], ∅).
Proof.
  destruct n; simpl; [done|].
  unfold ordered. rewrite map_filter_empty, dom_empty_L. by rewrite decide_True.
Qed.

(** Any fuel from [size data] on gives what the unbounded loop gives. *)
Lemma levels_fuel n m (data : graph) :
  (size data ≤ n)%nat → (size data ≤ m)%nat → levels n data = levels m data.
Proof.
  revert m data. induction n as [|n IH]; intros m data Hn Hm.
  - assert (data = ∅) as -> by (apply map_size_empty_inv; lia).
    by rewrite !levels_empty.
  - destruct m as [|m].
    + assert (data = ∅) as -> by (apply map_size_empty_inv; lia).
      by rewrite !levels_empty.
    + simpl. case_decide as Ho; [done|].
      pose proof (size_remove_ordered data Ho).
      rewrite (IH m) by lia. done.
Qed.

Lemma elem_of_concat_elements (ls : list (gset string)) x :
  x ∈ concat (elements <$> ls) ↔ x ∈ ⋃ ls.
Proof.
  induction ls as [|l ls IH]; csimpl.
  - set_solver.
  - rewrite elem_of_app, elem_of_union, IH, elem_of_elements. done.
Qed.

Lemma levels_spec n (data : graph) ls rest :
  levels n data = (ls, rest) →
  ⋃ ls ∪ dom rest = dom data ∧ NoDup (concat (elements <$> ls)).
Proof.
  revert data ls rest. induction n as [|n IH]; intros data ls rest; simpl.
  - intros [= <- <-]. split; [set_solver | constructor].
  - case_decide as Ho.
    + intros [= <- <-]. split; [set_solver | constructor].
    + destruct (levels n _) as [ls' rest'] eqn:Hrec. intros [= <- <-].
      apply IH in Hrec as [Hcover Hnd]. rewrite dom_remove_ordered in Hcover.
      pose proof (ordered_subseteq data) as Hsub. split.
      * csimpl. apply set_eq. intros x.
        destruct (decide (x ∈ ordered data)); set_solver.
      * csimpl. apply NoDup_app. split_and!; [apply NoDup_elements | | done].
        intros x Hx%elem_of_elements Hx'%elem_of_concat_elements. set_solver.
Qed.

Lemma dom_with_extra_items (data : graph) :
  dom (with_extra_items data) = dom data ∪ ⋃ (map_to_list data).*2.
Proof.
  unfold with_extra_items, extra_items_in_deps.
  rewrite dom_union_L, dom_gset_to_gmap. apply set_eq. intros x.
  destruct (decide (x ∈ dom data)); set_solver.
Qed.

Lemma dom_without_self (data : graph) : dom (without_self data) = dom data.
Proof.
  unfold without_self. apply set_eq. intros x.
  rewrite !elem_of_dom, map_lookup_imap. destruct (data !! x); simpl; split;
    intros [? ?]; by eauto.
Qed.

(** When the sort succeeds, every node comes out, once. *)
Lemma toposort_flatten_names (data : graph) names :
  toposort_flatten data = inr names →
  NoDup names ∧
  (data ≠ ∅ → ∀ x, x ∈ names ↔ x ∈ dom (with_extra_items (without_self data))).
Proof.
  unfold toposort_flatten, toposort. case_decide as He.
  - intros [= <-]. split; [constructor | done].
  - destruct (levels _ _) as [ls rest] eqn:Hl. case_decide as Hr; [|done].
    intros [= <-]. subst rest. apply levels_spec in Hl as [Hcover Hnd].
    rewrite dom_empty_L in Hcover.
    assert (∀ ls : list (gset string),
      concat ((λ d, Py.sorted String.leb (elements d)) <$> ls)
      ≡ₚ concat (elements <$> ls)) as Hperm.
    { clear. induction ls as [|l ls IH]; csimpl; [done|].
      by rewrite IH, SortedFacts.sorted_perm. }
    split.
    + by rewrite Hperm.
    + intros _ x. rewrite Hperm, elem_of_concat_elements. set_solver.
Qed.

Lemma toposort_flatten_error (data : graph) e :
  toposort_flatten data = inl e → ∃ rest, e = CircularDependencyError rest ∧ rest ≠ ∅.
Proof.
  unfold toposort_flatten, toposort. case_decide; [done|].
  destruct (levels _ _) as [ls rest]. case_decide; [done|].
  intros [= <-]. by exists rest.
Qed.

End ToposortFacts.

(** ** The monad *)

Section monad.
Context {S A B : Type}.

Lemma bind_ret_l (m : M S A) (k : A → M S B) s a s' :
  m s = Ret a s' → bind m k s = k a s'.
Proof. unfold bind. by intros ->. Qed.

Lemma bind_raise_l (m : M S A) (k : A → M S B) s e s' :
  m s = Raise e s' → bind m k s = Raise e s'.
Proof. unfold bind. by intros ->. Qed.

Lemma for_each_app (l1 l2 : list A) (body : A → M S unit) s :
  for_each (l1 ++ l2) body s = (for_each l1 body >> for_each l2 body) s.
Proof.
  unfold bind. revert s. induction l1 as [|x l1 IH]; intros s; simpl; [done|].
  unfold bind. destruct (body x s); [|done]. apply IH.
Qed.

End monad.

(** ** Feature graph resolution *)

Section ResolverFacts.
Context {W : Type} {env : Collaborators W}.
Implicit Types (f : Feature W) (s : State W) (ef : Py.dict (Feature W)).

(** The dependencies a feature declares without the optional marker. *)
Definition required_of f : list string :=
  List.filter (λ d, negb (Py.endswith d optional_suffix)) (f_dependencies f).

Definition without_marker (d : string) : string :=
  if Py.endswith d optional_suffix then Py.drop_suffix d optional_suffix else d.

Definition dependencies_of f : gset string :=
  list_to_set (without_marker <$> f_dependencies f).

Lemma prepare_feature_fold (l req : list string) (ds : gset string) :
  fold_left
    (λ '(feat_required_dependencies, dependencies) dependency_item,
       if negb (Py.endswith dependency_item optional_suffix)
       then (feat_required_dependencies ++ [dependency_item],
             dependencies ∪ {[dependency_item]})
       else (feat_required_dependencies,
             dependencies ∪ {[Py.drop_suffix dependency_item optional_suffix]}))
    l (req, ds)
  = (req ++ List.filter (λ d, negb (Py.endswith d optional_suffix)) l,
     ds ∪ list_to_set (without_marker <$> l)).
Proof.
  revert req ds. induction l as [|d l IH]; intros req ds; csimpl.
  - rewrite app_nil_r. f_equal. set_solver.
  - assert (without_marker d =
            if Py.endswith d optional_suffix
            then Py.drop_suffix d optional_suffix else d) as -> by done.
    destruct (Py.endswith d optional_suffix); simpl; rewrite IH.
    + f_equal. set_solver.
    + rewrite <- app_assoc. f_equal. set_solver.
Qed.

Lemma prepare_feature_spec f :
  prepare_feature (f_dependencies f) = (required_of f, dependencies_of f).
Proof.
  unfold prepare_feature. rewrite prepare_feature_fold. simpl.
  unfold required_of, dependencies_of. f_equal. set_solver.
Qed.

(** The graph [_prepare_dependencies_data] builds, on top of [td]. *)
Definition graph_of ef (td : Toposort.graph) : Toposort.graph :=
  fold_left (λ td '(name, feat), <[name := dependencies_of feat]> td) ef td.

Definition required_dependencies_of ef : Py.dict (list string) :=
  (λ '(name, feat), (name, required_of feat)) <$> ef.

Lemma required_dependencies_of_keys ef :
  Py.dict_keys (required_dependencies_of ef) = Py.dict_keys ef.
Proof.
  unfold Py.dict_keys, required_dependencies_of. rewrite <- list_fmap_compose.
  apply list_fmap_ext. by intros _ [] _.
Qed.

Lemma prepare_dependencies_fold ef rd td :
  NoDup (Py.dict_keys rd ++ Py.dict_keys ef) →
  fold_left
    (λ '(required_dependencies, toposort_data) '(name, feat),
       let '(feat_required_dependencies, dependencies) :=
         prepare_feature (f_dependencies feat) in
       (Py.dict_set required_dependencies name feat_required_dependencies,
        <[name := dependencies]> toposort_data))
    ef (rd, td)
  = (rd ++ required_dependencies_of ef, graph_of ef td).
Proof.
  revert rd td. induction ef as [|[n f] ef IH]; intros rd td Hnd; csimpl.
  - by rewrite app_nil_r.
  - rewrite prepare_feature_spec. unfold Py.dict_keys in Hnd. csimpl in Hnd.
    assert (n ∉ Py.dict_keys rd) as Hn.
    { apply NoDup_app in Hnd as (_ & Hd & _). intros Hin. apply (Hd _ Hin).
      apply elem_of_cons; by left. }
    rewrite PyFacts.dict_set_notin by done. rewrite IH.
    + by rewrite <- app_assoc.
    + unfold Py.dict_keys. rewrite fmap_app. csimpl. by rewrite <- app_assoc.
Qed.

Lemma prepare_dependencies_spec ef :
  NoDup (Py.dict_keys ef) →
  _prepare_dependencies_data ef = (required_dependencies_of ef, graph_of ef ∅).
Proof. intros Hnd. unfold _prepare_dependencies_data. by rewrite prepare_dependencies_fold. Qed.

Lemma graph_of_dom ef td :
  dom (graph_of ef td) = dom td ∪ list_to_set (Py.dict_keys ef).
Proof.
  revert td. unfold Py.dict_keys. induction ef as [|[n f] ef IH]; intros td; csimpl.
  - set_solver.
  - unfold graph_of in *. csimpl. rewrite IH, dom_insert_L. set_solver.
Qed.

Lemma build_entrypoint_features_NoDup (default : list (Feature W)) :
  NoDup (Py.dict_keys (build_entrypoint_features default)).
Proof.
  unfold build_entrypoint_features.
  apply (PyFacts.dict_from_list_NoDup (λ x, f_name x) (λ x, x)).
  apply (PyFacts.dict_from_list_NoDup (λ x, f_name x) (λ x, x)).
  apply NoDup_nil_2.
Qed.

(** The first required dependency that is not a key of the feature mapping,
    with the feature that requires it, in the order of the check. *)
Fixpoint first_missing ef (rd : Py.dict (list string)) : option (string * string) :=
  match rd with
  | [] => None
  | (name, reqs) :: rd' =>
      match List.find (λ d, negb (Py.dict_has ef d)) reqs with
      | Some d => Some (name, d)
      | None => first_missing ef rd'
      end
  end.

Lemma check_missing_dependencies_spec ef rd s :
  _check_missing_dependencies ef rd s =
    match first_missing ef rd with
    | Some (name, d) => Raise (ValueError (missing_dependency_message name d)) s
    | None => Ret tt s
    end.
Proof.
  unfold _check_missing_dependencies.
  induction rd as [|[name reqs] rd IH]; simpl; [done|].
  assert (∀ s,
    for_each reqs (λ required_dependency,
      if negb (Py.dict_has ef required_dependency)
      then raise (ValueError (missing_dependency_message name required_dependency))
      else ret tt) s
    = match List.find (λ d, negb (Py.dict_has ef d)) reqs with
      | Some d => Raise (ValueError (missing_dependency_message name d)) s
      | None => Ret tt s
      end) as Hinner.
  { clear. induction reqs as [|d reqs IH]; intros s; simpl; [done|].
    unfold bind. destruct (negb (Py.dict_has ef d)); simpl; [done|]. apply IH. }
  unfold bind at 1. rewrite Hinner.
  destruct (List.find _ reqs); [done|]. apply IH.
Qed.

Lemma first_missing_Some ef rd name d :
  first_missing ef rd = Some (name, d) →
  ∃ reqs, (name, reqs) ∈ rd ∧ d ∈ reqs ∧ d ∉ Py.dict_keys ef.
Proof.
  induction rd as [|[n reqs] rd IH]; simpl; [done|].
  destruct (List.find _ reqs) as [d'|] eqn:Hfind.
  - intros [= -> ->]. apply find_some in Hfind as [Hin Hd].
    exists reqs. split_and!; [apply elem_of_cons; by left | by apply list_elem_of_In |].
    apply negb_true_iff in Hd. rewrite <- PyFacts.dict_has_spec. congruence.
  - intros (reqs' & ? & ? & ?)%IH. exists reqs'. split_and!; [|done..].
    apply elem_of_cons; by right.
Qed.

Lemma first_missing_None ef rd name reqs d :
  first_missing ef rd = None → (name, reqs) ∈ rd → d ∈ reqs → d ∈ Py.dict_keys ef.
Proof.
  induction rd as [|[n reqs'] rd IH]; simpl; intros Hnone Hin Hd.
  - by apply elem_of_nil in Hin.
  - destruct (List.find _ reqs') eqn:Hfind; [done|].
    apply elem_of_cons in Hin as [[= -> ->]|Hin]; [|by apply IH].
    apply list_elem_of_In in Hd.
    pose proof (find_none _ _ Hfind _ Hd) as Hneg. simpl in Hneg.
    apply negb_false_iff in Hneg. by apply PyFacts.dict_has_spec.
Qed.

Lemma required_dependencies_of_elem ef name reqs :
  (name, reqs) ∈ required_dependencies_of ef ↔
  ∃ f, (name, f) ∈ ef ∧ reqs = required_of f.
Proof.
  unfold required_dependencies_of. rewrite list_elem_of_fmap. split.
  - intros ([n f] & [= -> ->] & Hin). by exists f.
  - intros (f & Hin & ->). by exists (name, f).
Qed.

Lemma required_of_elem f d :
  d ∈ required_of f ↔ d ∈ f_dependencies f ∧ Py.endswith d optional_suffix = false.
Proof.
  unfold required_of. rewrite !list_elem_of_In, filter_In, negb_true_iff. done.
Qed.

(** The run of [register_features] up to the end of the check. *)
Lemma register_features_check (default : list (Feature W)) s :
  let ef := build_entrypoint_features default in
  match first_missing ef (required_dependencies_of ef) with
  | Some (name, d) =>
      register_features default s
      = Raise (ValueError (missing_dependency_message name d)) s
  | None =>
      register_features default s
      = match merge_dependencies (config_dependencies (world s)) (graph_of ef ∅) with
        | inl e => Raise e s
        | inr toposort_data =>
            (let! sorted_feature_names := call_toposort_flatten toposort_data in
             for_each sorted_feature_names (λ feature_name,
               match Py.dict_get ef feature_name with
               | Some feature => registry_register features_registry feature
               | None => ret tt
               end)) s
        end
  end.
Proof.
  intros ef. unfold register_features. fold ef.
  rewrite (prepare_dependencies_spec ef) by apply build_entrypoint_features_NoDup.
  unfold bind, get, raise. rewrite check_missing_dependencies_spec.
  destruct (first_missing ef (required_dependencies_of ef)) as [[name d]|]; [done|].
  by destruct (merge_dependencies _ _).
Qed.

(** C3. When some feature of the mapping declares a required dependency
    (no "[optional]" suffix) that is not a key of the mapping,
    [register_features] raises [ValueError] with a message that names a
    feature and a required dependency of it that is missing: the message is
    "A required dependency is missing for ", the name of the feature,
    " feature (", the dependency and ")". It leaves the state as it found
    it: the sort was not called, no feature was registered and no hook has
    run. *)
Theorem register_features_missing_required_dependency
    (default : list (Feature W)) (s : State W) (name dep : string) (f : Feature W) :
  let ef := build_entrypoint_features default in
  Py.dict_get ef name = Some f →
  dep ∈ f_dependencies f →
  Py.endswith dep "[optional]" = false →
  dep ∉ Py.dict_keys ef →
  ∃ name' f' dep' message,
    Py.dict_get ef name' = Some f' ∧
    dep' ∈ f_dependencies f' ∧
    Py.endswith dep' "[optional]" = false ∧
    (dep' ∉ Py.dict_keys ef) ∧
    message = String.append "A required dependency is missing for "
                (String.append name' (String.append " feature (" (String.append dep' ")"))) ∧
    register_features default s = Raise (ValueError message) s ∧
    is_ValueError (ValueError message) = true.
Proof.
  intros ef Hget Hdep Hreq Hmiss.
  pose proof (register_features_check default s) as Hrun. fold ef in Hrun. simpl in Hrun.
  pose proof (build_entrypoint_features_NoDup default) as Hnd. fold ef in Hnd.
  destruct (first_missing ef (required_dependencies_of ef)) as [[name' dep']|] eqn:Hfirst.
  - apply first_missing_Some in Hfirst as (reqs & Hin & Hd & Hnot).
    apply required_dependencies_of_elem in Hin as (f' & Hin & ->).
    apply required_of_elem in Hd as [Hd Hopt].
    exists name', f', dep', (missing_dependency_message name' dep').
    split_and!; try done.
    by apply PyFacts.dict_elem_get.
  - exfalso. apply Hmiss.
    apply (first_missing_None ef _ name (required_of f) dep Hfirst).
    + apply required_dependencies_of_elem. exists f. split; [|done].
      by apply PyFacts.dict_get_Some_elem.
    + by apply required_of_elem.
Qed.

Lemma build_entrypoint_features_keyed (default : list (Feature W)) name f :
  Py.dict_get (build_entrypoint_features default) name = Some f → f_name f = name.
Proof.
  intros Hin%PyFacts.dict_get_Some_elem. revert name f Hin.
  unfold build_entrypoint_features.
  apply (PyFacts.dict_from_list_keyed (λ x, f_name x) (λ x, x) (λ k v, f_name v = k));
    [done|].
  apply (PyFacts.dict_from_list_keyed (λ x, f_name x) (λ x, x) (λ k v, f_name v = k));
    [done|].
  by intros ?? ?%elem_of_nil.
Qed.

(** *** Merging the configured dependencies *)

(** What the merge comes to when no subscript fails. *)
Definition merged_graph (dependencies : Py.dict (list string))
    (td : Toposort.graph) : Toposort.graph :=
  fold_left (λ td '(feat, feat_dependencies),
               <[feat := default ∅ (td !! feat) ∪ list_to_set feat_dependencies]> td)
    dependencies td.

Lemma ensure_node_lookup feat (td : Toposort.graph) :
  ensure_node feat td !! feat = Some (default ∅ (td !! feat)).
Proof.
  unfold ensure_node. case_bool_decide as Hin.
  - apply elem_of_dom in Hin as [ds Hds]. by rewrite Hds.
  - apply not_elem_of_dom in Hin. by rewrite Hin, lookup_insert_eq.
Qed.

Lemma ensure_node_insert feat (td : Toposort.graph) ds :
  <[feat := ds]> (ensure_node feat td) = <[feat := ds]> td.
Proof.
  unfold ensure_node. case_bool_decide; [done|]. by rewrite insert_insert_eq.
Qed.

Lemma add_dependencies_spec feat deps (td : Toposort.graph) ds :
  td !! feat = Some ds →
  add_dependencies feat deps td = inr (<[feat := ds ∪ list_to_set deps]> td).
Proof.
  unfold add_dependencies. revert td ds.
  induction deps as [|d deps IH]; intros td ds Hds; csimpl.
  - f_equal. rewrite union_empty_r_L. by rewrite insert_id.
  - unfold add_dependency at 2. rewrite Hds.
    rewrite (IH _ (ds ∪ {[d]})) by apply lookup_insert_eq.
    rewrite insert_insert_eq. do 2 f_equal. set_solver.
Qed.

Lemma merge_dependencies_spec dependencies (td : Toposort.graph) :
  merge_dependencies dependencies td = inr (merged_graph dependencies td).
Proof.
  unfold merge_dependencies, merged_graph. revert td.
  induction dependencies as [|[feat deps] dependencies IH]; intros td; csimpl; [done|].
  rewrite (add_dependencies_spec _ _ _ _ (ensure_node_lookup feat td)).
  by rewrite ensure_node_insert, IH.
Qed.

Lemma merged_graph_lookup_other dependencies (td : Toposort.graph) feat :
  feat ∉ Py.dict_keys dependencies →
  merged_graph dependencies td !! feat = td !! feat.
Proof.
  unfold merged_graph, Py.dict_keys. revert td.
  induction dependencies as [|[k deps] dependencies IH]; intros td; csimpl; [done|].
  intros [Hne Hnot]%not_elem_of_cons. rewrite IH by done. by rewrite lookup_insert_ne.
Qed.

Lemma merged_graph_app d1 d2 (td : Toposort.graph) :
  merged_graph (d1 ++ d2) td = merged_graph d2 (merged_graph d1 td).
Proof. unfold merged_graph. by rewrite fold_left_app. Qed.

(** The merge only adds: a dependency an entry names is in the set of its
    feature at the end. *)
Lemma merged_graph_mono dependencies (td : Toposort.graph) feat ds d :
  td !! feat = Some ds → d ∈ ds →
  ∃ ds', merged_graph dependencies td !! feat = Some ds' ∧ d ∈ ds'.
Proof.
  unfold merged_graph. revert td ds.
  induction dependencies as [|[k deps] dependencies IH]; intros td ds Hds Hd; csimpl.
  - by exists ds.
  - destruct (decide (k = feat)) as [->|Hne].
    + eapply IH; [apply lookup_insert_eq|]. rewrite Hds. set_solver.
    + eapply IH; [|done]. by rewrite lookup_insert_ne.
Qed.

Lemma merged_graph_entry dependencies (td : Toposort.graph) feat deps d :
  (feat, deps) ∈ dependencies → d ∈ deps →
  ∃ ds, merged_graph dependencies td !! feat = Some ds ∧ d ∈ ds.
Proof.
  intros (d1 & d2 & ->)%list_elem_of_split Hd.
  rewrite merged_graph_app. change ((feat, deps) :: d2) with ([(feat, deps)] ++ d2).
  rewrite merged_graph_app.
  eapply merged_graph_mono; [apply lookup_insert_eq|]. set_solver.
Qed.

(** *** The registration loop *)

Definition register_found ef (feature_name : string) : M (State W) unit :=
  match Py.dict_get ef feature_name with
  | Some feature => registry_register features_registry feature
  | None => ret tt
  end.

Lemma register_found_features ef names s :
  ∃ l, features (final_state (for_each names (register_found ef) s)) = features s ++ l ∧
       ∀ f, f ∈ l → ∃ n, n ∈ names ∧ Py.dict_get ef n = Some f.
Proof.
  revert s. induction names as [|n names IH]; intros s; simpl.
  - exists []. split; [by rewrite app_nil_r | by intros ? ?%elem_of_nil].
  - unfold bind, register_found at 1.
    destruct (Py.dict_get ef n) as [f|] eqn:Hget; simpl.
    + unfold registry_register. simpl. case_bool_decide; simpl.
      * exists []. split; [by rewrite app_nil_r | by intros ? ?%elem_of_nil].
      * destruct (IH (set_features (features s ++ [f])
                        (log_call (CRegister RFeatures (f_name f)) s))) as (l & -> & Hl).
        exists (f :: l). simpl. split; [by rewrite <- app_assoc|].
        intros f' [->|Hin]%elem_of_cons.
        -- exists n. split; [apply elem_of_cons; by left | done].
        -- destruct (Hl _ Hin) as (n' & ? & ?). exists n'.
           split; [apply elem_of_cons; by right | done].
    + destruct (IH s) as (l & -> & Hl). exists l. split; [done|].
      intros f' Hin. destruct (Hl _ Hin) as (n' & ? & ?). exists n'.
      split; [apply elem_of_cons; by right | done].
Qed.

Lemma register_found_ok ef names s :
  NoDup names →
  (∀ n f, Py.dict_get ef n = Some f → f_name f = n) →
  (∀ f, f ∈ features s → f_name f ∉ names) →
  ∃ s', for_each names (register_found ef) s = Ret tt s' ∧
        features s' = features s ++ omap (Py.dict_get ef) names ∧
        world s' = world s.
Proof.
  intros Hnd Hkey. revert s. induction Hnd as [|n names Hn Hnd IH]; intros s Hfresh; simpl.
  - exists s. by rewrite app_nil_r.
  - unfold bind, register_found at 1.
    destruct (Py.dict_get ef n) as [f|] eqn:Hget; simpl.
    + unfold registry_register. simpl.
      pose proof (Hkey _ _ Hget) as Hname.
      rewrite bool_decide_eq_false_2.
      * destruct (IH (set_features (features s ++ [f])
                        (log_call (CRegister RFeatures (f_name f)) s)))
          as (s' & Hrun & Hfeat & Hworld).
        { simpl. intros f' [Hin| ->%list_elem_of_singleton]%elem_of_app.
          - intros ?. apply (Hfresh _ Hin). apply elem_of_cons; by right.
          - by rewrite Hname. }
        exists s'. split_and!; [done| |done].
        rewrite Hfeat. simpl. by rewrite <- app_assoc.
      * intros (f' & Heq & Hin)%list_elem_of_fmap. apply (Hfresh _ Hin).
        rewrite <- Heq, Hname. apply elem_of_cons; by left.
    + apply IH. intros f' Hin ?. apply (Hfresh _ Hin). apply elem_of_cons; by right.
Qed.

Lemma register_found_calls ef names s :
  ∃ cs, calls (final_state (for_each names (register_found ef) s)) = calls s ++ cs ∧
        (∀ c, c ∈ cs →
           ∃ n f, Py.dict_get ef n = Some f ∧ c = CRegister RFeatures (f_name f)) ∧
        (∀ e, raised (for_each names (register_found ef) s) = Some e →
           ∃ n, e = DuplicateNameError n).
Proof.
  revert s. induction names as [|n names IH]; intros s; simpl.
  - exists []. split_and!; [by rewrite app_nil_r | by intros ? ?%elem_of_nil | done].
  - unfold bind, register_found at 1 3.
    destruct (Py.dict_get ef n) as [f|] eqn:Hget; simpl.
    + unfold registry_register. simpl. case_bool_decide; simpl.
      * exists [CRegister RFeatures (f_name f)]. split_and!; [done| |].
        -- intros c ->%list_elem_of_singleton. by exists n, f.
        -- intros e [= <-]. by eexists.
      * destruct (IH (set_features (features s ++ [f])
                        (log_call (CRegister RFeatures (f_name f)) s)))
          as (cs & Hcs & Hreg & Hraise).
        exists (CRegister RFeatures (f_name f) :: cs). split_and!.
        -- rewrite Hcs. simpl. by rewrite <- app_assoc.
        -- intros c [->|Hin]%elem_of_cons; [by exists n, f | by apply Hreg].
        -- done.
    + apply IH.
Qed.

(** C8. A feature the [dependencies] mapping of the configuration names as
    a key and that was not discovered: when the merge loop reaches its
    entry the graph has no such node, and lines 84-85 add it with an empty
    dependency set, so that no subscript of the merge fails and
    [register_features] never raises [KeyError]; in the graph the merge
    ends with it is a node, with the dependencies the mapping lists for it;
    it is among the names a successful sort returns. Once the check of the
    declared dependencies has passed, [register_features] hands this very
    graph to the sort, and asks the feature registry for no registration
    under that name afterwards; and it registers no feature of that
    name. *)
Theorem override_only_feature_is_graph_node
    (default : list (Feature W)) (s : State W)
    (before after : Py.dict (list string)) (feat : string) (deps : list string) :
  let ef := build_entrypoint_features default in
  config_dependencies (world s) = before ++ (feat, deps) :: after →
  NoDup (Py.dict_keys (config_dependencies (world s))) →
  feat ∉ Py.dict_keys ef →
  ∃ td merged,
    merge_dependencies before (graph_of ef ∅) = inr td ∧
    td !! feat = None ∧
    ensure_node feat td !! feat = Some ∅ ∧
    merge_dependencies (config_dependencies (world s)) (graph_of ef ∅) = inr merged ∧
    merged !! feat = Some (list_to_set deps) ∧
    (∀ names, Toposort.toposort_flatten merged = inr names → feat ∈ names) ∧
    (∀ f, f ∈ features (final_state (register_features default s)) →
          f_name f = feat → f ∈ features s) ∧
    (∀ key, raised (register_features default s) ≠ Some (KeyError key)) ∧
    (_check_missing_dependencies ef (_prepare_dependencies_data ef).1 s = Ret tt s →
     ∃ cs, calls (final_state (register_features default s))
           = calls s ++ CToposort merged :: cs ∧
           ∀ name, CRegister RFeatures name ∈ cs → name ≠ feat).
Proof.
  intros ef Hcfg Hnd Hundiscovered.
  rewrite Hcfg in Hnd. unfold Py.dict_keys in Hnd. rewrite fmap_app in Hnd. csimpl in Hnd.
  apply NoDup_app in Hnd as (_ & Hbefore & [Hafter _]%NoDup_cons).
  assert (feat ∉ Py.dict_keys before) as Hnb.
  { intros Hin. apply (Hbefore _ Hin). apply elem_of_cons; by left. }
  assert (merged_graph before (graph_of ef ∅) !! feat = None) as Htd.
  { rewrite merged_graph_lookup_other by done. apply not_elem_of_dom.
    rewrite graph_of_dom. set_solver. }
  assert (merged_graph (config_dependencies (world s)) (graph_of ef ∅) !! feat
          = Some (list_to_set deps)) as Hmerged.
  { rewrite Hcfg, merged_graph_app.
    change ((feat, deps) :: after) with ([(feat, deps)] ++ after).
    rewrite merged_graph_app, merged_graph_lookup_other by done.
    simpl. rewrite lookup_insert_eq, Htd. simpl. f_equal. set_solver. }
  assert (∀ n f, Py.dict_get ef n = Some f → f_name f ≠ feat) as Hnames.
  { intros n f Hget Hname. apply Hundiscovered.
    rewrite <- Hname, (build_entrypoint_features_keyed default n f Hget).
    apply dec_stable. intros Hnot%PyFacts.dict_get_None. congruence. }
  exists (merged_graph before (graph_of ef ∅)),
         (merged_graph (config_dependencies (world s)) (graph_of ef ∅)).
  split_and!.
  - apply merge_dependencies_spec.
  - done.
  - by rewrite ensure_node_lookup, Htd.
  - apply merge_dependencies_spec.
  - done.
  - intros names [_ Hin]%ToposortFacts.toposort_flatten_names.
    apply Hin.
    + intros Hempty. by rewrite Hempty, lookup_empty in Hmerged.
    + rewrite ToposortFacts.dom_with_extra_items, ToposortFacts.dom_without_self.
      apply elem_of_union_l, elem_of_dom. by eexists.
  - intros f Hf Hname.
    pose proof (register_features_check default s) as Hrun. fold ef in Hrun. simpl in Hrun.
    destruct (first_missing ef (required_dependencies_of ef)) as [[n d]|].
    { by rewrite Hrun in Hf. }
    rewrite Hrun, merge_dependencies_spec in Hf. clear Hrun.
    unfold bind, call_toposort_flatten in Hf.
    destruct (Toposort.toposort_flatten _) as [e|names]; [done|].
    destruct (register_found_features ef names
      (log_call (CToposort (merged_graph (config_dependencies (world s)) (graph_of ef ∅))) s))
      as (l & Hl & Hfrom).
    unfold register_found in Hl. rewrite Hl in Hf. simpl in Hf.
    apply elem_of_app in Hf as [Hf|Hf]; [done|].
    destruct (Hfrom _ Hf) as (n & _ & Hget). by destruct (Hnames n f Hget).
  - intros key.
    pose proof (register_features_check default s) as Hrun. fold ef in Hrun. simpl in Hrun.
    destruct (first_missing ef (required_dependencies_of ef)) as [[n d]|].
    { by rewrite Hrun. }
    rewrite Hrun, merge_dependencies_spec. clear Hrun.
    unfold bind, call_toposort_flatten.
    destruct (Toposort.toposort_flatten _) as [e|names] eqn:Hsort.
    { apply ToposortFacts.toposort_flatten_error in Hsort as (rest & -> & _). done. }
    destruct (register_found_calls ef names
      (log_call (CToposort (merged_graph (config_dependencies (world s)) (graph_of ef ∅))) s))
      as (cs & _ & _ & Hraise).
    unfold register_found in Hraise. intros Hkey.
    by destruct (Hraise _ Hkey) as [n ?].
  - intros Hpresent.
    pose proof (register_features_check default s) as Hrun. fold ef in Hrun. simpl in Hrun.
    rewrite (prepare_dependencies_spec ef) in Hpresent
      by apply build_entrypoint_features_NoDup.
    simpl in Hpresent. rewrite check_missing_dependencies_spec in Hpresent.
    destruct (first_missing ef (required_dependencies_of ef)) as [[n d]|] eqn:Hfirst;
      [done|]. clear Hpresent.
    rewrite Hrun, merge_dependencies_spec. clear Hrun.
    unfold bind, call_toposort_flatten.
    destruct (Toposort.toposort_flatten _) as [e|names] eqn:Hsort.
    { exists []. split; [done|]. by intros ? ?%elem_of_nil. }
    destruct (register_found_calls ef names
      (log_call (CToposort (merged_graph (config_dependencies (world s)) (graph_of ef ∅))) s))
      as (cs & Hcs & Hreg & _).
    unfold register_found in Hcs. exists cs. split.
    + rewrite Hcs. simpl. by rewrite <- app_assoc.
    + intros name Hin. destruct (Hreg _ Hin) as (n & f & Hget & [= ->]).
      by apply (Hnames n f).
Qed.

(** C9, as amended. The check looks at the dependencies the features
    declare and runs before the [dependencies] mapping of the configuration
    is merged: when [_check_missing_dependencies] passes on the discovered
    features, and the feature registry is empty as at start-up, whatever
    the mapping names, the merge succeeds and [register_features]
    either fails in the sort, with [CircularDependencyError], or returns
    with the discovered features registered in sorted order; then a
    dependency the mapping names and that was not discovered is among the
    sorted names and no feature is registered for it. *)
Theorem override_dependencies_skip_missing_check
    (default : list (Feature W)) (s : State W) :
  let ef := build_entrypoint_features default in
  let dependencies := config_dependencies (world s) in
  _check_missing_dependencies ef (_prepare_dependencies_data ef).1 s = Ret tt s →
  features s = [] →
  ∃ merged,
    merge_dependencies dependencies (graph_of ef ∅) = inr merged ∧
    match Toposort.toposort_flatten merged with
    | inl e =>
        register_features default s = Raise e (log_call (CToposort merged) s) ∧
        ∃ rest, e = CircularDependencyError rest
    | inr names =>
        ∃ s', register_features default s = Ret tt s' ∧
          features s' = omap (Py.dict_get ef) names ∧
          ∀ feat deps dep, (feat, deps) ∈ dependencies → dep ∈ deps →
            dep ∉ Py.dict_keys ef →
            dep ∈ names ∧ ∀ f, f ∈ features s' → f_name f ≠ dep
    end.
Proof.
  intros ef dependencies Hpresent Hempty.
  exists (merged_graph dependencies (graph_of ef ∅)).
  split; [apply merge_dependencies_spec|].
  pose proof (register_features_check default s) as Hrun. fold ef in Hrun. simpl in Hrun.
  rewrite (prepare_dependencies_spec ef) in Hpresent
    by apply build_entrypoint_features_NoDup.
  simpl in Hpresent. rewrite check_missing_dependencies_spec in Hpresent.
  destruct (first_missing ef (required_dependencies_of ef)) as [[n d]|] eqn:Hfirst;
    [done|]. clear Hpresent.
  rewrite merge_dependencies_spec in Hrun. fold dependencies in Hrun.
  unfold bind, call_toposort_flatten in Hrun.
  destruct (Toposort.toposort_flatten _) as [e|names] eqn:Hsort.
  - split; [done|].
    apply ToposortFacts.toposort_flatten_error in Hsort as (rest & -> & _). by exists rest.
  - apply ToposortFacts.toposort_flatten_names in Hsort as [Hnd Hnames].
    destruct (register_found_ok ef names
      (log_call (CToposort (merged_graph dependencies (graph_of ef ∅))) s) Hnd)
      as (s' & Hloop & Hfeat & _).
    { apply build_entrypoint_features_keyed. }
    { simpl. rewrite Hempty. by intros ? ?%elem_of_nil. }
    exists s'. split; [by rewrite Hrun|].
    simpl in Hfeat. rewrite Hempty in Hfeat. simpl in Hfeat. split; [done|].
    intros feat deps dep Hentry Hdep Hundiscovered.
    destruct (merged_graph_entry dependencies (graph_of ef ∅) feat deps dep Hentry Hdep)
      as (ds & Hds & Hin).
    split.
    + apply Hnames.
      { intros Hnil. by rewrite Hnil, lookup_empty in Hds. }
      set (merged := merged_graph dependencies (graph_of ef ∅)) in *.
      rewrite ToposortFacts.dom_with_extra_items, ToposortFacts.dom_without_self.
      destruct (decide (dep ∈ dom merged)) as [|Hnode]; [by apply elem_of_union_l|].
      apply elem_of_union_r, elem_of_union_list.
      exists (ds ∖ {[feat]}). split.
      * apply list_elem_of_fmap. exists (feat, ds ∖ {[feat]}). split; [done|].
        apply elem_of_map_to_list. unfold Toposort.without_self.
        by rewrite map_lookup_imap, Hds.
      * apply elem_of_difference. split; [done|].
        intros ->%elem_of_singleton. apply Hnode, elem_of_dom. by eexists.
    + intros f Hf Hname. rewrite Hfeat in Hf.
      apply list_elem_of_omap in Hf as (n & _ & Hget).
      apply Hundiscovered. rewrite <- Hname, (build_entrypoint_features_keyed default n f Hget).
      apply dec_stable. intros Hnot%PyFacts.dict_get_None. fold ef in Hget. congruence.
Qed.

End ResolverFacts.

(** ** Feature lifecycle *)

Section LifecycleFacts.
Context {W : Type} {env : Collaborators W}.
Implicit Types (f : Feature W) (s : State W) (w : W).

(** Reading an outcome: [Q] on the value and state of a return, [E] on the
    state an exception leaves. *)
Definition post {A} (m : M (State W) A) s
    (Q : A → State W → Prop) (E : State W → Prop) : Prop :=
  match m s with
  | Ret a s' => Q a s'
  | Raise _ s' => E s'
  end.

Lemma post_bind {A B} (m : M (State W) A) (k : A → M (State W) B) s
    (Q1 : A → State W → Prop) Q E :
  post m s Q1 E → (∀ a s', Q1 a s' → post (k a) s' Q E) → post (bind m k) s Q E.
Proof.
  unfold post, bind. destruct (m s) as [a s'|e s']; [|done]. intros H1 H2. by apply H2.
Qed.

Lemma post_ret {A} (a : A) s (Q : A → State W → Prop) E : Q a s → post (ret a) s Q E.
Proof. done. Qed.

Definition add_calls (cs : list Call) s : State W :=
  fold_left (λ s c, log_call c s) cs s.

Lemma calls_add_calls cs s : calls (add_calls cs s) = calls s ++ cs.
Proof.
  unfold add_calls. revert s. induction cs as [|c cs IH]; intros s; simpl.
  - by rewrite app_nil_r.
  - rewrite IH. simpl. by rewrite <- app_assoc.
Qed.

Lemma add_calls_app cs1 cs2 s : add_calls (cs1 ++ cs2) s = add_calls cs2 (add_calls cs1 s).
Proof. unfold add_calls. apply fold_left_app. Qed.

Lemma add_calls_set_world cs w s : add_calls cs (set_world w s) = set_world w (add_calls cs s).
Proof.
  unfold add_calls. revert s. induction cs as [|c cs IH]; intros s; simpl; [done|].
  exact (IH (log_call c s)).
Qed.

Lemma world_add_calls cs s : world (add_calls cs s) = world s.
Proof. unfold add_calls. revert s. induction cs as [|c cs IH]; intros s; simpl; [done|]. by rewrite IH. Qed.

Lemma actions_add_calls cs s : actions (add_calls cs s) = actions s.
Proof. unfold add_calls. revert s. induction cs as [|c cs IH]; intros s; simpl; [done|]. by rewrite IH. Qed.

(** *** Hooks *)

(** The hooks of a list, one after the other, until one raises. *)
Fixpoint run_hooks (hooks : list (Effect W)) w : option Exn * W :=
  match hooks with
  | [] => (None, w)
  | h :: hooks' =>
      match h w with
      | (None, w') => run_hooks hooks' w'
      | (Some e, w') => (Some e, w')
      end
  end.

Lemma run_hooks_app hooks1 hooks2 w :
  (run_hooks hooks1 w).1 = None →
  run_hooks (hooks1 ++ hooks2) w = run_hooks hooks2 (run_hooks hooks1 w).2.
Proof.
  revert w. induction hooks1 as [|h hooks1 IH]; intros w; simpl; [done|].
  destruct (h w) as [[e|] w']; [done|]. apply IH.
Qed.

Lemma run_hooks_app_raise hooks1 hooks2 w :
  (run_hooks hooks1 w).1 ≠ None →
  run_hooks (hooks1 ++ hooks2) w = run_hooks hooks1 w.
Proof.
  revert w. induction hooks1 as [|h hooks1 IH]; intros w; simpl; [done|].
  destruct (h w) as [[e|] w']; [done|]. apply IH.
Qed.

Lemma for_each_call_effect {A} (l : list A) (c : A → Call) (eff : A → Effect W) s :
  post (for_each l (λ x, call_effect (c x) (eff x))) s
    (λ _ s', (run_hooks (eff <$> l) (world s)).1 = None ∧
             s' = set_world (run_hooks (eff <$> l) (world s)).2 (add_calls (c <$> l) s))
    (λ s', (run_hooks (eff <$> l) (world s)).1 ≠ None ∧
           ∃ k, s' = set_world (run_hooks (eff <$> l) (world s)).2
                       (add_calls (take k (c <$> l)) s)).
Proof.
  revert s. induction l as [|x l IH]; intros s; csimpl.
  - unfold post. simpl. split; [done|]. by destruct s.
  - unfold post, bind, call_effect in *. simpl.
    destruct (eff x (world s)) as [[e|] w'] eqn:Heff; simpl.
    + split; [done|]. by exists 1.
    + specialize (IH (set_world w' (log_call (c x) s))). simpl in IH.
      destruct (for_each l _ _) as [[] s'|e s'].
      * destruct IH as [-> ->]. split; [done|]. by rewrite add_calls_set_world.
      * destruct IH as [Hr [k ->]]. split; [done|]. exists (S k).
        by rewrite add_calls_set_world.
Qed.

(** *** Registrations *)

Class RegistryLaws {A} (r : Registry W A) := {
  objects_set_objects l s : objects r (set_objects r l s) = l;
  objects_log_call c s : objects r (log_call c s) = objects r s;
  set_objects_objects s : set_objects r (objects r s) s = s;
  set_objects_twice l l' s : set_objects r l (set_objects r l' s) = set_objects r l s;
  set_objects_log_call l c s : log_call c (set_objects r l s) = set_objects r l (log_call c s);
  world_set_objects l s : world (set_objects r l s) = world s;
  calls_set_objects l s : calls (set_objects r l s) = calls s
}.

#[local] Ltac registry_laws :=
  split; intros; try reflexivity;
  match goal with st : State _ |- _ => by destruct st end.

#[global] Instance features_registry_laws : RegistryLaws features_registry.
Proof. registry_laws. Qed.
#[global] Instance phases_registry_laws : RegistryLaws phases_registry.
Proof. registry_laws. Qed.
#[global] Instance commands_registry_laws : RegistryLaws commands_registry.
Proof. registry_laws. Qed.
#[global] Instance actions_registry_laws : RegistryLaws actions_registry.
Proof. registry_laws. Qed.
#[global] Instance binaries_registry_laws : RegistryLaws binaries_registry.
Proof. registry_laws. Qed.
#[global] Instance services_registry_laws : RegistryLaws services_registry.
Proof. registry_laws. Qed.

Definition reg_calls {A} (r : Registry W A) (objs : list A) : list Call :=
  (λ o, CRegister (rid r) (obj_name r o)) <$> objs.

Lemma add_calls_set_objects {A} (r : Registry W A) `{!RegistryLaws r} cs l s :
  add_calls cs (set_objects r l s) = set_objects r l (add_calls cs s).
Proof.
  unfold add_calls. revert s. induction cs as [|c cs IH]; intros s; simpl; [done|].
  by rewrite set_objects_log_call, IH.
Qed.

Lemma for_each_register {A} (r : Registry W A) `{!RegistryLaws r} (objs : list A) s :
  post (for_each objs (λ obj, registry_register r obj)) s
    (λ _ s', s' = set_objects r (objects r s ++ objs) (add_calls (reg_calls r objs) s))
    (λ s', ∃ k k', s' = set_objects r (objects r s ++ take k objs)
                          (add_calls (take k' (reg_calls r objs)) s)).
Proof.
  revert s. induction objs as [|x objs IH]; intros s; csimpl.
  - unfold post. simpl. by rewrite app_nil_r, set_objects_objects.
  - unfold post, bind, registry_register in *.
    rewrite objects_log_call. case_bool_decide.
    + exists 0, 1. simpl. rewrite app_nil_r.
      by rewrite <- (objects_log_call (CRegister (rid r) (obj_name r x)) s), set_objects_objects.
    + specialize (IH (set_objects r (objects r s ++ [x])
                        (log_call (CRegister (rid r) (obj_name r x)) s))).
      rewrite objects_set_objects in IH.
      destruct (for_each objs _ _) as [[] s'|e s'].
      * rewrite IH, (add_calls_set_objects r), set_objects_twice, <- app_assoc. done.
      * destruct IH as (k & k' & ->). exists (S k), (S k').
        rewrite (add_calls_set_objects r), set_objects_twice, <- app_assoc. done.
Qed.

Lemma fold_left_extend {A B} (g : A → list B) (l : list A) (acc : list B) :
  fold_left (λ all_objects x, all_objects ++ g x) l acc = acc ++ flat_map g l.
Proof.
  revert acc. induction l as [|x l IH]; intros acc; simpl.
  - by rewrite app_nil_r.
  - by rewrite IH, <- app_assoc.
Qed.

Lemma register_objects_post {A} (r : Registry W A) `{!RegistryLaws r}
    (features_list : list (Feature W)) (objects_getter : Feature W → W → list A) s :
  let objs := flat_map (λ f, objects_getter f (world s)) features_list in
  post (register_objects features_list objects_getter r) s
    (λ _ s', s' = set_objects r (objects r s ++ objs) (add_calls (reg_calls r objs) s))
    (λ s', ∃ k k', s' = set_objects r (objects r s ++ take k objs)
                          (add_calls (take k' (reg_calls r objs)) s)).
Proof.
  intros objs. unfold register_objects, post, bind, get.
  rewrite fold_left_extend. simpl. apply (for_each_register r).
Qed.

(** *** The load sequence *)

(** The world the [before_load] and [configure] hooks of the registered
    features leave: the one [disabled] is read in. *)
Definition resolved_world s : W :=
  (run_hooks (((λ f, f_before_load f) <$> features s) ++
              ((λ f, f_configure f) <$> features s)) (world s)).2.

Definition enabled_in w (fs : list (Feature W)) : list (Feature W) :=
  List.filter (λ f, negb (f_disabled f w)) fs.

(** The actions [load_registered_features] hands to the action registry. *)
Definition harvested_actions w (fs : list (Feature W)) : list (Action W) :=
  flat_map (λ f, enabled_actions f w) (enabled_in w fs).

(** The calls of a load that goes through, in order. *)
Definition lifecycle_calls (all : list (Feature W)) w : list Call :=
  let enabled := enabled_in w all in
  ((λ f, CBeforeLoad (f_name f)) <$> all) ++
  ((λ f, CConfigure (f_name f)) <$> all) ++
  reg_calls phases_registry (flat_map (λ f, f_phases f w) enabled) ++
  reg_calls commands_registry (flat_map (λ f, f_commands f w) enabled) ++
  reg_calls actions_registry (harvested_actions w all) ++
  reg_calls binaries_registry (flat_map (λ f, f_binaries f w) enabled) ++
  reg_calls services_registry (flat_map (λ f, f_services f w) enabled) ++
  ((λ f, CAfterLoad (f_name f)) <$> enabled).

Section stages.
Variable s0 : State W.

(** Where a run from [s0] stands: the world, the calls made so far and the
    actions registered so far. *)
Definition at_stage (cs : list Call) (acts : list (Action W)) w s' : Prop :=
  world s' = w ∧ calls s' = calls s0 ++ cs ∧ actions s' = actions s0 ++ acts.

Lemma hooks_stage {A} (l : list A) (c : A → Call) (eff : A → Effect W) cs acts w s1 :
  at_stage cs acts w s1 →
  post (for_each l (λ x, call_effect (c x) (eff x))) s1
    (λ _ s', (run_hooks (eff <$> l) w).1 = None ∧
             at_stage (cs ++ (c <$> l)) acts (run_hooks (eff <$> l) w).2 s')
    (λ s', (run_hooks (eff <$> l) w).1 ≠ None ∧
           ∃ k, at_stage (cs ++ take k (c <$> l)) acts (run_hooks (eff <$> l) w).2 s').
Proof.
  intros (<- & Hcs & Hacts). pose proof (for_each_call_effect l c eff s1) as Hrun.
  unfold post in *. destruct (for_each l _ s1) as [[] s'|e s'].
  - destruct Hrun as [Hnone ->]. split; [done|]. unfold at_stage. simpl.
    by rewrite calls_add_calls, actions_add_calls, Hcs, Hacts, <- app_assoc.
  - destruct Hrun as [Hsome [k ->]]. split; [done|]. exists k. unfold at_stage. simpl.
    by rewrite calls_add_calls, actions_add_calls, Hcs, Hacts, <- app_assoc.
Qed.

Lemma register_stage {A} (r : Registry W A) `{!RegistryLaws r}
    (fs : list (Feature W)) (getter : Feature W → W → list A) cs acts w s1 :
  (∀ l s, actions (set_objects r l s) = actions s) →
  at_stage cs acts w s1 →
  let objs := flat_map (λ f, getter f w) fs in
  post (register_objects fs getter r) s1
    (λ _ s', at_stage (cs ++ reg_calls r objs) acts w s')
    (λ s', ∃ k, at_stage (cs ++ take k (reg_calls r objs)) acts w s').
Proof.
  intros Hframe (<- & Hcs & Hacts) objs.
  pose proof (register_objects_post r fs getter s1) as Hrun. simpl in Hrun. fold objs in Hrun.
  unfold post in *. destruct (register_objects fs getter r s1) as [[] s'|e s'].
  - subst s'. unfold at_stage.
    by rewrite world_set_objects, calls_set_objects, Hframe, world_add_calls,
      calls_add_calls, actions_add_calls, Hcs, Hacts, <- app_assoc.
  - destruct Hrun as (k & k' & ->). exists k'. unfold at_stage.
    by rewrite world_set_objects, calls_set_objects, Hframe, world_add_calls,
      calls_add_calls, actions_add_calls, Hcs, Hacts, <- app_assoc.
Qed.

Lemma register_actions_stage (fs : list (Feature W))
    (getter : Feature W → W → list (Action W)) cs acts w s1 :
  at_stage cs acts w s1 →
  let objs := flat_map (λ f, getter f w) fs in
  post (register_objects fs getter actions_registry) s1
    (λ _ s', at_stage (cs ++ reg_calls actions_registry objs) (acts ++ objs) w s')
    (λ s', ∃ k k', at_stage (cs ++ take k' (reg_calls actions_registry objs))
                     (acts ++ take k objs) w s').
Proof.
  intros (<- & Hcs & Hacts) objs.
  pose proof (register_objects_post actions_registry fs getter s1) as Hrun.
  simpl in Hrun. fold objs in Hrun.
  unfold post in *. destruct (register_objects fs getter actions_registry s1) as [[] s'|e s'].
  - subst s'. unfold at_stage. simpl.
    by rewrite world_add_calls, calls_add_calls, Hcs, Hacts, <- !app_assoc.
  - destruct Hrun as (k & k' & ->). exists k, k'. unfold at_stage. simpl.
    by rewrite world_add_calls, calls_add_calls, Hcs, Hacts, <- !app_assoc.
Qed.

End stages.

Lemma post_bind_weaken {A B} (m : M (State W) A) (k : A → M (State W) B) s
    (Q1 : A → State W → Prop) (E1 : State W → Prop) Q (E : State W → Prop) :
  post m s Q1 E1 → (∀ s', E1 s' → E s') →
  (∀ a s', Q1 a s' → post (k a) s' Q E) → post (bind m k) s Q E.
Proof.
  unfold post, bind. destruct (m s) as [a s'|e s']; intros H1 H2 H3; [by apply H3 | by apply H2].
Qed.

Lemma load_registered_features_post s :
  let all := features s in
  let w := resolved_world s in
  post load_registered_features s
    (λ fs s', fs = enabled_in w all ∧
              calls s' = calls s ++ lifecycle_calls all w ∧
              actions s' = actions s ++ harvested_actions w all)
    (λ s', (∃ cs, cs `prefix_of` lifecycle_calls all w ∧ calls s' = calls s ++ cs) ∧
           ∃ k, actions s' = actions s ++ take k (harvested_actions w all)).
Proof.
  intros all w. unfold load_registered_features.
  assert (at_stage s [] [] (world s) s) as H0.
  { unfold at_stage. by rewrite !app_nil_r. }
  unfold bind at 1, registry_all. simpl. fold all.
  eapply post_bind_weaken; [apply (hooks_stage s), H0| |].
  { intros s' (_ & k & _ & Hc & Ha). split.
    - eexists. split; [|exact Hc]. simpl. unfold lifecycle_calls.
      apply prefix_app_r, prefix_take.
    - exists 0. by rewrite Ha. }
  intros _ s1 [Hb H1]. simpl in H1.
  eapply post_bind_weaken; [apply (hooks_stage s), H1| |].
  { intros s' (_ & k & _ & Hc & Ha). split.
    - eexists. split; [|exact Hc]. simpl. unfold lifecycle_calls.
      apply prefix_app, prefix_app_r, prefix_take.
    - exists 0. by rewrite Ha. }
  intros _ s2 [Hcfg H2]. simpl in H2.
  destruct H2 as (Hworld & H2c & H2a).
  assert (world s2 = w) as Hw.
  { rewrite Hworld. unfold w, resolved_world. fold all.
    apply (f_equal snd). symmetry. apply run_hooks_app. exact Hb. }
  unfold bind at 1, get. unfold post at 1. rewrite Hw.
  assert (at_stage s (((λ x, CBeforeLoad (f_name x)) <$> all) ++
                      ((λ x, CConfigure (f_name x)) <$> all)) [] w s2) as H2
    by done.
  clear H2c H2a Hworld. fold (enabled_in w all).
  eapply post_bind_weaken; [apply (register_stage s phases_registry); [done|exact H2]| |].
  { intros s' (k & _ & Hc & Ha). split.
    - eexists. split; [|exact Hc]. unfold lifecycle_calls. rewrite <- !app_assoc.
      do 2 apply prefix_app. apply prefix_app_r, prefix_take.
    - exists 0. by rewrite Ha. }
  clear H2. intros ? s3 H3. cbv beta in H3.
  eapply post_bind_weaken; [apply (register_stage s commands_registry); [done|exact H3]| |].
  { intros s' (k & _ & Hc & Ha). split.
    - eexists. split; [|exact Hc]. unfold lifecycle_calls. rewrite <- !app_assoc.
      do 3 apply prefix_app. apply prefix_app_r, prefix_take.
    - exists 0. by rewrite Ha. }
  clear H3. intros ? s4 H4. cbv beta in H4.
  eapply post_bind_weaken; [apply (register_actions_stage s), H4| |].
  { intros s' (k & k' & _ & Hc & Ha). split.
    - eexists. split; [|exact Hc]. unfold lifecycle_calls. rewrite <- !app_assoc.
      do 4 apply prefix_app. apply prefix_app_r, prefix_take.
    - exists k. by rewrite Ha. }
  clear H4. intros ? s5 H5. cbv beta in H5. simpl in H5. fold (harvested_actions w all) in H5.
  eapply post_bind_weaken; [apply (register_stage s binaries_registry); [done|exact H5]| |].
  { intros s' (k & _ & Hc & Ha). split.
    - eexists. split; [|exact Hc]. unfold lifecycle_calls. rewrite <- !app_assoc.
      do 5 apply prefix_app. apply prefix_app_r, prefix_take.
    - exists (length (harvested_actions w all)). by rewrite Ha, firstn_all. }
  clear H5. intros ? s6 H6. cbv beta in H6.
  eapply post_bind_weaken; [apply (register_stage s services_registry); [done|exact H6]| |].
  { intros s' (k & _ & Hc & Ha). split.
    - eexists. split; [|exact Hc]. unfold lifecycle_calls. rewrite <- !app_assoc.
      do 6 apply prefix_app. apply prefix_app_r, prefix_take.
    - exists (length (harvested_actions w all)). by rewrite Ha, firstn_all. }
  clear H6. intros ? s7 H7. cbv beta in H7.
  eapply post_bind_weaken; [apply (hooks_stage s), H7| |].
  { intros s' (_ & k & _ & Hc & Ha). split.
    - eexists. split; [|exact Hc]. unfold lifecycle_calls. rewrite <- !app_assoc.
      do 7 apply prefix_app. apply prefix_take.
    - exists (length (harvested_actions w all)). by rewrite Ha, firstn_all. }
  intros _ s8 (_ & _ & Hc & Ha). apply post_ret. split_and!; [done| |done].
  rewrite Hc. unfold lifecycle_calls. by rewrite <- !app_assoc.
Qed.

Lemma harvested_actions_elem w (fs : list (Feature W)) (a : Action W) :
  a ∈ harvested_actions w fs ↔
  ∃ f, f ∈ fs ∧ f_disabled f w = false ∧ a ∈ f_actions f w ∧ a_disabled a w = false.
Proof.
  unfold harvested_actions, enabled_in, enabled_actions.
  rewrite list_elem_of_In, in_flat_map. split.
  - intros (f & [Hf Hen]%filter_In & [Ha Hna]%filter_In).
    exists f. rewrite !list_elem_of_In. by rewrite !negb_true_iff in *.
  - intros (f & Hf & Hen & Ha & Hna). exists f. rewrite !filter_In, !negb_true_iff.
    by rewrite !list_elem_of_In in *.
Qed.


(** C6. Whatever the outcome of [load_registered_features], an action in
    the action registry afterwards was there before or is declared by a
    registered feature whose [disabled] is false after [configure], and its
    own [disabled] is false; and every registration the load asks of the
    action registry is for such an action. When the load returns, the
    registry holds, after what it held, exactly these actions, in the order
    of the features. *)
Theorem actions_registered_only_if_enabled (s : State W) :
  let w := resolved_world s in
  let o := load_registered_features s in
  let declared_enabled (a : Action W) :=
    ∃ f, f ∈ features s ∧ f_disabled f w = false ∧
         a ∈ f_actions f w ∧ a_disabled a w = false in
  (∀ a, a ∈ actions (final_state o) → a ∈ actions s ∨ declared_enabled a) ∧
  (∀ cs name, calls (final_state o) = calls s ++ cs → CRegister RActions name ∈ cs →
     ∃ a, a_name a = name ∧ declared_enabled a) ∧
  (raised o = None → actions (final_state o) = actions s ++ harvested_actions w (features s)).
Proof.
  intros w o declared_enabled. pose proof (load_registered_features_post s) as Hpost.
  simpl in Hpost. fold w in Hpost. unfold post in Hpost. fold o in Hpost.
  assert (∃ cs k, cs `prefix_of` lifecycle_calls (features s) w ∧
            calls (final_state o) = calls s ++ cs ∧
            actions (final_state o) = actions s ++ take k (harvested_actions w (features s)) ∧
            (raised o = None →
             actions (final_state o) = actions s ++ harvested_actions w (features s)))
    as (cs & k & Hprefix & Hc & Ha & Hret).
  { destruct o as [fs s'|e s']; simpl.
    - destruct Hpost as (_ & Hc & Ha). eexists _, (length (harvested_actions w (features s))).
      rewrite firstn_all. by split_and!.
    - destruct Hpost as [(cs & Hprefix & Hc) [k Ha]]. by exists cs, k. }
  split_and!; [| |done].
  - intros a. rewrite Ha. intros [?|Hin]%elem_of_app; [by left|]. right.
    apply harvested_actions_elem.
    rewrite <- (take_drop k (harvested_actions w (features s))).
    apply elem_of_app; by left.
  - intros cs' name Hc' Hin. rewrite Hc in Hc'. apply app_inv_head in Hc' as <-.
    destruct Hprefix as [rest Hrest].
    assert (CRegister RActions name ∈ lifecycle_calls (features s) w) as Hall.
    { rewrite Hrest. apply elem_of_app; by left. }
    unfold lifecycle_calls, reg_calls in Hall.
    repeat (apply elem_of_app in Hall as [Hall|Hall]);
      apply list_elem_of_fmap in Hall as (x & Heq & Hx); try discriminate Heq.
    injection Heq as ->. exists x. split; [done|]. by apply harvested_actions_elem.
Qed.

End LifecycleFacts.

(** ** Binding actions to the event bus *)

Section BusFacts.
Context {W : Type} {env : Collaborators W}.
Implicit Types (a : Action W) (s : State W) (r : Runner W).

Definition runner_of (fail_fast : bool) a (b : EventBinding) : Runner W :=
  match b with
  | BindEvent event_name =>
      action_event_binding_runner_factory a event_name None fail_fast
  | BindMethod event_name method_name =>
      action_event_binding_runner_factory a event_name (Some method_name) fail_fast
  end.

(** The runners [register_actions_in_event_bus] builds for an action, in the
    order it subscribes them. *)
Definition runners (fail_fast : bool) a : list (Runner W) :=
  match a_event_bindings a with
  | SingleEvent event_name =>
      [action_event_binding_runner_factory a event_name None fail_fast]
  | EventList event_bindings => runner_of fail_fast a <$> event_bindings
  end.

(** Those of a list of runners that are for one event. *)
Definition on_event (event_name : string) (rs : list (Runner W)) : list (Runner W) :=
  List.filter (λ r, String.eqb (r_event_name r) event_name) rs.

Definition subscribe (b : gmap string (list (Runner W))) r : gmap string (list (Runner W)) :=
  <[r_event_name r := default [] (b !! r_event_name r) ++ [r]]> b.

Lemma runners_action fail_fast a r : r ∈ runners fail_fast a → r_action r = a.
Proof.
  unfold runners. destruct (a_event_bindings a) as [e|bs].
  - by intros ->%list_elem_of_singleton.
  - intros (b & -> & _)%list_elem_of_fmap. by destruct b.
Qed.

Lemma for_each_bus_on (rs : list (Runner W)) s :
  for_each rs (λ r, bus_on (r_event_name r) r) s
  = Ret tt (set_bus (fold_left subscribe rs (bus s)) s).
Proof.
  revert s. induction rs as [|r rs IH]; intros s; simpl.
  - by destruct s.
  - unfold bind, bus_on, modify. by rewrite IH.
Qed.

Lemma bind_action_runners fail_fast a s :
  match a_event_bindings a with
  | SingleEvent event_name =>
      bus_on event_name
        (action_event_binding_runner_factory a event_name None fail_fast)
  | EventList event_bindings =>
      for_each event_bindings (λ event_binding,
        match event_binding with
        | BindEvent event_name =>
            bus_on event_name
              (action_event_binding_runner_factory a event_name None fail_fast)
        | BindMethod event_name method_name =>
            bus_on event_name
              (action_event_binding_runner_factory a event_name
                 (Some method_name) fail_fast)
        end)
  end s
  = for_each (runners fail_fast a) (λ r, bus_on (r_event_name r) r) s.
Proof.
  unfold runners. destruct (a_event_bindings a) as [e|bs]; [done|].
  revert s. induction bs as [|b bs IH]; intros s; csimpl; [done|].
  unfold bind. destruct b; simpl; apply IH.
Qed.

Lemma for_each_bind_actions fail_fast (l : list (Action W)) s :
  for_each l (λ action,
    match a_event_bindings action with
    | SingleEvent event_name =>
        bus_on event_name
          (action_event_binding_runner_factory action event_name None fail_fast)
    | EventList event_bindings =>
        for_each event_bindings (λ event_binding,
          match event_binding with
          | BindEvent event_name =>
              bus_on event_name
                (action_event_binding_runner_factory action event_name None fail_fast)
          | BindMethod event_name method_name =>
              bus_on event_name
                (action_event_binding_runner_factory action event_name
                   (Some method_name) fail_fast)
          end)
    end) s
  = Ret tt (set_bus (fold_left subscribe (flat_map (runners fail_fast) l) (bus s)) s).
Proof.
  revert s. induction l as [|a l IH]; intros s; simpl.
  - by destruct s.
  - unfold bind. rewrite bind_action_runners, for_each_bus_on, IH. simpl.
    by rewrite fold_left_app.
Qed.

Lemma register_actions_in_event_bus_run fail_fast s :
  register_actions_in_event_bus fail_fast s
  = Ret tt (set_bus (fold_left subscribe
                       (flat_map (runners fail_fast) (Py.sorted by_order (actions s)))
                       (bus s)) s).
Proof.
  unfold register_actions_in_event_bus, bind, registry_all. simpl.
  apply for_each_bind_actions.
Qed.

Lemma subscribed_handlers (rs : list (Runner W)) (b : gmap string (list (Runner W))) E :
  default [] (fold_left subscribe rs b !! E) = default [] (b !! E) ++ on_event E rs.
Proof.
  revert b. induction rs as [|r rs IH]; intros b; simpl.
  - by rewrite app_nil_r.
  - rewrite IH. unfold subscribe, on_event. cbn [List.filter].
    rewrite PyFacts.eqb_decide. case_bool_decide as He.
    + subst E. rewrite lookup_insert_eq. simpl. by rewrite <- app_assoc.
    + by rewrite lookup_insert_ne.
Qed.

Lemma on_event_flat_map {A} E (g : A → list (Runner W)) (l : list A) :
  on_event E (flat_map g l) = flat_map (λ x, on_event E (g x)) l.
Proof.
  unfold on_event. induction l as [|x l IH]; simpl; [done|].
  by rewrite List.filter_app, IH.
Qed.

Definition order_le r1 r2 : Prop := (a_order (r_action r1) ≤ a_order (r_action r2))%Z.

Lemma bound_runners_sorted (g : Action W → list (Runner W)) (l : list (Action W)) :
  (∀ a r, r ∈ g a → r_action r = a) →
  StronglySorted (SortedFacts.key_le (λ a, a_order a)) l →
  StronglySorted order_le (flat_map g l).
Proof.
  intros Hg. induction 1 as [|a l Hl IH Ha]; simpl; [constructor|].
  apply StronglySorted_app. split_and!; [| |done].
  - intros r1 r2 Hr1 Hr2%list_elem_of_In. apply in_flat_map in Hr2 as (a' & Ha' & Hr2).
    rewrite Forall_forall in Ha. specialize (Ha a' ltac:(by apply list_elem_of_In)).
    unfold order_le. rewrite (Hg _ _ Hr1), (Hg a' r2) by (by apply list_elem_of_In). done.
  - assert (Forall (λ r, r_action r = a) (g a)) as Hall
      by (apply Forall_forall; intros r Hr; by apply Hg).
    induction Hall as [|r rs Hr Hrs IHrs]; constructor; [done|].
    eapply Forall_impl; [exact Hrs|]. intros r' Hr'. unfold order_le.
    rewrite Hr, Hr'. lia.
Qed.

Lemma bound_runners_filter (g : Action W → list (Runner W)) (l : list (Action W)) k :
  (∀ a r, r ∈ g a → r_action r = a) →
  List.filter (λ r, (a_order (r_action r) =? k)%Z) (flat_map g l)
  = flat_map g (List.filter (λ a, (a_order a =? k)%Z) l).
Proof.
  intros Hg. induction l as [|a l IH]; simpl; [done|].
  rewrite List.filter_app, IH.
  assert (List.filter (λ r, (a_order (r_action r) =? k)%Z) (g a)
          = if (a_order a =? k)%Z then g a else []) as ->.
  { assert (Forall (λ r, r_action r = a) (g a)) as Hall
      by (apply Forall_forall; intros r Hr; by apply Hg).
    induction Hall as [|r rs Hr Hrs IHrs]; simpl; [by destruct (_ =? _)%Z|].
    rewrite Hr, IHrs. by destruct (_ =? _)%Z. }
  by destruct (_ =? _)%Z.
Qed.

(** C1. [register_actions_in_event_bus] returns, and for every event name
    the handlers it adds after those already bound are the runners for that
    event of the registered actions taken in the order [sorted] gives: their
    actions are in ascending [order], and among the actions of one [order]
    the runners come in the order of the action registry, each action with
    its bindings in the order it declares them. After a load from an empty
    action registry, the registry order is that of the enabled features in
    the feature registry. *)
Theorem register_actions_in_event_bus_order (fail_fast : bool) (s : State W) (E : string) :
  let bound :=
    flat_map (λ a, on_event E (runners fail_fast a)) (Py.sorted by_order (actions s)) in
  ∃ s', register_actions_in_event_bus fail_fast s = Ret tt s' ∧
    bus_handlers s' E = bus_handlers s E ++ bound ∧
    StronglySorted order_le bound ∧
    (∀ k, List.filter (λ r, (a_order (r_action r) =? k)%Z) bound
          = flat_map (λ a, on_event E (runners fail_fast a))
              (List.filter (λ a, (a_order a =? k)%Z) (actions s))) ∧
    (∀ s0 fs, load_registered_features s0 = Ret fs s → actions s0 = [] →
       actions s = flat_map (λ f, enabled_actions f (resolved_world s0))
                     (enabled_in (resolved_world s0) (features s0))).
Proof.
  intros bound. eexists. split; [apply register_actions_in_event_bus_run|].
  assert (∀ a r, r ∈ on_event E (runners fail_fast a) → r_action r = a) as Hg.
  { intros a r [Hr _]%list_elem_of_In%filter_In. apply list_elem_of_In in Hr.
    by eapply runners_action. }
  split_and!.
  - unfold bus_handlers. simpl. rewrite subscribed_handlers. by rewrite on_event_flat_map.
  - apply bound_runners_sorted; [done|].
    apply (SortedFacts.sorted_StronglySorted (λ a, a_order a)).
  - intros k. unfold bound. rewrite bound_runners_filter by done. f_equal.
    apply (SortedFacts.sorted_stable (λ a, a_order a)).
  - intros s0 fs Hload Hempty. pose proof (load_registered_features_post s0) as Hpost.
    unfold post in Hpost. rewrite Hload in Hpost. destruct Hpost as (_ & _ & ->).
    by rewrite Hempty.
Qed.

Definition with_event_bindings a (event_bindings : EventBindings) : Action W :=
  {| a_name := a_name a; a_order := a_order a; a_disabled := a_disabled a;
     a_event_bindings := event_bindings |}.

(** C7. Of two actions that differ in [event_bindings] only, one with the
    string [E] and one with the one-element list [[E]], each gets exactly one
    runner, for [E], with the default method and the given [fail_fast]; and
    with either in the same place of the action registry, the handlers of
    [E] are the same before and after its runner, and the handlers of every
    other event are the same. *)
Theorem single_event_binds_like_one_element_list
    (fail_fast : bool) (s : State W) (a : Action W) (E : string)
    (pre post : list (Action W)) :
  let a1 := with_event_bindings a (SingleEvent E) in
  let a2 := with_event_bindings a (EventList [BindEvent E]) in
  let r1 := action_event_binding_runner_factory a1 E None fail_fast in
  let r2 := action_event_binding_runner_factory a2 E None fail_fast in
  runners fail_fast a1 = [r1] ∧ runners fail_fast a2 = [r2] ∧
  ∃ s1 s2 before after,
    register_actions_in_event_bus fail_fast (set_actions (pre ++ a1 :: post) s) = Ret tt s1 ∧
    register_actions_in_event_bus fail_fast (set_actions (pre ++ a2 :: post) s) = Ret tt s2 ∧
    bus_handlers s1 E = before ++ r1 :: after ∧
    bus_handlers s2 E = before ++ r2 :: after ∧
    ∀ E', E' ≠ E → bus_handlers s1 E' = bus_handlers s2 E'.
Proof.
  intros a1 a2 r1 r2. split_and!; [done..|].
  destruct (SortedFacts.sorted_same_key (λ x : Action W, a_order x) a1 a2 pre post)
    as (p & q & H1 & H2); [done|].
  do 2 eexists.
  exists (bus_handlers s E ++ flat_map (λ x, on_event E (runners fail_fast x)) p),
         (flat_map (λ x, on_event E (runners fail_fast x)) q).
  split_and!; [apply register_actions_in_event_bus_run..| | |].
  - unfold bus_handlers. simpl. rewrite subscribed_handlers, on_event_flat_map.
    change (Py.sorted by_order (pre ++ a1 :: post))
      with (Py.sorted (SortedFacts.key_leb (λ x : Action W, a_order x)) (pre ++ a1 :: post)).
    rewrite H1, flat_map_app. simpl. unfold on_event at 2. simpl.
    rewrite String.eqb_refl. by rewrite <- app_assoc.
  - unfold bus_handlers. simpl. rewrite subscribed_handlers, on_event_flat_map.
    change (Py.sorted by_order (pre ++ a2 :: post))
      with (Py.sorted (SortedFacts.key_leb (λ x : Action W, a_order x)) (pre ++ a2 :: post)).
    rewrite H2, flat_map_app. simpl. unfold on_event at 2. simpl.
    rewrite String.eqb_refl. by rewrite <- app_assoc.
  - intros E' HE. unfold bus_handlers. simpl.
    rewrite !subscribed_handlers, !on_event_flat_map.
    change (Py.sorted by_order (pre ++ a1 :: post))
      with (Py.sorted (SortedFacts.key_leb (λ x : Action W, a_order x)) (pre ++ a1 :: post)).
    change (Py.sorted by_order (pre ++ a2 :: post))
      with (Py.sorted (SortedFacts.key_leb (λ x : Action W, a_order x)) (pre ++ a2 :: post)).
    rewrite H1, H2, !flat_map_app. cbn [flat_map].
    assert (on_event E' (runners fail_fast a1) = [] ∧
            on_event E' (runners fail_fast a2) = []) as [-> ->]; [|done].
    unfold on_event. simpl. by rewrite (proj2 (String.eqb_neq E E')) by done.
Qed.

End BusFacts.

(** ** Command line and entry point *)

Section CommandFacts.
Context {W : Type} {env : Collaborators W}.
Implicit Types (s : State W).

Lemma bind_Ret_inv {S A B} (m : M S A) (k : A → M S B) st b st' :
  bind m k st = Ret b st' → ∃ a st1, m st = Ret a st1 ∧ k a st1 = Ret b st'.
Proof. unfold bind. destruct (m st) as [a st1|]; [|done]. intros. by exists a, st1. Qed.

Lemma handle_command_line_selected
    (args : option (list string)) s parsed_args unknown_args name command :
  parse_known_args (commands s) args = inr (parsed_args, unknown_args) →
  selected_command parsed_args = Some name →
  List.find (λ o, String.eqb (c_name o) name) (commands s) = Some command →
  handle_command_line args s
  = try_restart (run_execute_command command)
      (λ restart_args,
         modify (set_config_args (Some restart_args)) >> run_execute_command command)
      (set_config_unknown_args unknown_args
         (set_config_args (Some parsed_args)
            (set_log_level (select_log_level parsed_args) s))).
Proof.
  intros Hparse Hsel Hfind.
  unfold handle_command_line, bind at 1, registry_all. simpl.
  rewrite Hparse. unfold bind at 1, modify at 1. rewrite Hsel.
  unfold bind at 1, registry_get. simpl. rewrite Hfind.
  unfold bind at 1, modify at 1. by unfold bind at 1, modify at 1.
Qed.

(** C4. When the command line selects a registered command and its
    execution raises [RestartWithArgs], [handle_command_line] stores the
    restart arguments in [config.args] and executes the command a second
    time, and that is all: the outcome is that of the second execution, an
    exception of it, [RestartWithArgs] included, goes through, and
    [execute_command] was called exactly twice, first with the parsed
    arguments and then with the restart arguments. *)
Theorem restart_is_retried_once
    (args : option (list string)) (s : State W)
    (parsed_args : ParsedArgs) (unknown_args : list string) (name : string)
    (command : Command) (restart_args : ParsedArgs) (w1 : W) :
  parse_known_args (commands s) args = inr (parsed_args, unknown_args) →
  selected_command parsed_args = Some name →
  List.find (λ o, String.eqb (c_name o) name) (commands s) = Some command →
  execute_command command (Some parsed_args) unknown_args (world s)
    = (Some (RestartWithArgs restart_args), w1) →
  let second := execute_command command (Some restart_args) unknown_args w1 in
  let o := handle_command_line args s in
  raised o = second.1 ∧
  world (final_state o) = second.2 ∧
  config_args (final_state o) = Some restart_args ∧
  calls (final_state o)
  = calls s ++ [CExecuteCommand (c_name command) (Some parsed_args);
                CExecuteCommand (c_name command) (Some restart_args)].
Proof.
  intros Hparse Hsel Hfind Hfirst second o. subst o.
  rewrite (handle_command_line_selected args s parsed_args unknown_args name command)
    by done.
  unfold try_restart, run_execute_command, call_effect, bind, modify. simpl.
  rewrite Hfirst. simpl. fold second.
  destruct second as [[e|] w2]; simpl; by rewrite <- app_assoc.
Qed.

(** C5. When [main] returns, it returns [context.exceptions]; the console
    entry point then raises [SystemExit(1)] when that list is not empty and
    returns when it is empty, so that the exit status is not zero exactly
    when the list is not empty. *)
Theorem console_script_exit_status (s s' : State W) (exceptions : list Exn) :
  main None s = Ret exceptions s' →
  exceptions = context_exceptions (world s') ∧
  console_script s
    = match exceptions with
      | [] => Ret tt s'
      | _ :: _ => Raise (SystemExit 1) s'
      end ∧
  (exit_status (console_script s) ≠ 0%Z ↔ exceptions ≠ []).
Proof.
  intros Hmain.
  assert (console_script s
          = match exceptions with
            | [] => Ret tt s'
            | _ :: _ => Raise (SystemExit 1) s'
            end) as Hrun.
  { unfold console_script, bind. rewrite Hmain. by destruct exceptions. }
  split_and!; [|done|].
  - unfold main in Hmain.
    do 6 (apply bind_Ret_inv in Hmain as (? & ? & _ & Hmain)).
    unfold bind, get, ret in Hmain. by injection Hmain as <- <-.
  - rewrite Hrun. destruct exceptions; simpl; split; done.
Qed.

End CommandFacts.

(** ** The small installation, run *)

Section Runs.
Import Example.

(** The features after the load, and the state with their actions bound. *)
Definition loaded : State World := final_state (load_registered_features (registered plain)).

Lemma register_actions_in_event_bus_order_run :
  ∃ s', register_actions_in_event_bus false loaded = Ret tt s' ∧
    (λ r, (a_name (r_action r), r_method r)) <$> bus_handlers s' "phase:info"
    = [("shell:bash:activate", None); ("core:list-features", None);
       ("docker:emit-docker-compose-config", Some "describe")] ∧
    actions loaded
    = flat_map (λ f, enabled_actions f (resolved_world (registered plain)))
        (enabled_in (resolved_world (registered plain)) (features (registered plain))).
Proof.
  destruct (register_actions_in_event_bus_order false loaded "phase:info")
    as (s' & Hrun & Hbound & _ & _ & Hload).
  exists s'. split; [exact Hrun|]. split.
  - rewrite Hbound. vm_compute. reflexivity.
  - apply (Hload (registered plain) [core; docker; shell]); vm_compute; reflexivity.
Defined.



Lemma register_features_missing_required_dependency_run :
  register_features [core; broken] (start plain)
  = Raise (ValueError "A required dependency is missing for broken feature (missing)")
      (start plain).
Proof.
  destruct (register_features_missing_required_dependency
              [core; broken] (start plain) "broken" "missing" broken)
    as (name' & f' & dep' & message & Hget & Hdep & Hopt & Hmiss & Hmessage & Hrun & _).
  - reflexivity.
  - apply (bool_decide_unpack _). vm_compute. exact I.
  - reflexivity.
  - apply (bool_decide_unpack _). vm_compute. exact I.
  - rewrite Hrun, Hmessage. clear Hrun Hmessage.
    apply PyFacts.dict_get_Some_elem in Hget.
    change (build_entrypoint_features [core; broken])
      with [("core", core); ("broken", broken)] in Hget, Hmiss.
    apply elem_of_cons in Hget as [Hget | Hget].
    + injection Hget as -> ->. by apply elem_of_nil in Hdep.
    + apply list_elem_of_singleton in Hget. injection Hget as -> ->.
      apply elem_of_cons in Hdep as [-> | Hdep].
      * exfalso. apply Hmiss. by left.
      * apply list_elem_of_singleton in Hdep as ->. reflexivity.
Defined.

Definition info_args : ParsedArgs :=
  {| pa_command := Some "info"; pa_verbose := false; pa_very_verbose := false;
     pa_silent := false; pa_options := [] |}.

Lemma restart_is_retried_once_run :
  let o := handle_command_line (Some ["info"]) loaded in
  raised o = None ∧
  world (final_state o) = world loaded ∧
  config_args (final_state o) = Some (with_option info_args ("eject", "true")) ∧
  calls (final_state o)
  = calls loaded ++ [CExecuteCommand "info" (Some info_args);
                     CExecuteCommand "info" (Some (with_option info_args ("eject", "true")))].
Proof.
  exact (restart_is_retried_once (Some ["info"]) loaded info_args [] "info" info
           (with_option info_args ("eject", "true")) (world loaded)
           eq_refl eq_refl eq_refl eq_refl).
Defined.

Lemma console_script_exit_status_run :
  let s' := final_state (main None (start failed)) in
  [OtherError "boom"] = context_exceptions (world s') ∧
  console_script (start failed) = Raise (SystemExit 1) s' ∧
  (exit_status (console_script (start failed)) ≠ 0%Z ↔ [OtherError "boom"] ≠ []).
Proof.
  apply (console_script_exit_status (start failed)
           (final_state (main None (start failed))) [OtherError "boom"]).
  vm_compute. reflexivity.
Defined.

Lemma actions_registered_only_if_enabled_run :
  actions loaded
  = actions (registered plain) ++
    harvested_actions (resolved_world (registered plain)) (features (registered plain)).
Proof.
  apply (proj2 (proj2 (actions_registered_only_if_enabled (registered plain)))).
  vm_compute. reflexivity.
Defined.

Lemma single_event_binds_like_one_element_list_run :
  let a1 := with_event_bindings list_features (SingleEvent "phase:info") in
  let a2 := with_event_bindings list_features (EventList [BindEvent "phase:info"]) in
  ∃ s1 s2,
    register_actions_in_event_bus false (set_actions [activate; a1; emit_config] (start plain))
    = Ret tt s1 ∧
    register_actions_in_event_bus false (set_actions [activate; a2; emit_config] (start plain))
    = Ret tt s2 ∧
    bus_handlers s1 "phase:configure" = bus_handlers s2 "phase:configure".
Proof.
  intros a1 a2.
  destruct (single_event_binds_like_one_element_list false (start plain) list_features
              "phase:info" [activate] [emit_config])
    as (_ & _ & s1 & s2 & before & after & H1 & H2 & _ & _ & Hother).
  exists s1, s2. split; [exact H1|]. split; [exact H2|].
  apply Hother. discriminate.
Defined.

Lemma override_only_feature_is_graph_node_run :
  let ef := build_entrypoint_features default_features in
  let o := register_features default_features (start with_ghost) in
  ∃ td merged,
    merge_dependencies [] (graph_of ef ∅) = inr td ∧
    td !! "ghost" = None ∧
    ensure_node "ghost" td !! "ghost" = Some ∅ ∧
    merge_dependencies (config_dependencies (world (start with_ghost))) (graph_of ef ∅)
    = inr merged ∧
    merged !! "ghost" = Some (list_to_set ["core"]) ∧
    (∀ names, Toposort.toposort_flatten merged = inr names → "ghost" ∈ names) ∧
    (∀ f, f ∈ features (final_state o) → f_name f = "ghost" →
          f ∈ features (start with_ghost)) ∧
    (∀ key, raised o ≠ Some (KeyError key)) ∧
    ∃ cs, calls (final_state o) = calls (start with_ghost) ++ CToposort merged :: cs ∧
          ∀ name, CRegister RFeatures name ∈ cs → name ≠ "ghost".
Proof.
  intros ef o.
  destruct (override_only_feature_is_graph_node default_features (start with_ghost)
              [] [("shell", ["phantom"])] "ghost" ["core"])
    as (td & merged & H1 & H2 & H3 & H4 & H5 & H6 & H7 & H8 & H9).
  - reflexivity.
  - apply (bool_decide_unpack _). vm_compute. exact I.
  - apply (bool_decide_unpack _). vm_compute. exact I.
  - exists td, merged. split_and!; try done. apply H9. vm_compute. reflexivity.
Defined.

Lemma override_dependencies_skip_missing_check_run :
  let ef := build_entrypoint_features default_features in
  let dependencies := config_dependencies (world (start with_ghost)) in
  ∃ merged,
    merge_dependencies dependencies (graph_of ef ∅) = inr merged ∧
    match Toposort.toposort_flatten merged with
    | inl e =>
        register_features default_features (start with_ghost)
        = Raise e (log_call (CToposort merged) (start with_ghost)) ∧
        ∃ rest, e = CircularDependencyError rest
    | inr names =>
        ∃ s', register_features default_features (start with_ghost) = Ret tt s' ∧
          features s' = omap (Py.dict_get ef) names ∧
          ∀ feat deps dep, (feat, deps) ∈ dependencies → dep ∈ deps →
            dep ∉ Py.dict_keys ef →
            dep ∈ names ∧ ∀ f, f ∈ features s' → f_name f ≠ dep
    end.
Proof.
  apply (override_dependencies_skip_missing_check default_features (start with_ghost)).
  - vm_compute. reflexivity.
  - reflexivity.
Defined.

(** C9, as stated, fails: here the configuration names, for [core], the
    dependency [ghost], which no feature provides, and [register_features]
    raises, the sort having found the cycle the configuration closes through
    it. *)
Lemma override_entry_can_raise :
  let s := start with_cycle in
  ("core", ["ghost"]) ∈ config_dependencies (world s) ∧
  "ghost" ∈ ["ghost"] ∧
  ("ghost" ∉ Py.dict_keys (build_entrypoint_features default_features)) ∧
  _check_missing_dependencies (build_entrypoint_features default_features)
    (_prepare_dependencies_data (build_entrypoint_features default_features)).1 s
  = Ret tt s ∧
  ∃ rest, raised (register_features default_features s)
          = Some (CircularDependencyError rest).
Proof.
  simpl. split_and!.
  - apply (bool_decide_unpack _). vm_compute. exact I.
  - apply (bool_decide_unpack _). vm_compute. exact I.
  - apply (bool_decide_unpack _). vm_compute. exact I.
  - vm_compute. reflexivity.
  - eexists. vm_compute. reflexivity.
Qed.

End Runs.

(** ** The shell environment backup *)

Module EnvBackupFacts.
Import EnvBackup.

Open Scope N_scope.

(** *** Checking a property on every number below a bound *)

Definition below (n : nat) : list N := N.of_nat <$> seq 0 n.

Lemma forall_below (P : N → bool) (n : nat) :
  forallb P (below n) = true → ∀ x, x < N.of_nat n → P x = true.
Proof.
  intros H x Hx. rewrite forallb_forall in H. apply H.
  unfold below. apply in_map_iff. exists (N.to_nat x). split; [lia|].
  apply in_seq. lia.
Qed.

Lemma forall_below2 (P : N → N → bool) (n m : nat) :
  forallb (λ x, forallb (P x) (below m)) (below n) = true →
  ∀ x y, x < N.of_nat n → y < N.of_nat m → P x y = true.
Proof.
  intros H x y Hx Hy.
  apply (forall_below (P x) m); [|done].
  by apply (forall_below (λ x, forallb (P x) (below m)) n).
Qed.

(** *** ASCII texts *)

Definition ascii (s : str) : Prop := Forall (λ c, c < 0x80) s.

Lemma utf8_encode_ascii s : ascii s → utf8_encode s = Some s.
Proof.
  induction 1 as [|c s Hc Hs IH]; simpl; [done|].
  unfold utf8_encode_char. apply N.ltb_lt in Hc. by rewrite Hc, IH.
Qed.

Lemma utf8_decode_ascii s : ascii s → utf8_decode s = Some s.
Proof.
  induction 1 as [|c s Hc Hs IH]; simpl; [done|].
  apply N.ltb_lt in Hc. by rewrite Hc, IH.
Qed.

Lemma hex_digit_ascii d : d < 16 → hex_digit d < 0x80.
Proof. unfold hex_digit. intros. destruct (N.ltb_spec d 10); lia. Qed.

Lemma hex4_ascii n : ascii (hex4 n).
Proof.
  unfold hex4. repeat constructor; apply hex_digit_ascii; by apply N.mod_lt.
Qed.

Lemma u_escape_ascii n : ascii (u_escape n).
Proof. unfold u_escape. apply Forall_app. split; [by repeat constructor | apply hex4_ascii]. Qed.

Lemma escape_char_ascii c : ascii (escape_char c).
Proof.
  unfold escape_char.
  repeat (destruct (_ =? _); [by repeat constructor|]).
  destruct (andb _ _) eqn:Hp.
  - apply andb_true_iff in Hp as [_ Hc%N.leb_le]. constructor; [lia|constructor].
  - destruct (_ <? _); [apply u_escape_ascii|].
    apply Forall_app. split; apply u_escape_ascii.
Qed.

Lemma encode_basestring_ascii_ascii s : ascii (encode_basestring_ascii s).
Proof.
  unfold encode_basestring_ascii. apply Forall_app. split; [by repeat constructor|].
  apply Forall_app. split; [|by repeat constructor].
  induction s as [|c s IH]; simpl; [constructor|].
  apply Forall_app. split; [apply escape_char_ascii | done].
Qed.

Lemma dumps_item_ascii kv : ascii (dumps_item kv).
Proof.
  unfold dumps_item. apply Forall_app. split; [apply encode_basestring_ascii_ascii|].
  apply Forall_app. split; [by repeat constructor | apply encode_basestring_ascii_ascii].
Qed.

Lemma dumps_items_ascii d : ascii (dumps_items d).
Proof.
  induction d as [|kv d IH]; [constructor|].
  destruct d as [|kv' d]; [apply dumps_item_ascii|].
  cbn [dumps_items]. apply Forall_app. split; [apply dumps_item_ascii|].
  apply Forall_app. split; [by repeat constructor | done].
Qed.

Lemma json_dumps_ascii d : ascii (json_dumps d).
Proof.
  unfold json_dumps. apply Forall_app. split; [by repeat constructor|].
  apply Forall_app. split; [apply dumps_items_ascii | by repeat constructor].
Qed.

Lemma b64_char_ascii i : b64_char i < 0x80.
Proof.
  unfold b64_char.
  repeat match goal with |- context [?a <? ?b] => destruct (N.ltb_spec a b) end;
    try lia.
  destruct (_ =? _); lia.
Qed.

Lemma b64encode_ascii bs : ascii (b64encode bs).
Proof.
  induction bs as [bs IH] using (induction_ltof1 _ length). unfold ltof in IH.
  destruct bs as [|b0 [|b1 [|b2 bs]]]; cbn [b64encode].
  - constructor.
  - repeat constructor; apply b64_char_ascii.
  - repeat constructor; apply b64_char_ascii.
  - apply Forall_app. split; [repeat constructor; apply b64_char_ascii|].
    apply IH. simpl. lia.
Qed.

(** *** Base64 *)

Definition b64_char_ok (i : N) : bool :=
  negb (b64_char i =? 61) &&
  match b64_value (b64_char i) with Some j => j =? i | None => false end.

Lemma b64_value_char i :
  i < 64 → (b64_char i =? 61) = false ∧ b64_value (b64_char i) = Some i.
Proof.
  intros Hi. assert (b64_char_ok i = true) as Hok.
  { apply (forall_below b64_char_ok 64); [by vm_compute | done]. }
  unfold b64_char_ok in Hok. apply andb_true_iff in Hok as [H1 H2].
  split; [by apply negb_true_iff|].
  destruct (b64_value (b64_char i)) as [j|]; [|done].
  by apply N.eqb_eq in H2 as ->.
Qed.

Lemma a2b_base64_alphabet i data quad_pos leftchar pads bin_data :
  i < 64 →
  a2b_base64 (b64_char i :: data) quad_pos leftchar pads bin_data
  = if quad_pos =? 0 then a2b_base64 data 1 i 0 bin_data
    else if quad_pos =? 1 then
      a2b_base64 data 2 (N.land i 0x0f) 0
        (bin_data ++ [N.lor (N.shiftl leftchar 2) (N.shiftr i 4)])
    else if quad_pos =? 2 then
      a2b_base64 data 3 (N.land i 0x03) 0
        (bin_data ++ [N.lor (N.shiftl leftchar 4) (N.shiftr i 2)])
    else a2b_base64 data 0 0 0 (bin_data ++ [N.lor (N.shiftl leftchar 6) i]).
Proof. intros [H1 H2]%b64_value_char. cbn [a2b_base64]. by rewrite H1, H2. Qed.

(** What the decoder needs of two neighbouring bytes [x] and [y]: the
    six-bit values are in the alphabet and the shifts undo each other. *)
Definition pair_ok (x y : N) : bool :=
  (N.shiftr x 2 <? 64) &&
  (N.shiftl (N.land x 3) 4 <? 64) &&
  (N.lor (N.shiftl (N.land x 3) 4) (N.shiftr y 4) <? 64) &&
  (N.shiftl (N.land x 15) 2 <? 64) &&
  (N.lor (N.shiftl (N.land x 15) 2) (N.shiftr y 6) <? 64) &&
  (N.land x 63 <? 64) &&
  (N.lor (N.shiftl (N.shiftr x 2) 2)
     (N.shiftr (N.lor (N.shiftl (N.land x 3) 4) (N.shiftr y 4)) 4) =? x) &&
  (N.lor (N.shiftl (N.shiftr x 2) 2) (N.shiftr (N.shiftl (N.land x 3) 4) 4) =? x) &&
  (N.land (N.lor (N.shiftl (N.land x 3) 4) (N.shiftr y 4)) 15 =? N.shiftr y 4) &&
  (N.lor (N.shiftl (N.shiftr x 4) 4)
     (N.shiftr (N.lor (N.shiftl (N.land x 15) 2) (N.shiftr y 6)) 2) =? x) &&
  (N.lor (N.shiftl (N.shiftr x 4) 4) (N.shiftr (N.shiftl (N.land x 15) 2) 2) =? x) &&
  (N.land (N.lor (N.shiftl (N.land x 15) 2) (N.shiftr y 6)) 3 =? N.shiftr y 6) &&
  (N.lor (N.shiftl (N.shiftr x 6) 6) (N.land x 63) =? x).

Lemma pair_ok_bytes x y : x < 256 → y < 256 → pair_ok x y = true.
Proof. apply (forall_below2 pair_ok 256 256). by vm_compute. Qed.

#[local] Ltac split_pair_ok H :=
  unfold pair_ok in H;
  repeat (let H' := fresh "Hok" in apply andb_true_iff in H as [H H']);
  repeat match goal with
         | H : (_ <? _) = true |- _ => apply N.ltb_lt in H
         | H : (_ =? _) = true |- _ => apply N.eqb_eq in H
         end.

Definition is_bytes (bs : bytes) : Prop := Forall (λ b, b < 256) bs.

Lemma a2b_base64_quad v0 v1 v2 v3 data leftchar pads bin_data :
  v0 < 64 → v1 < 64 → v2 < 64 → v3 < 64 →
  a2b_base64 (b64_char v0 :: b64_char v1 :: b64_char v2 :: b64_char v3 :: data)
    0 leftchar pads bin_data
  = a2b_base64 data 0 0 0
      (bin_data ++ [N.lor (N.shiftl v0 2) (N.shiftr v1 4);
                    N.lor (N.shiftl (N.land v1 0x0f) 4) (N.shiftr v2 2);
                    N.lor (N.shiftl (N.land v2 0x03) 6) v3]).
Proof.
  intros. rewrite a2b_base64_alphabet by done. cbn [N.eqb].
  rewrite a2b_base64_alphabet by done. cbn [N.eqb Pos.eqb].
  rewrite a2b_base64_alphabet by done. cbn [N.eqb Pos.eqb].
  rewrite a2b_base64_alphabet by done. cbn [N.eqb Pos.eqb].
  by rewrite <- !app_assoc.
Qed.

Lemma a2b_base64_two_pads v0 v1 data leftchar pads bin_data :
  v0 < 64 → v1 < 64 →
  a2b_base64 (b64_char v0 :: b64_char v1 :: 61 :: 61 :: data) 0 leftchar pads bin_data
  = Some (bin_data ++ [N.lor (N.shiftl v0 2) (N.shiftr v1 4)]).
Proof.
  intros. rewrite a2b_base64_alphabet by done. cbn [N.eqb].
  rewrite a2b_base64_alphabet by done. cbn [N.eqb Pos.eqb]. done.
Qed.

Lemma a2b_base64_one_pad v0 v1 v2 data leftchar pads bin_data :
  v0 < 64 → v1 < 64 → v2 < 64 →
  a2b_base64 (b64_char v0 :: b64_char v1 :: b64_char v2 :: 61 :: data)
    0 leftchar pads bin_data
  = Some (bin_data ++ [N.lor (N.shiftl v0 2) (N.shiftr v1 4);
                       N.lor (N.shiftl (N.land v1 0x0f) 4) (N.shiftr v2 2)]).
Proof.
  intros. rewrite a2b_base64_alphabet by done. cbn [N.eqb].
  rewrite a2b_base64_alphabet by done. cbn [N.eqb Pos.eqb].
  rewrite a2b_base64_alphabet by done. cbn [N.eqb Pos.eqb].
  by rewrite <- !app_assoc.
Qed.

Lemma a2b_base64_b64encode bs bin_data :
  is_bytes bs → a2b_base64 (b64encode bs) 0 0 0 bin_data = Some (bin_data ++ bs).
Proof.
  revert bin_data. induction bs as [bs IH] using (induction_ltof1 _ length).
  unfold ltof in IH. intros bin_data Hbs.
  destruct bs as [|b0 [|b1 [|b2 bs]]]; cbn [b64encode].
  - by rewrite app_nil_r.
  - apply Forall_cons in Hbs as [H0 _].
    pose proof (pair_ok_bytes b0 0 H0 eq_refl) as P0. split_pair_ok P0.
    rewrite a2b_base64_two_pads by done. congruence.
  - apply Forall_cons in Hbs as [H0 [H1 _]%Forall_cons].
    pose proof (pair_ok_bytes b0 b1 H0 H1) as P0. split_pair_ok P0.
    pose proof (pair_ok_bytes b1 0 H1 eq_refl) as P1. split_pair_ok P1.
    rewrite a2b_base64_one_pad by done. congruence.
  - apply Forall_cons in Hbs as [H0 [H1 [H2 Hbs]%Forall_cons]%Forall_cons].
    pose proof (pair_ok_bytes b0 b1 H0 H1) as P0. split_pair_ok P0.
    pose proof (pair_ok_bytes b1 b2 H1 H2) as P1. split_pair_ok P1.
    pose proof (pair_ok_bytes b2 0 H2 eq_refl) as P2. split_pair_ok P2.
    cbn [app]. rewrite a2b_base64_quad by done.
    rewrite IH by (simpl; lia || done).
    rewrite <- !app_assoc. cbn [app]. congruence.
Qed.

Lemma b64decode_b64encode bs : is_bytes bs → b64decode (b64encode bs) = Some bs.
Proof.
  intros Hbs. unfold b64decode.
  assert (forallb (λ c, c <? 0x80) (b64encode bs) = true) as ->.
  { apply forallb_forall. intros c Hc%list_elem_of_In.
    pose proof (b64encode_ascii bs) as Ha. unfold ascii in Ha.
    rewrite Forall_forall in Ha. apply N.ltb_lt. by apply Ha. }
  by rewrite a2b_base64_b64encode.
Qed.

(** *** Escapes *)

Definition hex_digit_ok (d : N) : bool :=
  match hex_value (hex_digit d) with Some e => e =? d | None => false end.

Lemma hex_value_digit d : d < 16 → hex_value (hex_digit d) = Some d.
Proof.
  intros Hd. assert (hex_digit_ok d = true) as Hok.
  { apply (forall_below hex_digit_ok 16); [by vm_compute | done]. }
  unfold hex_digit_ok in Hok. destruct (hex_value (hex_digit d)); [|done].
  by apply N.eqb_eq in Hok as ->.
Qed.

Lemma decode_uXXXX_hex4 n rest :
  n < 0x10000 → decode_uXXXX (hex4 n ++ rest) = Some (n, rest).
Proof.
  intros Hn. unfold hex4. cbn [app decode_uXXXX].
  rewrite !hex_value_digit by (by apply N.mod_lt). do 2 f_equal.
  zify. Z.to_euclidean_division_equations. lia.
Qed.

Lemma lor_shiftl_add h l k : l < 2 ^ k → N.lor (N.shiftl h k) l = h * 2 ^ k + l.
Proof.
  intros Hl. rewrite <- N.shiftl_mul_pow2.
  assert (N.land (N.shiftl h k) l = 0) as Hland.
  { apply N.bits_inj. intros i. rewrite N.land_spec, N.bits_0.
    destruct (N.lt_ge_cases i k) as [Hi|Hi].
    - by rewrite N.shiftl_spec_low.
    - rewrite <- (N.mod_small l (2 ^ k)) by done.
      rewrite N.mod_pow2_bits_high by done. apply andb_false_r. }
  rewrite <- N.lxor_lor by done. by rewrite N.add_nocarry_lxor.
Qed.

(** The two halves of the pair [json.dumps] writes for a character beyond the
    basic plane, for its offset [h * 1024 + l]. *)
Definition high_half (h : N) : N := N.lor 0xd800 (N.land h 0x3ff).
Definition low_half (l : N) : N := N.lor 0xdc00 l.

Definition halves_ok (x : N) : bool :=
  (high_half x <? 0x10000) && is_high_surrogate (high_half x) &&
  negb (is_low_surrogate (high_half x)) && (high_half x - 0xd800 =? x) &&
  (low_half x <? 0x10000) && is_low_surrogate (low_half x) &&
  (low_half x - 0xdc00 =? x).

Lemma halves_ok_all x : x < 1024 → halves_ok x = true.
Proof. apply (forall_below halves_ok 1024). by vm_compute. Qed.

Lemma surrogate_pair c :
  0x10000 ≤ c → c < 0x110000 →
  let n := c - 0x10000 in
  let s1 := N.lor 0xd800 (N.land (N.shiftr n 10) 0x3ff) in
  let s2 := N.lor 0xdc00 (N.land n 0x3ff) in
  s1 < 0x10000 ∧ s2 < 0x10000 ∧
  is_high_surrogate s1 = true ∧ is_low_surrogate s1 = false ∧
  is_low_surrogate s2 = true ∧ join_surrogates s1 s2 = c.
Proof.
  intros Hlo Hhi n s1 s2.
  assert (N.shiftr n 10 = n / 1024) as Hh by apply N.shiftr_div_pow2.
  assert (N.land n 0x3ff = n mod 1024) as Hl by apply (N.land_ones n 10).
  assert (n / 1024 < 1024) as Hhb by (unfold n; zify; Z.to_euclidean_division_equations; lia).
  assert (n mod 1024 < 1024) as Hlb by (by apply N.mod_lt).
  pose proof (halves_ok_all _ Hhb) as P1. pose proof (halves_ok_all _ Hlb) as P2.
  unfold halves_ok in P1, P2.
  repeat (let H' := fresh "Hok" in apply andb_true_iff in P1 as [P1 H']).
  repeat (let H' := fresh "Hok" in apply andb_true_iff in P2 as [P2 H']).
  unfold s1, s2. rewrite Hh, Hl. fold (high_half (n / 1024)) (low_half (n mod 1024)).
  split_and!; try done.
  - by apply N.ltb_lt.
  - by apply N.ltb_lt.
  - by apply negb_true_iff.
  - unfold join_surrogates.
    match goal with H : (high_half _ - _ =? _) = true |- _ => apply N.eqb_eq in H as -> end.
    match goal with H : (low_half _ - _ =? _) = true |- _ => apply N.eqb_eq in H as -> end.
    rewrite (lor_shiftl_add _ _ 10) by done. change (2 ^ 10) with 1024.
    unfold n. zify. Z.to_euclidean_division_equations. lia.
Qed.

(** What follows a high surrogate written as [\uXXXX] does not make a pair
    with it. *)
Definition harmless (rest : str) : Prop :=
  match lookahead rest with
  | NoEscape => True
  | BadEscape => False
  | Escape uni2 _ => is_low_surrogate uni2 = false
  end.

Lemma lookahead_u_escape n rest :
  n < 0x10000 → lookahead (u_escape n ++ rest) = Escape n rest.
Proof.
  intros Hn. unfold u_escape. rewrite <- app_assoc. cbn [app lookahead].
  change ((92 =? 92) && (117 =? 117)) with true. cbn iota.
  by rewrite decode_uXXXX_hex4.
Qed.

Lemma lookahead_other c rest : c ≠ 92 → lookahead (c :: rest) = NoEscape.
Proof.
  intros Hc. destruct rest as [|u rest]; [done|]. cbn [lookahead].
  by rewrite (proj2 (N.eqb_neq c 92)).
Qed.

Lemma lookahead_short x rest : x ≠ 117 → lookahead (92 :: x :: rest) = NoEscape.
Proof.
  intros Hx. cbn [lookahead]. rewrite (proj2 (N.eqb_neq x 117)) by done.
  by rewrite andb_false_r.
Qed.

Lemma harmless_quote tail : harmless (34 :: tail).
Proof. unfold harmless. by rewrite lookahead_other. Qed.

Lemma harmless_escape_char c rest :
  is_code_point c = true → is_low_surrogate c = false → harmless (escape_char c ++ rest).
Proof.
  intros Hc Hlow. unfold harmless, escape_char.
  destruct (N.eqb_spec c 92); [cbn [app]; by rewrite lookahead_short|].
  destruct (N.eqb_spec c 34); [cbn [app]; by rewrite lookahead_short|].
  destruct (N.eqb_spec c 8); [cbn [app]; by rewrite lookahead_short|].
  destruct (N.eqb_spec c 12); [cbn [app]; by rewrite lookahead_short|].
  destruct (N.eqb_spec c 10); [cbn [app]; by rewrite lookahead_short|].
  destruct (N.eqb_spec c 13); [cbn [app]; by rewrite lookahead_short|].
  destruct (N.eqb_spec c 9); [cbn [app]; by rewrite lookahead_short|].
  destruct (andb _ _); [cbn [app]; by rewrite lookahead_other|].
  destruct (N.ltb_spec c 0x10000) as [Hlt|Hge].
  - by rewrite lookahead_u_escape.
  - apply N.ltb_lt in Hc.
    destruct (surrogate_pair c Hge Hc) as (H1 & H2 & Hh1 & Hl1 & Hl2 & Hjoin).
    cbv zeta. rewrite <- app_assoc, lookahead_u_escape by done. done.
Qed.

Lemma scanstring_plain fuel c rest :
  c ≠ 34 → c ≠ 92 → 0x20 ≤ c →
  scanstring (S fuel) (c :: rest) = cons_char c (scanstring fuel rest).
Proof.
  intros H34 H92 Hc. cbn [scanstring].
  rewrite (proj2 (N.eqb_neq c 34)), (proj2 (N.eqb_neq c 92)) by done.
  by rewrite (proj2 (N.ltb_ge c 0x20)).
Qed.

Lemma scanstring_short fuel esc char rest :
  esc ≠ 117 → backslash esc = Some char →
  scanstring (S fuel) (92 :: esc :: rest) = cons_char char (scanstring fuel rest).
Proof.
  intros Hu Hb. cbn [scanstring]. change (92 =? 34) with false. change (92 =? 92) with true.
  cbn iota. by rewrite (proj2 (N.eqb_neq esc 117)), Hb.
Qed.

Lemma scanstring_u_escape fuel n rest :
  n < 0x10000 → (is_high_surrogate n = true → harmless rest) →
  scanstring (S fuel) (u_escape n ++ rest) = cons_char n (scanstring fuel rest).
Proof.
  intros Hn Hrest. unfold u_escape. rewrite <- app_assoc. cbn [app scanstring].
  change (92 =? 34) with false. change (92 =? 92) with true.
  change (117 =? 117) with true. cbn iota.
  rewrite decode_uXXXX_hex4 by done.
  destruct (is_high_surrogate n); [|done].
  specialize (Hrest eq_refl). unfold harmless in Hrest.
  destruct (lookahead rest) as [| |uni2 rest3]; [done..|]. by rewrite Hrest.
Qed.

Lemma scanstring_escape_char fuel c rest :
  is_code_point c = true → (is_high_surrogate c = true → harmless rest) →
  scanstring (S fuel) (escape_char c ++ rest) = cons_char c (scanstring fuel rest).
Proof.
  intros Hc Hrest. unfold escape_char.
  destruct (N.eqb_spec c 92) as [->|?]; [by apply scanstring_short|].
  destruct (N.eqb_spec c 34) as [->|?]; [by apply scanstring_short|].
  destruct (N.eqb_spec c 8) as [->|?]; [by apply scanstring_short|].
  destruct (N.eqb_spec c 12) as [->|?]; [by apply scanstring_short|].
  destruct (N.eqb_spec c 10) as [->|?]; [by apply scanstring_short|].
  destruct (N.eqb_spec c 13) as [->|?]; [by apply scanstring_short|].
  destruct (N.eqb_spec c 9) as [->|?]; [by apply scanstring_short|].
  destruct (andb _ _) eqn:Hp.
  - apply andb_true_iff in Hp as [Hlo%N.leb_le _]. by apply scanstring_plain.
  - destruct (N.ltb_spec c 0x10000) as [Hlt|Hge].
    + by apply scanstring_u_escape.
    + apply N.ltb_lt in Hc.
      destruct (surrogate_pair c Hge Hc) as (H1 & H2 & Hh1 & Hl1 & Hl2 & Hjoin).
      cbv zeta in *. rewrite <- app_assoc.
      unfold u_escape at 1. rewrite <- app_assoc. cbn [app scanstring].
      change (92 =? 34) with false. change (92 =? 92) with true.
      change (117 =? 117) with true. cbn iota.
      rewrite decode_uXXXX_hex4 by done. rewrite Hh1.
      rewrite lookahead_u_escape by done. by rewrite Hl2, Hjoin.
Qed.

(** No high surrogate of the string is followed by a low one. *)
Fixpoint no_split_pair (s : str) : bool :=
  match s with
  | c :: s' =>
      match s' with
      | c' :: _ => negb (is_high_surrogate c && is_low_surrogate c')
      | [] => true
      end && no_split_pair s'
  | [] => true
  end.

Definition is_str (s : str) : bool := forallb is_code_point s.

Lemma scanstring_roundtrip fuel s tail :
  is_str s = true → no_split_pair s = true → (length s < fuel)%nat →
  scanstring fuel (flat_map escape_char s ++ 34 :: tail) = Some (s, tail).
Proof.
  revert fuel. induction s as [|c s IH]; intros fuel Hstr Hpair Hfuel.
  - destruct fuel; [simpl in Hfuel; lia|]. done.
  - destruct fuel as [|fuel]; [simpl in Hfuel; lia|].
    cbn [is_str forallb] in Hstr. apply andb_true_iff in Hstr as [Hc Hstr].
    cbn [no_split_pair] in Hpair. apply andb_true_iff in Hpair as [Hadj Hpair].
    cbn [flat_map]. rewrite <- app_assoc.
    rewrite scanstring_escape_char; [|done|].
    + rewrite IH; [done..|]. simpl in Hfuel. lia.
    + intros Hhigh. destruct s as [|c' s]; [apply harmless_quote|].
      cbn [flat_map]. rewrite <- app_assoc.
      cbn [is_str forallb] in Hstr. apply andb_true_iff in Hstr as [Hc' _].
      apply harmless_escape_char; [done|].
      rewrite Hhigh in Hadj. by destruct (is_low_surrogate c').
Qed.

(** *** Objects *)

Lemma escape_char_length c : (1 ≤ length (escape_char c))%nat.
Proof.
  unfold escape_char. repeat (destruct (_ =? _); [simpl; lia|]).
  destruct (andb _ _); [simpl; lia|]. destruct (_ <? _); simpl; lia.
Qed.

Lemma escaped_length s : (length s ≤ length (flat_map escape_char s))%nat.
Proof.
  induction s as [|c s IH]; simpl; [done|]. rewrite length_app.
  pose proof (escape_char_length c). lia.
Qed.

(** An item of the text without its first quote, and the items from one on
    to the closing brace. *)
Definition item_tail (kv : str * str) (rest : str) : str :=
  flat_map escape_char kv.1 ++ 34 :: 58 :: 32 :: 34 :: flat_map escape_char kv.2 ++ 34 :: rest.

Fixpoint members_from (kv : str * str) (d : environ) (tail : str) : str :=
  item_tail kv
    match d with
    | [] => 125 :: tail
    | kv' :: d' => 44 :: 32 :: 34 :: members_from kv' d' tail
    end.

Lemma dumps_item_tail kv rest : dumps_item kv ++ rest = 34 :: item_tail kv rest.
Proof.
  unfold dumps_item, item_tail, encode_basestring_ascii.
  by rewrite <- !app_assoc.
Qed.

Lemma dumps_items_members kv d tail :
  dumps_items (kv :: d) ++ 125 :: tail = 34 :: members_from kv d tail.
Proof.
  revert kv. induction d as [|kv' d IH]; intros kv.
  - cbn [dumps_items members_from]. apply dumps_item_tail.
  - cbn [dumps_items members_from] in *. rewrite <- !app_assoc, dumps_item_tail.
    cbn [app]. by rewrite IH.
Qed.

Definition item_ok (kv : str * str) : bool :=
  is_str kv.1 && no_split_pair kv.1 && is_str kv.2 && no_split_pair kv.2.

(** A dict of strings in which no string has a high surrogate followed by a
    low one. *)
Definition well_formed (d : environ) : bool := forallb item_ok d.

Lemma members_from_length kv d tail : (length d < length (members_from kv d tail))%nat.
Proof.
  revert kv. induction d as [|kv' d IH]; intros kv; cbn [members_from];
    unfold item_tail; rewrite length_app; simpl; rewrite length_app; simpl; [lia|].
  specialize (IH kv'). lia.
Qed.

Lemma scan_members_roundtrip fuel kv d tail :
  item_ok kv = true → well_formed d = true → (length d < fuel)%nat →
  scan_members fuel (members_from kv d tail) = Some (kv :: d, tail).
Proof.
  revert fuel kv. induction d as [|kv' d IH]; intros fuel [k v] Hkv Hd Hfuel;
    (destruct fuel as [|fuel]; [simpl in Hfuel; lia|]);
    unfold item_ok in Hkv; cbn [fst snd] in Hkv;
    apply andb_true_iff in Hkv as [[[Hk1 Hk2]%andb_true_iff Hv1]%andb_true_iff Hv2];
    cbn [members_from scan_members]; unfold item_tail; cbn [fst snd].
  - rewrite scanstring_roundtrip; [|done..|].
    2:{ rewrite length_app. pose proof (escaped_length k). simpl. lia. }
    cbn [skip_ws is_ws N.eqb Pos.eqb orb]. cbn iota.
    rewrite scanstring_roundtrip; [|done..|].
    2:{ rewrite length_app. pose proof (escaped_length v). simpl. lia. }
    done.
  - cbn [well_formed forallb] in Hd. apply andb_true_iff in Hd as [Hkv' Hd].
    rewrite scanstring_roundtrip; [|done..|].
    2:{ rewrite length_app. pose proof (escaped_length k). simpl. lia. }
    cbn [skip_ws is_ws N.eqb Pos.eqb orb]. cbn iota.
    rewrite scanstring_roundtrip; [|done..|].
    2:{ rewrite length_app. pose proof (escaped_length v). simpl. lia. }
    cbn [skip_ws is_ws N.eqb Pos.eqb orb]. cbn iota.
    rewrite IH; [done..|]. simpl in Hfuel. lia.
Qed.

Lemma dict_set_fresh (d : environ) k v : k ∉ d.*1 → dict_set d k v = d ++ [(k, v)].
Proof.
  induction d as [|[k' v'] d IH]; csimpl; intros Hin; [done|].
  apply not_elem_of_cons in Hin as [Hne Hin].
  rewrite bool_decide_eq_false_2 by done. by rewrite IH.
Qed.

Lemma dict_of_pairs_fold (pairs acc : environ) :
  NoDup (acc ++ pairs).*1 →
  fold_left (λ d kv, dict_set d kv.1 kv.2) pairs acc = acc ++ pairs.
Proof.
  revert acc. induction pairs as [|[k v] pairs IH]; intros acc Hnd; csimpl.
  - by rewrite app_nil_r.
  - rewrite dict_set_fresh.
    + rewrite IH; [by rewrite <- app_assoc|]. by rewrite <- app_assoc.
    + rewrite fmap_app in Hnd. apply NoDup_app in Hnd as (_ & Hd & _).
      intros Hin. apply (Hd _ Hin). csimpl. apply elem_of_cons; by left.
Qed.

Lemma dict_of_pairs_NoDup (pairs : environ) : NoDup pairs.*1 → dict_of_pairs pairs = pairs.
Proof. intros. unfold dict_of_pairs. by rewrite dict_of_pairs_fold. Qed.

Lemma json_loads_json_dumps (d : environ) :
  NoDup d.*1 → well_formed d = true → json_loads (json_dumps d) = Some d.
Proof.
  intros Hnd Hd. unfold json_dumps, json_loads. destruct d as [|kv d]; [done|].
  cbn [app]. change (dumps_items (kv :: d) ++ [125])
    with (dumps_items (kv :: d) ++ 125 :: []).
  rewrite dumps_items_members.
  cbn [skip_ws is_ws N.eqb Pos.eqb orb]. cbn iota.
  cbn [well_formed forallb] in Hd. apply andb_true_iff in Hd as [Hkv Hd].
  rewrite scan_members_roundtrip; [|done..|apply members_from_length].
  cbn [skip_ws]. by rewrite dict_of_pairs_NoDup.
Qed.

(** C10, as amended. For every dict of strings in which no string has a
    high surrogate immediately followed by a low surrogate, encoding
    succeeds and decoding the result gives the dict back. *)
Theorem environ_backup_roundtrip (d : environ) :
  NoDup d.*1 → well_formed d = true →
  ∃ e, encode_environ_backup d = Some e ∧ decode_environ_backup e = Some d.
Proof.
  intros Hnd Hd. exists (b64encode (json_dumps d)).
  pose proof (json_dumps_ascii d) as Hj.
  unfold encode_environ_backup, decode_environ_backup.
  rewrite (utf8_encode_ascii _ Hj), (utf8_decode_ascii _ (b64encode_ascii _)).
  split; [done|].
  rewrite b64decode_b64encode.
  - by rewrite (utf8_decode_ascii _ Hj), json_loads_json_dumps.
  - eapply Forall_impl; [exact Hj|]. simpl. lia.
Qed.

(** [PATH] and [HOME] with their values, and a variable whose value has an
    accent, a character beyond the basic plane, a quote, a newline and a
    lone low surrogate, as [os.environ] gives for a byte that is not
    UTF-8. *)
Definition sample_environ : environ :=
  [([80; 65; 84; 72], [47; 117; 115; 114; 47; 98; 105; 110; 58; 47; 98; 105; 110]);
   ([72; 79; 77; 69], [47; 114; 111; 111; 116]);
   ([78; 79; 84; 69], [233; 0x1f600; 34; 10; 0xdc80])].

Lemma environ_backup_roundtrip_run :
  ∃ e, encode_environ_backup sample_environ = Some e ∧
       decode_environ_backup e = Some sample_environ.
Proof.
  apply (environ_backup_roundtrip sample_environ).
  - apply (bool_decide_unpack _). vm_compute. exact I.
  - vm_compute. reflexivity.
Defined.

(** C10, as stated, fails: a string may hold a high surrogate followed by a
    low one as two code points; [json.dumps] writes them as two escapes and
    [json.loads] reads the two escapes as one character. *)
Lemma split_pair_not_restored :
  let d : environ := [([97], [0xd83d; 0xde00])] in
  NoDup d.*1 ∧
  forallb (λ kv, is_str kv.1 && is_str kv.2) d = true ∧
  ∃ e, encode_environ_backup d = Some e ∧
       decode_environ_backup e = Some [([97], [0x1f600])] ∧
       decode_environ_backup e ≠ Some d.
Proof.
  split_and!.
  - apply (bool_decide_unpack _). vm_compute. exact I.
  - vm_compute. reflexivity.
  - eexists. split_and!; [vm_compute; reflexivity | vm_compute; reflexivity |].
    vm_compute. discriminate.
Qed.

Close Scope N_scope.

End EnvBackupFacts.

(** * More on the feature graph *)

Module GraphOrder.
Import Toposort.

Lemma elem_of_ordered (data : graph) x : x ∈ ordered data ↔ data !! x = Some ∅.
Proof.
  unfold ordered. rewrite elem_of_dom. unfold is_Some. split.
  - intros [ds [Hx Hds]%map_lookup_filter_Some]. simpl in Hds. by subst.
  - intros Hx. exists ∅. by apply map_lookup_filter_Some.
Qed.

Lemma lookup_remove_ordered o (data : graph) x :
  remove_ordered o data !! x
  = if decide (x ∈ o) then None else (λ ds, ds ∖ o) <$> data !! x.
Proof.
  unfold remove_ordered. rewrite lookup_fmap. case_decide as Hx.
  - rewrite map_lookup_filter_None_2; [done|]. right. intros ds _ Hn. by apply Hn.
  - destruct (data !! x) as [ds|] eqn:Hd.
    + by rewrite (map_lookup_filter_Some_2 _ _ _ ds).
    + rewrite map_lookup_filter_None_2; [done|]. by left.
Qed.

(** An item comes out in a level after the levels that hold what it depends
    on. *)
Lemma levels_deps n (data : graph) ls rest i o x ds :
  levels n data = (ls, rest) → ls !! i = Some o → x ∈ o → data !! x = Some ds →
  ds ⊆ ⋃ take i ls.
Proof.
  revert data ls i ds. induction n as [|n IH]; intros data ls i ds; simpl.
  - by intros [= <- <-].
  - case_decide as Ho; [by intros [= <- <-]|].
    destruct (levels n _) as [ls' rest'] eqn:Hrec. intros [= <- <-] Hi Hx Hds.
    destruct i as [|i]; simpl in Hi.
    + injection Hi as <-. apply elem_of_ordered in Hx. rewrite Hx in Hds.
      injection Hds as <-. set_solver.
    + assert (x ∈ dom (remove_ordered (ordered data) data)) as Hdom.
      { apply ToposortFacts.levels_spec in Hrec as [<- _].
        apply elem_of_union_l, elem_of_union_list. exists o. split; [|done].
        by eapply list_elem_of_lookup_2. }
      apply elem_of_dom in Hdom as [ds' Hds'].
      pose proof Hds' as Hlook. rewrite lookup_remove_ordered in Hlook.
      case_decide as Hxo; [done|]. rewrite Hds in Hlook. injection Hlook as <-.
      specialize (IH _ _ _ _ Hrec Hi Hx Hds'). csimpl.
      intros y Hy. destruct (decide (y ∈ ordered data)); set_solver.
Qed.

(** Dependencies that go round keep every item of the round in the data. *)
Lemma levels_cycle n (data : graph) ls rest (C : list string) :
  (∀ x, x ∈ C → ∃ ds y, data !! x = Some ds ∧ y ∈ ds ∧ y ∈ C) →
  levels n data = (ls, rest) → ∀ x, x ∈ C → x ∈ dom rest.
Proof.
  revert data ls. induction n as [|n IH]; intros data ls Hround; simpl.
  - intros [= <- <-] x Hx. destruct (Hround x Hx) as (ds & y & Hds & _).
    apply elem_of_dom. by eexists.
  - case_decide as Ho.
    + intros [= <- <-] x Hx. destruct (Hround x Hx) as (ds & y & Hds & _).
      apply elem_of_dom. by eexists.
    + destruct (levels n _) as [ls' rest'] eqn:Hrec. intros [= <- <-].
      eapply IH; [|exact Hrec].
      assert (∀ x, x ∈ C → x ∉ ordered data) as Hout.
      { intros x Hx Hin. destruct (Hround x Hx) as (ds & y & Hds & Hy & _).
        apply elem_of_ordered in Hin. rewrite Hin in Hds. injection Hds as <-.
        set_solver. }
      intros x Hx. destruct (Hround x Hx) as (ds & y & Hds & Hy & HyC).
      exists (ds ∖ ordered data), y. rewrite lookup_remove_ordered.
      rewrite decide_False by auto. rewrite Hds. split_and!; [done| |done].
      apply elem_of_difference. split; [done|]. by apply Hout.
Qed.

Lemma lookup_without_self (data : graph) x :
  without_self data !! x = (λ ds, ds ∖ {[x]}) <$> data !! x.
Proof. unfold without_self. rewrite map_lookup_imap. by destruct (data !! x). Qed.

Lemma lookup_with_extra_items (data : graph) x ds :
  data !! x = Some ds → with_extra_items data !! x = Some ds.
Proof. intros Hx. unfold with_extra_items. by apply lookup_union_Some_l. Qed.

(** The items of a round that is not a single item depending on itself make
    the sort fail, and are in what the error reports. *)
Lemma toposort_flatten_cycle (data : graph) (C : list string) x0 :
  x0 ∈ C →
  (∀ x, x ∈ C → ∃ ds y, data !! x = Some ds ∧ y ∈ ds ∧ y ≠ x ∧ y ∈ C) →
  ∃ rest, toposort_flatten data = inl (CircularDependencyError rest) ∧
          ∀ x, x ∈ C → x ∈ dom rest.
Proof.
  intros Hx0 Hround. unfold toposort_flatten, toposort.
  rewrite decide_False.
  2:{ intros ->. destruct (Hround x0 Hx0) as (ds & _ & Hds & _). by rewrite lookup_empty in Hds. }
  destruct (levels _ _) as [ls rest] eqn:Hl.
  assert (∀ x, x ∈ C → x ∈ dom rest) as Hrest.
  { eapply levels_cycle; [|exact Hl]. intros x Hx.
    destruct (Hround x Hx) as (ds & y & Hds & Hy & Hne & HyC).
    exists (ds ∖ {[x]}), y. split_and!; [|set_solver|done].
    apply lookup_with_extra_items. by rewrite lookup_without_self, Hds. }
  rewrite decide_False.
  2:{ intros ->. specialize (Hrest x0 Hx0). set_solver. }
  by exists rest.
Qed.

(** In the names a successful sort returns, what an item depends on comes
    before the item. *)
Lemma toposort_flatten_order (data : graph) names x ds d :
  toposort_flatten data = inr names → data !! x = Some ds → d ∈ ds → d ≠ x →
  ∃ l1 l2 l3, names = l1 ++ d :: l2 ++ x :: l3.
Proof.
  unfold toposort_flatten, toposort. intros Hsort Hx Hd Hne.
  rewrite decide_False in Hsort by (intros ->; by rewrite lookup_empty in Hx).
  destruct (levels _ _) as [ls rest] eqn:Hl. case_decide as Hr; [|done].
  injection Hsort as <-. subst rest.
  set (data1 := with_extra_items (without_self data)) in *.
  assert (data1 !! x = Some (ds ∖ {[x]})) as Hx1.
  { apply lookup_with_extra_items. by rewrite lookup_without_self, Hx. }
  pose proof (ToposortFacts.levels_spec _ _ _ _ Hl) as [Hcover _].
  rewrite dom_empty_L, union_empty_r_L in Hcover.
  assert (x ∈ ⋃ ls) as Hin by (rewrite Hcover; apply elem_of_dom; by eexists).
  apply elem_of_union_list in Hin as (o & Ho & Hxo).
  apply list_elem_of_lookup in Ho as [i Hi].
  pose proof (levels_deps _ _ _ _ _ _ _ _ Hl Hi Hxo Hx1) as Hdeps.
  assert (d ∈ ⋃ take i ls) as Hdi by set_solver.
  apply elem_of_union_list in Hdi as (o' & Ho' & Hdo').
  set (flat := λ l : list (gset string),
         concat ((λ o, Py.sorted String.leb (elements o)) <$> l)).
  assert (d ∈ flat (take i ls)) as Hd1.
  { unfold flat. apply list_elem_of_In, in_concat.
    exists (Py.sorted String.leb (elements o')).
    split; apply list_elem_of_In; [|by apply SortedFacts.sorted_elem, elem_of_elements].
    apply list_elem_of_fmap. by exists o'. }
  assert (x ∈ Py.sorted String.leb (elements o)) as Hx2
    by (by apply SortedFacts.sorted_elem, elem_of_elements).
  apply list_elem_of_split in Hd1 as (l1 & l2 & Hd1).
  apply list_elem_of_split in Hx2 as (m1 & m2 & Hx2).
  exists l1, (l2 ++ m1), (m2 ++ flat (drop (S i) ls)).
  rewrite <- (take_drop_middle ls i o Hi) at 1.
  rewrite fmap_app, concat_app. csimpl. fold (flat (take i ls)) (flat (drop (S i) ls)).
  rewrite Hd1, Hx2. by rewrite <- !app_assoc.
Qed.

End GraphOrder.

Section RegistrationOrder.
Context {W : Type} {env : Collaborators W}.
Implicit Types (f : Feature W) (s : State W) (ef : Py.dict (Feature W)).

Lemma graph_of_lookup_other ef (td : Toposort.graph) name :
  name ∉ Py.dict_keys ef → graph_of ef td !! name = td !! name.
Proof.
  unfold graph_of, Py.dict_keys. revert td.
  induction ef as [|[n f] ef IH]; intros td; csimpl; [done|].
  intros [Hne Hnot]%not_elem_of_cons. rewrite IH by done. by rewrite lookup_insert_ne.
Qed.

Lemma graph_of_lookup ef (td : Toposort.graph) name f :
  NoDup (Py.dict_keys ef) → Py.dict_get ef name = Some f →
  graph_of ef td !! name = Some (dependencies_of f).
Proof.
  unfold Py.dict_keys. revert td. induction ef as [|[n f'] ef IH]; intros td; csimpl; [done|].
  intros [Hn Hnd]%NoDup_cons. rewrite PyFacts.eqb_decide. case_bool_decide as Heq.
  - intros [= ->]. subst n. change (graph_of ((name, f) :: ef) td)
      with (graph_of ef (<[name := dependencies_of f]> td)).
    rewrite graph_of_lookup_other by done. apply lookup_insert_eq.
  - intros Hget. change (graph_of ((n, f') :: ef) td)
      with (graph_of ef (<[n := dependencies_of f']> td)). by apply IH.
Qed.

Lemma merged_graph_grows dependencies (td : Toposort.graph) x ds :
  td !! x = Some ds →
  ∃ ds', merged_graph dependencies td !! x = Some ds' ∧ ds ⊆ ds'.
Proof.
  unfold merged_graph. revert td ds.
  induction dependencies as [|[k deps] dependencies IH]; intros td ds Hds; csimpl.
  - by exists ds.
  - destruct (decide (k = x)) as [->|Hne].
    + edestruct IH as (ds' & Hds' & Hsub); [apply lookup_insert_eq|].
      exists ds'. split; [done|]. rewrite Hds in Hsub. set_solver.
    + eapply IH. by rewrite lookup_insert_ne.
Qed.

Lemma dependencies_of_elem f d : d ∈ f_dependencies f → without_marker d ∈ dependencies_of f.
Proof.
  intros Hd. unfold dependencies_of. apply elem_of_list_to_set, list_elem_of_fmap.
  by exists d.
Qed.

Lemma omap_dict_get_keys {V} (d d' : Py.dict V) :
  NoDup (Py.dict_keys d) → (∀ kv, kv ∈ d' → kv ∈ d) →
  omap (Py.dict_get d) (Py.dict_keys d') = d'.*2.
Proof.
  intros Hnd. unfold Py.dict_keys. induction d' as [|[k v] d' IH]; intros Hsub; csimpl; [done|].
  rewrite (PyFacts.dict_elem_get d k v Hnd) by (apply Hsub, elem_of_cons; by left).
  f_equal. apply IH. intros kv Hkv. apply Hsub, elem_of_cons. by right.
Qed.

Lemma omap_dict_get_perm {V} (d : Py.dict V) (names : list string) :
  NoDup names → NoDup (Py.dict_keys d) → (∀ k, k ∈ Py.dict_keys d → k ∈ names) →
  omap (Py.dict_get d) names ≡ₚ d.*2.
Proof.
  intros Hnames Hkeys Hsub.
  destruct (submseteq_Permutation (Py.dict_keys d) names) as [rest Hperm];
    [by apply NoDup_submseteq|].
  rewrite Hperm, omap_app, (omap_dict_get_keys d d) by done.
  rewrite Hperm in Hnames. apply NoDup_app in Hnames as (_ & Hdisj & _).
  assert (omap (Py.dict_get d) rest = []) as ->; [|by rewrite app_nil_r].
  clear Hperm. induction rest as [|r rest IH]; csimpl; [done|].
  rewrite (proj2 (PyFacts.dict_get_None d r)).
  - apply IH. intros k Hk Hin. apply (Hdisj k Hk). apply elem_of_cons. by right.
  - intros Hin. apply (Hdisj r Hin). apply elem_of_cons. by left.
Qed.

(** What a load that goes through has registered, from the names of the
    sort. *)
Lemma register_features_returns (default : list (Feature W)) s s' :
  register_features default s = Ret tt s' → features s = [] →
  let ef := build_entrypoint_features default in
  let merged := merged_graph (config_dependencies (world s)) (graph_of ef ∅) in
  ∃ names, Toposort.toposort_flatten merged = inr names ∧
           features s' = omap (Py.dict_get ef) names.
Proof.
  intros Hrun Hempty ef merged.
  pose proof (register_features_check default s) as Hcheck. fold ef in Hcheck. simpl in Hcheck.
  destruct (first_missing ef (required_dependencies_of ef)) as [[n d]|];
    [by rewrite Hcheck in Hrun|].
  rewrite merge_dependencies_spec in Hcheck. fold merged in Hcheck.
  unfold bind, call_toposort_flatten in Hcheck.
  destruct (Toposort.toposort_flatten merged) as [e|names] eqn:Hsort;
    [by rewrite Hcheck in Hrun|].
  exists names. split; [done|].
  pose proof (ToposortFacts.toposort_flatten_names _ _ Hsort) as [Hnd _].
  destruct (register_found_ok ef names (log_call (CToposort merged) s) Hnd)
    as (s'' & Hloop & Hfeat & _).
  { apply build_entrypoint_features_keyed. }
  { simpl. rewrite Hempty. by intros ? ?%elem_of_nil. }
  unfold register_found in Hloop. rewrite Hcheck, Hloop in Hrun. injection Hrun as <-.
  rewrite Hfeat. simpl. by rewrite Hempty.
Qed.

Lemma omap_split {V} (d : Py.dict V) (l1 l2 l3 : list string) a b va vb :
  Py.dict_get d a = Some va → Py.dict_get d b = Some vb →
  omap (Py.dict_get d) (l1 ++ a :: l2 ++ b :: l3)
  = omap (Py.dict_get d) l1 ++ va :: omap (Py.dict_get d) l2 ++ vb :: omap (Py.dict_get d) l3.
Proof.
  intros Ha Hb. rewrite omap_app. csimpl. rewrite Ha, omap_app. csimpl. by rewrite Hb.
Qed.

(** X1. A [register_features] that returns, from an empty feature registry,
    has registered every discovered feature once, and each after the
    discovered features it depends on: those it declares, with or without
    the optional marker, and those the [dependencies] mapping of the
    configuration gives it. *)
Theorem register_features_dependencies_first (default : list (Feature W)) (s s' : State W) :
  register_features default s = Ret tt s' → features s = [] →
  let ef := build_entrypoint_features default in
  features s' ≡ₚ ef.*2 ∧
  (∀ f d fd, f ∈ features s' → d ∈ f_dependencies f →
     Py.dict_get ef (without_marker d) = Some fd → f_name fd ≠ f_name f →
     ∃ l1 l2 l3, features s' = l1 ++ fd :: l2 ++ f :: l3) ∧
  (∀ feat deps dep f fd, (feat, deps) ∈ config_dependencies (world s) → dep ∈ deps →
     Py.dict_get ef feat = Some f → Py.dict_get ef dep = Some fd → dep ≠ feat →
     ∃ l1 l2 l3, features s' = l1 ++ fd :: l2 ++ f :: l3).
Proof.
  intros Hrun Hempty ef.
  destruct (register_features_returns default s s' Hrun Hempty) as (names & Hsort & Hfeat).
  fold ef in Hsort, Hfeat.
  set (merged := merged_graph (config_dependencies (world s)) (graph_of ef ∅)) in *.
  pose proof (build_entrypoint_features_NoDup default) as Hkeys. fold ef in Hkeys.
  pose proof (ToposortFacts.toposort_flatten_names _ _ Hsort) as [Hnd Hnames].
  assert (∀ name f, Py.dict_get ef name = Some f →
            ∃ ds, merged !! name = Some ds ∧ dependencies_of f ⊆ ds) as Hgraph.
  { intros name f Hget. apply merged_graph_grows. by apply graph_of_lookup. }
  split_and!.
  - rewrite Hfeat. apply omap_dict_get_perm; [done..|].
    intros k Hk. destruct (Py.dict_get ef k) as [f|] eqn:Hget.
    2:{ by apply PyFacts.dict_get_None in Hget. }
    destruct (Hgraph k f Hget) as (ds & Hds & _). apply Hnames.
    + intros Hnil. by rewrite Hnil, lookup_empty in Hds.
    + rewrite ToposortFacts.dom_with_extra_items, ToposortFacts.dom_without_self.
      apply elem_of_union_l, elem_of_dom. by eexists.
  - intros f d fd Hf Hd Hfd Hne. rewrite Hfeat in Hf.
    apply list_elem_of_omap in Hf as (n & _ & Hget).
    pose proof (build_entrypoint_features_keyed default n f Hget) as Hn.
    pose proof (build_entrypoint_features_keyed default _ fd Hfd) as Hdn.
    destruct (Hgraph n f Hget) as (ds & Hds & Hsub).
    destruct (GraphOrder.toposort_flatten_order merged names n ds (without_marker d))
      as (l1 & l2 & l3 & ->); [done.. | by apply Hsub, dependencies_of_elem | congruence |].
    rewrite Hfeat. by eexists _, _, _; apply omap_split.
  - intros feat deps dep f fd Hentry Hdep Hf Hfd Hne.
    destruct (merged_graph_entry (config_dependencies (world s)) (graph_of ef ∅)
                feat deps dep Hentry Hdep) as (ds & Hds & Hin).
    destruct (GraphOrder.toposort_flatten_order merged names feat ds dep)
      as (l1 & l2 & l3 & ->); [done..|].
    rewrite Hfeat. by eexists _, _, _; apply omap_split.
Qed.

(** X2. When the check passes and the declared dependencies of some
    discovered features go round (each feature of the round depends on
    another feature of the round), [register_features] raises
    [CircularDependencyError], which reports every feature of the round, and
    has only called the sort: no feature is registered. A feature that
    depends on itself alone is no such round. *)
Theorem register_features_cycle (default : list (Feature W)) (s : State W)
    (C : list string) (x0 : string) :
  let ef := build_entrypoint_features default in
  _check_missing_dependencies ef (_prepare_dependencies_data ef).1 s = Ret tt s →
  x0 ∈ C →
  (∀ x, x ∈ C → ∃ f d, Py.dict_get ef x = Some f ∧ d ∈ f_dependencies f ∧
                        without_marker d ≠ x ∧ without_marker d ∈ C) →
  ∃ merged rest,
    register_features default s
    = Raise (CircularDependencyError rest) (log_call (CToposort merged) s) ∧
    ∀ x, x ∈ C → x ∈ dom rest.
Proof.
  intros ef Hpass Hx0 Hround.
  pose proof (build_entrypoint_features_NoDup default) as Hkeys. fold ef in Hkeys.
  pose proof (register_features_check default s) as Hcheck. fold ef in Hcheck. simpl in Hcheck.
  rewrite (prepare_dependencies_spec ef) in Hpass by done. simpl in Hpass.
  rewrite check_missing_dependencies_spec in Hpass.
  destruct (first_missing ef (required_dependencies_of ef)) as [[n d]|]; [done|].
  rewrite merge_dependencies_spec in Hcheck.
  set (merged := merged_graph (config_dependencies (world s)) (graph_of ef ∅)) in *.
  destruct (GraphOrder.toposort_flatten_cycle merged C x0 Hx0) as (rest & Hsort & Hrest).
  { intros x Hx. destruct (Hround x Hx) as (f & d & Hget & Hd & Hne & HC).
    destruct (merged_graph_grows (config_dependencies (world s)) (graph_of ef ∅) x
                (dependencies_of f)) as (ds & Hds & Hsub); [by apply graph_of_lookup|].
    exists ds, (without_marker d). split_and!; [done| |done..].
    by apply Hsub, dependencies_of_elem. }
  exists merged, rest. split; [|done].
  rewrite Hcheck. unfold bind, call_toposort_flatten. by rewrite Hsort.
Qed.

End RegistrationOrder.

(** * More on the check, the data it reads and the start-up *)

Module PyStringFacts.

Lemma substring_all (s : string) : String.substring 0 (String.length s) s = s.
Proof. induction s as [|c s IH]; simpl; [done|]. by rewrite IH. Qed.

Lemma substring_split (s : string) (n : nat) :
  (n ≤ String.length s)%nat →
  String.append (String.substring 0 n s) (String.substring n (String.length s - n) s) = s.
Proof.
  revert n. induction s as [|c s IH]; intros n Hn.
  - simpl in Hn. by replace n with 0%nat by lia.
  - destruct n as [|n].
    + cbn [String.substring String.append]. rewrite Nat.sub_0_r.
      change (String.substring 0 (String.length (String c s)) (String c s) = String c s).
      apply substring_all.
    + simpl in Hn. cbn [String.substring String.length Nat.sub].
      change (String c (String.append (String.substring 0 n s)
                (String.substring n (String.length s - n) s)) = String c s).
      f_equal. apply IH. lia.
Qed.

(** [s.endswith(suffix)] holds exactly of a string that is
    [s[0:len(s) - len(suffix)]] followed by the suffix. *)
Lemma endswith_drop_suffix (s suffix : string) :
  Py.endswith s suffix = true → String.append (Py.drop_suffix s suffix) suffix = s.
Proof.
  unfold Py.endswith, Py.drop_suffix.
  intros [Hlen Heq%String.eqb_eq]%andb_true_iff. apply Nat.leb_le in Hlen.
  set (k := String.length suffix) in *. set (n := String.length s) in *.
  transitivity (String.append (String.substring 0 (n - k) s)
                  (String.substring (n - k) (n - (n - k)) s)).
  - replace (n - (n - k))%nat with k by lia. by rewrite Heq.
  - apply substring_split. lia.
Qed.

End PyStringFacts.

Section StartupFacts.
Context {W : Type} {env : Collaborators W}.
Implicit Types (f : Feature W) (s : State W) (ef : Py.dict (Feature W)).

(** X3. On the discovered features, [_check_missing_dependencies] returns
    exactly when every dependency declared without the optional marker is
    the name of a discovered feature; a missing dependency that carries the
    marker never makes it fail. *)
Theorem check_missing_dependencies_passes_iff (default : list (Feature W)) (s : State W) :
  let ef := build_entrypoint_features default in
  _check_missing_dependencies ef (_prepare_dependencies_data ef).1 s = Ret tt s ↔
  ∀ name f dep, Py.dict_get ef name = Some f → dep ∈ f_dependencies f →
    Py.endswith dep "[optional]" = false → dep ∈ Py.dict_keys ef.
Proof.
  intros ef.
  pose proof (build_entrypoint_features_NoDup default) as Hkeys. fold ef in Hkeys.
  rewrite (prepare_dependencies_spec ef) by done. simpl.
  rewrite check_missing_dependencies_spec.
  destruct (first_missing ef (required_dependencies_of ef)) as [[n d]|] eqn:Hfirst.
  - split; [done|]. intros Hall. exfalso.
    apply first_missing_Some in Hfirst as (reqs & Hin & Hd & Hnot).
    apply required_dependencies_of_elem in Hin as (f & Hin & ->).
    apply required_of_elem in Hd as [Hd Hopt]. apply Hnot.
    apply (Hall n f d); [|done..]. by apply PyFacts.dict_elem_get.
  - split; [|done]. intros _ name f dep Hget Hdep Hopt.
    apply (first_missing_None ef _ name (required_of f) dep Hfirst).
    + apply required_dependencies_of_elem. exists f. split; [|done].
      by apply PyFacts.dict_get_Some_elem.
    + by apply required_of_elem.
Qed.

Lemma dict_get_fmap {A B} (g : A → B) (d : Py.dict A) name :
  Py.dict_get ((λ '(k, v), (k, g v)) <$> d) name = g <$> Py.dict_get d name.
Proof.
  induction d as [|[k v] d IH]; csimpl; [done|]. by destruct (String.eqb k name).
Qed.

(** X4. For a discovered feature, [_prepare_dependencies_data] records under
    its name the dependencies it declares without the optional marker, in
    the order declared, and as edges of the graph all its dependencies with
    the marker taken off: an item that ends with the marker is the edge
    target followed by the marker. *)
Theorem prepare_dependencies_data_of_feature (default : list (Feature W))
    (name : string) (f : Feature W) :
  let ef := build_entrypoint_features default in
  Py.dict_get ef name = Some f →
  Py.dict_get (_prepare_dependencies_data ef).1 name
  = Some (List.filter (λ d, negb (Py.endswith d "[optional]")) (f_dependencies f)) ∧
  (∃ ds, (_prepare_dependencies_data ef).2 !! name = Some ds ∧
         ∀ d, d ∈ ds ↔ ∃ item, item ∈ f_dependencies f ∧ d = without_marker item) ∧
  (∀ item, Py.endswith item "[optional]" = true →
     String.append (without_marker item) "[optional]" = item) ∧
  (∀ item, Py.endswith item "[optional]" = false → without_marker item = item).
Proof.
  intros ef Hget.
  pose proof (build_entrypoint_features_NoDup default) as Hkeys. fold ef in Hkeys.
  rewrite (prepare_dependencies_spec ef) by done. simpl. split_and!.
  - unfold required_dependencies_of.
    rewrite (dict_get_fmap (λ feat, required_of feat)), Hget. done.
  - exists (dependencies_of f). split; [by apply graph_of_lookup|].
    intros d. unfold dependencies_of. rewrite elem_of_list_to_set, list_elem_of_fmap.
    naive_solver.
  - intros item Hopt. unfold without_marker, optional_suffix. rewrite Hopt.
    by apply PyStringFacts.endswith_drop_suffix.
  - intros item Hopt. unfold without_marker, optional_suffix. by rewrite Hopt.
Qed.

(** X7. When the configuration and the caches load and some default or
    entry point feature declares a required dependency that no feature
    provides, [main] raises the [ValueError] of the check having called
    nothing else: no feature is registered, no hook runs, no command is
    executed. *)
Theorem main_aborts_on_missing_dependency
    (args : option (list string)) (s : State W) (name dep : string) (f : Feature W)
    (w1 w2 : W) :
  let ef := build_entrypoint_features default_features in
  config_load (world s) = (None, w1) →
  register_default_caches w1 = (None, w2) →
  Py.dict_get ef name = Some f →
  dep ∈ f_dependencies f →
  Py.endswith dep "[optional]" = false →
  dep ∉ Py.dict_keys ef →
  ∃ name' dep',
    main args s
    = Raise (ValueError (missing_dependency_message name' dep'))
        (set_world w2 (log_call CRegisterDefaultCaches (set_world w1 (log_call CConfigLoad s)))).
Proof.
  intros ef Hload Hcaches Hget Hdep Hreq Hmiss.
  set (s2 := set_world w2 (log_call CRegisterDefaultCaches (set_world w1 (log_call CConfigLoad s)))).
  pose proof (register_features_check default_features s2) as Hrun. fold ef in Hrun.
  simpl in Hrun.
  destruct (first_missing ef (required_dependencies_of ef)) as [[name' dep']|] eqn:Hfirst.
  - exists name', dep'. unfold main, bind, call_effect. simpl.
    rewrite Hload. simpl. rewrite Hcaches. fold s2. by rewrite Hrun.
  - exfalso. apply Hmiss.
    apply (first_missing_None ef _ name (required_of f) dep Hfirst).
    + apply required_dependencies_of_elem. exists f. split; [|done].
      by apply PyFacts.dict_get_Some_elem.
    + by apply required_of_elem.
Qed.

End StartupFacts.

(** * More on the command line *)

Section CommandBounds.
Context {W : Type} {env : Collaborators W}.
Implicit Types (s : State W).

Definition is_restart (e : option Exn) : bool :=
  match e with Some (RestartWithArgs _) => true | _ => false end.

Definition is_execute (c : Call) : bool :=
  match c with CExecuteCommand _ _ => true | _ => false end.

(** X5. When the command line selects a registered command and its
    execution does not raise [RestartWithArgs], [handle_command_line]
    executes it once, with the parsed arguments in [config.args] and the
    unknown ones in [config.unknown_args]: the outcome is that of this
    execution, another exception of it goes through. *)
Theorem command_without_restart_runs_once
    (args : option (list string)) (s : State W)
    (parsed_args : ParsedArgs) (unknown_args : list string) (name : string)
    (command : Command) :
  parse_known_args (commands s) args = inr (parsed_args, unknown_args) →
  selected_command parsed_args = Some name →
  List.find (λ o, String.eqb (c_name o) name) (commands s) = Some command →
  let first := execute_command command (Some parsed_args) unknown_args (world s) in
  is_restart first.1 = false →
  let o := handle_command_line args s in
  raised o = first.1 ∧
  world (final_state o) = first.2 ∧
  config_args (final_state o) = Some parsed_args ∧
  config_unknown_args (final_state o) = unknown_args ∧
  calls (final_state o) = calls s ++ [CExecuteCommand (c_name command) (Some parsed_args)].
Proof.
  intros Hparse Hsel Hfind first Hfirst o. subst o.
  rewrite (handle_command_line_selected args s parsed_args unknown_args name command)
    by done.
  unfold try_restart, run_execute_command, call_effect, bind, modify. simpl.
  fold first. destruct first as [[e|] w1]; simpl in *; [|done].
  by destruct e.
Qed.

(** X6. Whatever the command line and the commands, [handle_command_line]
    makes at most two calls: it prints the help, or it executes one
    registered command, once or twice, and no other; it never executes a
    command a third time. *)
Theorem handle_command_line_calls (args : option (list string)) (s : State W) :
  ∃ cs, calls (final_state (handle_command_line args s)) = calls s ++ cs ∧
    (cs = [] ∨ cs = [CPrintHelp] ∨
     ∃ command parsed_args, command ∈ commands s ∧
       pa_command parsed_args = Some (c_name command) ∧
       (cs = [CExecuteCommand (c_name command) (Some parsed_args)] ∨
        ∃ restart_args,
          cs = [CExecuteCommand (c_name command) (Some parsed_args);
                CExecuteCommand (c_name command) (Some restart_args)])).
Proof.
  destruct (parse_known_args (commands s) args) as [e|[parsed_args unknown_args]] eqn:Hparse.
  { exists []. split; [|by left].
    unfold handle_command_line, bind, registry_all, raise. simpl. rewrite Hparse. simpl.
    by rewrite app_nil_r. }
  destruct (selected_command parsed_args) as [name|] eqn:Hsel.
  2:{ exists [CPrintHelp]. split; [|by right; left].
      unfold handle_command_line, bind, registry_all, modify. simpl. rewrite Hparse, Hsel.
      done. }
  destruct (List.find (λ o, String.eqb (c_name o) name) (commands s)) as [command|] eqn:Hfind.
  2:{ exists []. split; [|by left].
      unfold handle_command_line, bind, registry_all, modify, registry_get. simpl.
      rewrite Hparse, Hsel. simpl. rewrite Hfind. simpl. by rewrite app_nil_r. }
  rewrite (handle_command_line_selected args s parsed_args unknown_args name command)
    by done.
  apply find_some in Hfind as [Hin Hname%String.eqb_eq].
  assert (pa_command parsed_args = Some (c_name command)) as Hcmd.
  { rewrite Hname. unfold selected_command in Hsel.
    destruct (pa_command parsed_args) as [[|c n]|]; simpl in Hsel; congruence. }
  unfold try_restart, run_execute_command, call_effect, bind, modify. simpl.
  destruct (execute_command command (Some parsed_args) unknown_args (world s))
    as [[e|] w1]; simpl.
  2:{ eexists. split; [done|]. right; right. exists command, parsed_args.
      split_and!; [by apply list_elem_of_In|done|by left]. }
  destruct e as [?|?|?|?|restart_args|?|?]; simpl;
    try (eexists; split; [done|]; right; right; exists command, parsed_args;
         split_and!; [by apply list_elem_of_In|done|by left]).
  destruct (execute_command command (Some restart_args) unknown_args w1)
    as [[e2|] w2]; simpl; rewrite <- app_assoc;
    (eexists; split; [done|]; right; right; exists command, parsed_args;
     split_and!; [by apply list_elem_of_In|done|right; by exists restart_args]).
Qed.

End CommandBounds.

(** * Failures while the features load *)

Section LoadFailures.
Context {W : Type} {env : Collaborators W}.
Implicit Types (s : State W).

Lemma for_each_fmap {S A B} (g : A → B) (l : list A) (body : B → M S unit) st :
  for_each (g <$> l) body st = for_each l (λ x, body (g x)) st.
Proof.
  revert st. induction l as [|x l IH]; intros st; [done|].
  rewrite fmap_cons. cbn [for_each]. unfold bind.
  destruct (body (g x) st); [apply IH|done].
Qed.

Lemma bind_bind_raise {S A B C} (m1 : M S A) (m2 : M S B) (k : B → M S C) st e st' :
  bind m1 (λ _, m2) st = Raise e st' → bind m1 (λ _, bind m2 k) st = Raise e st'.
Proof.
  unfold bind. destruct (m1 st) as [a st1|]; simpl; [|by intros [= -> ->]].
  destruct (m2 st1); [done | by intros [= -> ->]].
Qed.

(** The first hook that raises: the ones before it have run and returned,
    the calls made are theirs and its own. *)
Lemma for_each_call_effect_first (l : list (Call * Effect W)) s e :
  (run_hooks (l.*2) (world s)).1 = Some e →
  ∃ k c h, l !! k = Some (c, h) ∧
    (run_hooks (take k l).*2 (world s)).1 = None ∧
    (h (run_hooks (take k l).*2 (world s)).2).1 = Some e ∧
    for_each l (λ x, call_effect x.1 x.2) s
    = Raise e (set_world (h (run_hooks (take k l).*2 (world s)).2).2
                 (add_calls (take (S k) l).*1 s)).
Proof.
  revert s. induction l as [|[c h] l IH]; intros s; csimpl; [done|].
  unfold bind, call_effect. simpl.
  destruct (h (world s)) as [[e'|] w'] eqn:Hh; simpl.
  - intros [= ->]. exists 0, c, h. csimpl. rewrite Hh. simpl. by split_and!.
  - intros Hraise.
    destruct (IH (set_world w' (log_call c s)) Hraise) as (k & c' & h' & Hk & Hnone & He & Hrun).
    exists (S k), c', h'. csimpl. rewrite Hh. simpl in *.
    split_and!; try done. etrans; [exact Hrun|]. by rewrite add_calls_set_world.
Qed.

(** X8. When a [before_load] or [configure] hook of a registered feature
    raises, [load_registered_features] raises that exception at once. The
    hooks are called in order, [before_load] of every feature and then
    [configure] of every feature, up to the first one that raises: the
    calls made are those of the hooks before it, which have returned, and
    its own, and no hook after it is called. The world is the one the
    failing hook leaves, and nothing is registered: the registries are as
    they were. *)
Theorem load_aborts_when_hook_raises (s : State W) (e : Exn) :
  let hooks := ((λ f, f_before_load f) <$> features s) ++
               ((λ f, f_configure f) <$> features s) in
  let hook_calls := ((λ f, CBeforeLoad (f_name f)) <$> features s) ++
                    ((λ f, CConfigure (f_name f)) <$> features s) in
  (run_hooks hooks (world s)).1 = Some e →
  ∃ k h,
    hooks !! k = Some h ∧
    (run_hooks (take k hooks) (world s)).1 = None ∧
    (h (run_hooks (take k hooks) (world s)).2).1 = Some e ∧
    load_registered_features s
    = Raise e (set_world (h (run_hooks (take k hooks) (world s)).2).2
                 (add_calls (take (S k) hook_calls) s)).
Proof.
  intros hooks hook_calls Hraise.
  set (l := ((λ f, (CBeforeLoad (f_name f), f_before_load f)) <$> features s) ++
            ((λ f, (CConfigure (f_name f), f_configure f)) <$> features s)).
  assert (l.*2 = hooks) as Hhooks.
  { unfold l, hooks. rewrite fmap_app, <- !list_fmap_compose. done. }
  assert (l.*1 = hook_calls) as Hcalls.
  { unfold l, hook_calls. rewrite fmap_app, <- !list_fmap_compose. done. }
  rewrite <- Hhooks in Hraise.
  destruct (for_each_call_effect_first l s e Hraise) as (k & c & h & Hk & Hnone & He & Hrun).
  exists k, h. rewrite <- Hhooks, <- Hcalls, <- !fmap_take.
  split_and!; [|done|done|].
  - rewrite list_lookup_fmap. exact (f_equal (fmap snd) Hk).
  - unfold load_registered_features. unfold bind at 1, registry_all. simpl.
    apply bind_bind_raise. rewrite <- Hrun. unfold l.
    rewrite for_each_app. unfold bind. rewrite for_each_fmap. simpl.
    destruct (for_each (features s) _ s) as [[] s1|]; [|done].
    by rewrite for_each_fmap.
Qed.

(** X9. [register_objects] collects the objects of all the features in
    one list and registers them in that order into the one registry it is
    given. It returns exactly when the names of the collected objects are
    distinct and none is the name of an object of the registry; the registry
    then holds its former objects followed by the collected ones, one
    registration was asked for each of them, in order, and nothing else has
    changed. Two features that give an object of the same name to one
    registry make it raise, with the objects before the clash registered. *)
Theorem register_objects_returns_iff {A} (r : Registry W A) `{!RegistryLaws r}
    (features_list : list (Feature W)) (objects_getter : Feature W → W → list A)
    (s : State W) :
  let objs := flat_map (λ f, objects_getter f (world s)) features_list in
  let names := obj_name r <$> objs in
  let registrations := (λ o, CRegister (rid r) (obj_name r o)) <$> objs in
  ((∃ s', register_objects features_list objects_getter r s = Ret tt s') ↔
   NoDup names ∧ ∀ n, n ∈ names → n ∉ obj_name r <$> objects r s) ∧
  (∀ s', register_objects features_list objects_getter r s = Ret tt s' →
     s' = set_objects r (objects r s ++ objs) (add_calls registrations s)) ∧
  (∀ e s', register_objects features_list objects_getter r s = Raise e s' →
     ∃ k k', s' = set_objects r (objects r s ++ take k objs)
                    (add_calls (take k' registrations) s)).
Proof.
  intros objs names registrations. split; [|split].
  - unfold register_objects, bind, get.
    rewrite fold_left_extend. simpl. fold objs. subst names. clear registrations.
    clearbody objs. revert s. induction objs as [|x objs IH]; intros s; csimpl.
    + split; [|by eexists]. intros _. split; [constructor|]. by intros n Hn%elem_of_nil.
    + unfold bind, registry_register. rewrite objects_log_call.
      case_bool_decide as Hx.
      * split; [by intros [s' ?]|]. intros [_ Hfresh]. exfalso.
        by apply (Hfresh (obj_name r x)); [left|].
      * rewrite IH, objects_set_objects, NoDup_cons. split.
        -- intros [Hnd Hfresh]. split_and!.
           ++ intros Hin. apply (Hfresh _ Hin). rewrite fmap_app. set_solver.
           ++ done.
           ++ intros n [->|Hn]%elem_of_cons; [done|].
              intros Hin. apply (Hfresh _ Hn). rewrite fmap_app. set_solver.
        -- intros [[Hnx Hnd] Hfresh]. split; [done|]. intros n Hn.
           rewrite fmap_app. csimpl. rewrite elem_of_app, list_elem_of_singleton.
           intros [Hin | ->]; [|done]. apply (Hfresh n); [by right|done].
  - intros s' Hrun.
    pose proof (register_objects_post r features_list objects_getter s) as Hpost.
    cbv zeta in Hpost. unfold post in Hpost. by rewrite Hrun in Hpost.
  - intros e s' Hrun.
    pose proof (register_objects_post r features_list objects_getter s) as Hpost.
    cbv zeta in Hpost. unfold post in Hpost. by rewrite Hrun in Hpost.
Qed.

End LoadFailures.

(** * Runs of the start-up, the command line and the load *)

Section MoreRuns.
Import Example.

(** Two features that depend on each other, one of them optionally. *)
Definition ping : Feature World := feature "ping" ["pong"] quiet [] [] [].
Definition pong : Feature World := feature "pong" ["ping[optional]"] quiet [] [] [].

(** A feature whose [configure] fails. *)
Definition failing : Feature World :=
  feature "failing" [] (λ w, (Some (OtherError "boom"), w)) [] [] [].

(** An installation with a feature that requires one nobody provides, and
    commands that run without asking for a restart. *)
Definition calm : Collaborators World := {|
  default_features := [core; broken];
  entry_point_features := [];
  config_dependencies := w_dependencies;
  config_load := quiet;
  register_default_caches := quiet;
  parse_known_args := λ _ args,
    inr ({| pa_command := match args with Some (name :: _) => Some name | _ => None end;
            pa_verbose := false; pa_very_verbose := false; pa_silent := false;
            pa_options := [] |}, []);
  execute_command := λ _ _ _, quiet;
  context_exceptions := w_exceptions
|}.

Lemma register_features_dependencies_first_run :
  let s' := final_state (register_features default_features (start plain)) in
  features s' ≡ₚ (build_entrypoint_features default_features).*2 ∧
  (∃ l1 l2 l3, features s' = l1 ++ core :: l2 ++ docker :: l3) ∧
  (∃ l1 l2 l3, features s' = l1 ++ docker :: l2 ++ shell :: l3).
Proof.
  intros s'.
  assert (register_features default_features (start plain) = Ret tt s') as Hrun
    by (vm_compute; reflexivity).
  destruct (register_features_dependencies_first default_features (start plain) s'
              Hrun eq_refl) as (Hperm & Hord & _).
  split; [exact Hperm|]. split.
  - apply (Hord docker "core" core).
    + apply list_elem_of_In. vm_compute. right; left; reflexivity.
    + apply (bool_decide_unpack _). vm_compute. exact I.
    + reflexivity.
    + discriminate.
  - apply (Hord shell "docker[optional]" docker).
    + apply list_elem_of_In. vm_compute. right; right; left; reflexivity.
    + apply (bool_decide_unpack _). vm_compute. exact I.
    + reflexivity.
    + discriminate.
Defined.

Lemma register_features_cycle_run :
  ∃ merged rest,
    register_features [ping; pong] (start plain)
    = Raise (CircularDependencyError rest) (log_call (CToposort merged) (start plain)) ∧
    "ping" ∈ dom rest ∧ "pong" ∈ dom rest.
Proof.
  destruct (register_features_cycle [ping; pong] (start plain) ["ping"; "pong"] "ping")
    as (merged & rest & Hrun & Hin).
  - vm_compute. reflexivity.
  - apply (bool_decide_unpack _). vm_compute. exact I.
  - intros x Hx.
    apply elem_of_cons in Hx as [-> | Hx]; [|apply list_elem_of_singleton in Hx as ->].
    + exists ping, "pong". split; [reflexivity|]. split; [|split].
      * apply (bool_decide_unpack _). vm_compute. exact I.
      * discriminate.
      * apply (bool_decide_unpack _). vm_compute. exact I.
    + exists pong, "ping[optional]". split; [reflexivity|]. split; [|split].
      * apply (bool_decide_unpack _). vm_compute. exact I.
      * discriminate.
      * apply (bool_decide_unpack _). vm_compute. exact I.
  - exists merged, rest. split; [exact Hrun|]. split; apply Hin.
    + apply (bool_decide_unpack _). vm_compute. exact I.
    + apply (bool_decide_unpack _). vm_compute. exact I.
Defined.

Lemma prepare_dependencies_data_of_feature_run :
  let ef := build_entrypoint_features default_features in
  Py.dict_get (_prepare_dependencies_data ef).1 "shell" = Some ["core"] ∧
  (∃ ds, (_prepare_dependencies_data ef).2 !! "shell" = Some ds ∧
         ∀ d, d ∈ ds ↔ ∃ item, item ∈ f_dependencies shell ∧ d = without_marker item) ∧
  (∀ item, Py.endswith item "[optional]" = true →
     String.append (without_marker item) "[optional]" = item) ∧
  (∀ item, Py.endswith item "[optional]" = false → without_marker item = item).
Proof.
  exact (prepare_dependencies_data_of_feature default_features "shell" shell eq_refl).
Defined.

Lemma main_aborts_on_missing_dependency_run :
  ∃ name' dep',
    main (env := calm) None (start plain)
    = Raise (ValueError (missing_dependency_message name' dep'))
        (set_world plain (log_call CRegisterDefaultCaches
           (set_world plain (log_call CConfigLoad (start plain))))).
Proof.
  apply (main_aborts_on_missing_dependency (env := calm) None (start plain)
           "broken" "missing" broken plain plain).
  - reflexivity.
  - reflexivity.
  - reflexivity.
  - apply (bool_decide_unpack _). vm_compute. exact I.
  - reflexivity.
  - apply (bool_decide_unpack _). vm_compute. exact I.
Defined.

Lemma command_without_restart_runs_once_run :
  let s := set_commands [info] (start plain) in
  let o := handle_command_line (env := calm) (Some ["info"]) s in
  raised o = None ∧
  world (final_state o) = plain ∧
  config_args (final_state o) = Some info_args ∧
  config_unknown_args (final_state o) = [] ∧
  calls (final_state o) = [CExecuteCommand "info" (Some info_args)].
Proof.
  exact (command_without_restart_runs_once (env := calm) (Some ["info"])
           (set_commands [info] (start plain)) info_args [] "info" info
           eq_refl eq_refl eq_refl eq_refl).
Defined.

Lemma load_aborts_when_hook_raises_run :
  let s := set_features [core; failing; docker] (start plain) in
  load_registered_features s
  = Raise (OtherError "boom")
      (set_world plain
         (add_calls [CBeforeLoad "core"; CBeforeLoad "failing"; CBeforeLoad "docker";
                     CConfigure "core"; CConfigure "failing"] s)).
Proof.
  intros s.
  destruct (load_aborts_when_hook_raises s (OtherError "boom") eq_refl)
    as (k & h & Hk & Hnone & He & Hrun).
  rewrite Hrun. clear Hrun.
  destruct k as [|[|[|[|[|[|k]]]]]]; vm_compute in Hk; try discriminate Hk;
    injection Hk as <-; vm_compute in He, Hnone;
    try discriminate He; try discriminate Hnone.
  reflexivity.
Defined.

Lemma register_objects_returns_iff_run :
  (∃ s', register_objects [core; docker] (λ f, f_actions f) actions_registry (start plain)
         = Ret tt s' ∧
         actions s' = [list_features; emit_config] ∧
         calls s' = [CRegister RActions "core:list-features";
                     CRegister RActions "docker:emit-docker-compose-config"]) ∧
  ¬ ∃ s', register_objects [core; docker; core] (λ f, f_actions f) actions_registry
            (start plain) = Ret tt s'.
Proof.
  split.
  - destruct (register_objects_returns_iff actions_registry [core; docker]
                (λ f, f_actions f) (start plain)) as (Hiff & Hret & _).
    destruct (proj2 Hiff) as [s' Hrun].
    { split.
      - apply (bool_decide_unpack _). vm_compute. exact I.
      - intros n _ Hin. vm_compute in Hin. by apply elem_of_nil in Hin. }
    exists s'. split; [exact Hrun|]. rewrite (Hret s' Hrun). split; reflexivity.
  - destruct (register_objects_returns_iff actions_registry [core; docker; core]
                (λ f, f_actions f) (start plain)) as (Hiff & _ & _).
    intros Hreturns. apply (proj1 Hiff) in Hreturns as [Hnd _].
    revert Hnd. apply (bool_decide_unpack _). vm_compute. exact I.
Defined.

End MoreRuns.

(** * The encoded backup is a safe string *)

Module EnvBackupSafe.
Import EnvBackup EnvBackupFacts.

Open Scope N_scope.

(** The characters of the Base64 alphabet and the pad. *)
Definition is_b64_char (c : N) : bool :=
  in_range 65 90 c || in_range 97 122 c || in_range 48 57 c ||
  (c =? 43) || (c =? 47) || (c =? 61).

Lemma b64_char_alphabet i : is_b64_char (b64_char i) = true.
Proof.
  unfold b64_char, is_b64_char, in_range.
  repeat match goal with |- context [?a <? ?b] => destruct (N.ltb_spec a b) end;
    try destruct (N.eqb_spec i 62);
    repeat match goal with
           | |- context [?a <=? ?b] => destruct (N.leb_spec a b)
           | |- context [?a =? ?b] => destruct (N.eqb_spec a b)
           end; simpl; try reflexivity; lia.
Qed.

Lemma b64encode_alphabet bs : forallb is_b64_char (b64encode bs) = true.
Proof.
  induction bs as [bs IH] using (induction_ltof1 _ length). unfold ltof in IH.
  destruct bs as [|b0 [|b1 [|b2 bs]]]; cbn [b64encode].
  - done.
  - cbn [forallb]. by rewrite !b64_char_alphabet.
  - cbn [forallb]. by rewrite !b64_char_alphabet.
  - rewrite forallb_app. cbn [forallb]. rewrite !b64_char_alphabet. simpl.
    apply IH. simpl. lia.
Qed.

Lemma b64encode_length bs :
  length (b64encode bs) = (4 * ((length bs + 2) / 3))%nat.
Proof.
  induction bs as [bs IH] using (induction_ltof1 _ length). unfold ltof in IH.
  destruct bs as [|b0 [|b1 [|b2 bs]]]; cbn [b64encode]; [done..|].
  rewrite length_app, IH by (simpl; lia). cbn [length].
  replace (S (S (S (length bs))) + 2)%nat with (1 * 3 + (length bs + 2))%nat by lia.
  rewrite Nat.div_add_l by done. lia.
Qed.

(** X10. [encode_environ_backup] returns for every dict of strings,
    whatever the characters of its keys and values, and what it returns is
    made of the letters, digits, [+], [/] and [=] of Base64 only, four for
    every three characters of the JSON text. *)
Theorem encode_environ_backup_safe (d : environ) :
  ∃ s, encode_environ_backup d = Some s ∧
       forallb is_b64_char s = true ∧
       length s = (4 * ((length (json_dumps d) + 2) / 3))%nat.
Proof.
  exists (b64encode (json_dumps d)). unfold encode_environ_backup.
  rewrite utf8_encode_ascii by apply json_dumps_ascii.
  rewrite utf8_decode_ascii by apply b64encode_ascii.
  split; [done|]. split; [apply b64encode_alphabet | apply b64encode_length].
Qed.

Close Scope N_scope.

End EnvBackupSafe.

(** * Configuration *)

Module ConfigFacts.
Import Config.

(** ** Induction on configuration data *)

Section Data_nested_ind.
Variable P : Data → Prop.
Hypothesis HNone : P DNone.
Hypothesis HScalar : ∀ v, P (DScalar v).
Hypothesis HDict : ∀ items, Forall (λ kv, P kv.2) items → P (DDict items).
Hypothesis HList : ∀ items, Forall P items → P (DList items).

Fixpoint Data_nested_ind (d : Data) : P d :=
  match d with
  | DNone => HNone
  | DScalar v => HScalar v
  | DDict items =>
      HDict items
        ((fix each (l : list (string * Data)) : Forall (λ kv, P kv.2) l :=
            match l with
            | [] => @List.Forall_nil _ _
            | kv :: l' => @List.Forall_cons _ _ kv l' (Data_nested_ind kv.2) (each l')
            end) items)
  | DList items =>
      HList items
        ((fix each (l : list Data) : Forall P l :=
            match l with
            | [] => @List.Forall_nil _ _
            | v :: l' => @List.Forall_cons _ _ v l' (Data_nested_ind v) (each l')
            end) items)
  end.

End Data_nested_ind.

(** Whether [None] occurs in the data. *)
Fixpoint has_null (d : Data) : bool :=
  match d with
  | DNone => true
  | DScalar _ => false
  | DDict items => existsb (λ kv, has_null kv.2) items
  | DList items => existsb has_null items
  end.

(** How deep the dicts and lists of the data are nested. *)
Fixpoint depth (d : Data) : nat :=
  match d with
  | DNone | DScalar _ => 0
  | DDict items => S (fold_right (λ kv m, depth kv.2 `max` m) 0 items)
  | DList items => S (fold_right (λ v m, depth v `max` m) 0 items)
  end.


(** ** Loops *)


Lemma for_items_returns {A S} (l : list A) (body : A → S → option (Exn + S)) :
  (∀ x s, x ∈ l → ∃ s', body x s = Some (inr s')) →
  ∀ s, ∃ s', for_items l body s = Some (inr s').
Proof.
  induction l as [|y l IH]; intros Hall s; simpl; [by eexists|].
  destruct (Hall y s) as [s' ->]; [by left|].
  apply IH. intros x s1 Hx. apply Hall. by right.
Qed.

Lemma for_items_ext {A S} (l : list A) (body1 body2 : A → S → option (Exn + S)) :
  (∀ x s, x ∈ l → body1 x s = body2 x s) →
  ∀ s, for_items l body1 s = for_items l body2 s.
Proof.
  induction l as [|y l IH]; intros Hall s; simpl; [done|].
  rewrite <- (Hall y s) by left. destruct (body1 y s) as [[e|s']|]; [done| |done].
  apply IH. intros x s1 Hx. apply Hall. by right.
Qed.

Lemma for_items_mono {A S} (l : list A) (body1 body2 : A → S → option (Exn + S)) :
  (∀ x s r, x ∈ l → body1 x s = Some r → body2 x s = Some r) →
  ∀ s r, for_items l body1 s = Some r → for_items l body2 s = Some r.
Proof.
  induction l as [|y l IH]; intros Hall s r; simpl; [done|].
  destruct (body1 y s) as [[e|s1]|] eqn:H1; [| |done].
  - rewrite (Hall y s (inl e)) by (done || by left). done.
  - rewrite (Hall y s (inr s1)) by (done || by left).
    apply IH. intros x s2 r2 Hx. apply Hall. by right.
Qed.

Lemma elem_of_enumerate_from {A} (l : list A) k i x :
  (i, x) ∈ enumerate_from k l ↔ (k ≤ i)%nat ∧ l !! (i - k)%nat = Some x.
Proof.
  revert k. induction l as [|y l IH]; intros k; simpl.
  - rewrite elem_of_nil. naive_solver.
  - rewrite elem_of_cons, IH. split.
    + intros [[= -> ->] | [Hle Hl]].
      * split; [lia|]. by rewrite Nat.sub_diag.
      * split; [lia|]. by replace (i - k)%nat with (S (i - S k)) by lia.
    + intros [Hle Hl]. destruct (decide (i = k)) as [->|Hne].
      * left. rewrite Nat.sub_diag in Hl. by simplify_eq/=.
      * right. split; [lia|]. by replace (i - k)%nat with (S (i - S k)) in Hl by lia.
Qed.

(** ** Depth and [None] *)

Lemma depth_item (items : list (string * Data)) name value :
  (name, value) ∈ items →
  (depth value ≤ fold_right (λ kv m, depth kv.2 `max` m) 0 items)%nat.
Proof.
  induction items as [|kv items IH]; intros Hin; [by apply elem_of_nil in Hin|].
  simpl. apply elem_of_cons in Hin as [<- | Hin]; simpl; [lia|].
  specialize (IH Hin). lia.
Qed.

Lemma depth_element (items : list Data) value :
  value ∈ items → (depth value ≤ fold_right (λ v m, depth v `max` m) 0 items)%nat.
Proof.
  induction items as [|v items IH]; intros Hin; [by apply elem_of_nil in Hin|].
  simpl. apply elem_of_cons in Hin as [<- | Hin]; simpl; [lia|].
  specialize (IH Hin). lia.
Qed.

Lemma has_null_item (items : list (string * Data)) name value :
  has_null (DDict items) = false → (name, value) ∈ items → has_null value = false.
Proof.
  simpl. intros Hnull Hin. apply not_true_is_false. intros Hvalue.
  apply not_true_iff_false in Hnull. apply Hnull, existsb_exists.
  exists (name, value). split; [by apply list_elem_of_In|done].
Qed.

Lemma has_null_element (items : list Data) value :
  has_null (DList items) = false → value ∈ items → has_null value = false.
Proof.
  simpl. intros Hnull Hin. apply not_true_is_false. intros Hvalue.
  apply not_true_iff_false in Hnull. apply Hnull, existsb_exists.
  exists value. split; [by apply list_elem_of_In|done].
Qed.

Lemma DNone_or_not (data : Data) : data = DNone ∨ data ≠ DNone.
Proof. destruct data; by (left + right). Qed.

Section flatten.
Variable data_dict : Exn + Py.dict Data.
Variables (sep : string) (array_index_format : string → string).
Variables (key_transformer : string → string) (value_transformer : Data → Data).
Variable stop_for : list string.

Local Abbreviation flatten_from :=
  (flatten_from data_dict sep array_index_format key_transformer value_transformer
     stop_for).

(** The key under which an item of a dict, an element of a list goes on. *)
Definition key_in (prefix name : string) : string :=
  key_transformer ((if truthy prefix then prefix +:+ sep else EmptyString)
                   +:+ key_transformer name).
Definition key_at (prefix : string) (i : nat) : string :=
  key_transformer ((if truthy prefix then prefix else EmptyString)
                   +:+ array_index_format (str_of_index i)).

(** The flattening of data that is not [None]. *)
Definition flatten_data (fuel : nat) (prefix : string) (data : Data)
    (output : Py.dict Data) : option (Exn + Py.dict Data) :=
  match bool_decide (prefix ∈ stop_for), data with
  | false, DDict items =>
      for_items items (λ '(name, value) output,
        flatten_from fuel (key_in prefix name) value output) output
  | false, DList items =>
      for_items (enumerate_from 0 items) (λ '(i, value) output,
        flatten_from fuel (key_at prefix i) value output) output
  | _, _ => Some (inr (Py.dict_set output prefix (value_transformer data)))
  end.

Lemma flatten_from_S fuel prefix data output :
  data ≠ DNone →
  flatten_from (S fuel) prefix data output = flatten_data fuel prefix data output.
Proof. by destruct data. Qed.

Lemma flatten_from_DNone fuel prefix output :
  flatten_from (S fuel) prefix DNone output
  = match data_dict with
    | inl e => Some (inl e)
    | inr root => flatten_data fuel prefix (DDict root) output
    end.
Proof.
  change (flatten_from (S fuel) prefix DNone output)
    with (match match data_dict with
                | inl e => inl e
                | inr root => inr (DDict root)
                end with
          | inl e => Some (inl e)
          | inr data => flatten_data fuel prefix data output
          end).
  by destruct data_dict.
Qed.

(** More fuel does not change an outcome. *)
Lemma flatten_from_mono fuel fuel' prefix data output r :
  (fuel ≤ fuel')%nat →
  flatten_from fuel prefix data output = Some r →
  flatten_from fuel' prefix data output = Some r.
Proof.
  revert fuel' prefix data output r.
  induction fuel as [|fuel IH]; intros fuel' prefix data output r Hle; [done|].
  destruct fuel' as [|fuel']; [lia|].
  assert (∀ data, flatten_data fuel prefix data output = Some r →
                  flatten_data fuel' prefix data output = Some r) as Hdata.
  { intros d. unfold flatten_data. destruct (bool_decide _); [done|].
    destruct d as [| |items|items]; try done.
    - apply for_items_mono. intros [name value] s r' _. apply IH. lia.
    - apply for_items_mono. intros [i value] s r' _. apply IH. lia. }
  destruct (DNone_or_not data) as [->|Hne].
  - rewrite !flatten_from_DNone. destruct data_dict; [done|apply Hdata].
  - rewrite !flatten_from_S by done. apply Hdata.
Qed.

Lemma flatten_from_returns fuel prefix data output :
  has_null data = false → (depth data < fuel)%nat →
  ∃ out, flatten_from fuel prefix data output = Some (inr out).
Proof.
  revert prefix data output.
  induction fuel as [|fuel IH]; intros prefix data output Hnull Hdepth; [lia|].
  rewrite flatten_from_S by by destruct data. unfold flatten_data.
  destruct (bool_decide _); [by eexists|].
  destruct data as [|v|items|items]; try done; try by eexists.
  - apply for_items_returns. intros [name value] s Hin. apply IH.
    + by eapply has_null_item.
    + pose proof (depth_item items name value Hin). simpl in Hdepth. lia.
  - apply for_items_returns. intros [i value] s [_ Hin]%elem_of_enumerate_from.
    apply list_elem_of_lookup_2 in Hin. apply IH.
    + by eapply has_null_element.
    + pose proof (depth_element items value Hin). simpl in Hdepth. lia.
Qed.


End flatten.

Lemma flatten_from_data_dict data_dict data_dict' sep array_index_format key_transformer
    value_transformer stop_for fuel prefix data output :
  has_null data = false →
  flatten_from data_dict sep array_index_format key_transformer value_transformer stop_for
    fuel prefix data output
  = flatten_from data_dict' sep array_index_format key_transformer value_transformer
      stop_for fuel prefix data output.
Proof.
  revert prefix data output.
  induction fuel as [|fuel IH]; intros prefix data output Hnull; [done|].
  rewrite !flatten_from_S by by destruct data. unfold flatten_data.
  destruct (bool_decide _); [done|].
  destruct data as [|v|items|items]; try done.
  - apply for_items_ext. intros [name value] s Hin. apply IH. by eapply has_null_item.
  - apply for_items_ext. intros [i value] s [_ Hin]%elem_of_enumerate_from.
    apply list_elem_of_lookup_2 in Hin. apply IH. by eapply has_null_element.
Qed.



(** X12. The flattening of data that holds no [None] returns, whatever
    is to stop it, with any fuel above the depth of the data, and its
    result depends neither on the fuel nor on the rest of the
    configuration: [dict(self.data)] is not looked at. *)
Theorem flatten_null_free (data_dict : Exn + Py.dict Data) (sep : string)
    (array_index_format : string → string) (key_transformer : string → string)
    (value_transformer : Data → Data) (stop_for : list string)
    (prefix : string) (data : Data) (output : Py.dict Data) :
  has_null data = false →
  ∃ out, ∀ fuel data_dict', (depth data < fuel)%nat →
    flatten data_dict' fuel (Some prefix) sep array_index_format (Some key_transformer)
      (Some value_transformer) stop_for data (Some output) = Some (inr out).
Proof.
  intros Hnull.
  destruct (flatten_from_returns data_dict sep array_index_format key_transformer
              value_transformer stop_for (S (depth data)) prefix data output Hnull)
    as [out Hrun]; [lia|].
  exists out. intros fuel data_dict' Hfuel. unfold flatten. simpl.
  rewrite <- (flatten_from_data_dict data_dict) by done.
  apply (flatten_from_mono _ _ _ _ _ _ (S (depth data))); [lia|done].
Qed.

(** ** What a flattening writes *)

Lemma dict_get_set {V} (d : Py.dict V) k v k' :
  Py.dict_get (Py.dict_set d k v) k' = if String.eqb k k' then Some v else Py.dict_get d k'.
Proof.
  induction d as [|[k0 v0] d IH]; simpl; [done|].
  destruct (String.eqb_spec k0 k) as [->|Hne]; simpl.
  - by destruct (String.eqb k k').
  - destruct (String.eqb_spec k0 k') as [->|Hne'].
    + by rewrite (proj2 (String.eqb_neq k k')) by done.
    + apply IH.
Qed.

Lemma dict_keys_set {V} (d : Py.dict V) k v :
  ∃ new, Py.dict_keys (Py.dict_set d k v) = Py.dict_keys d ++ new ∧
         ∀ k', k' ∈ Py.dict_keys (Py.dict_set d k v) ↔ k' ∈ Py.dict_keys d ∨ k' = k.
Proof.
  destruct (decide (k ∈ Py.dict_keys d)) as [Hin|Hin].
  - exists []. rewrite PyFacts.dict_keys_set_in, app_nil_r by done.
    split; [done|]. intros k'. naive_solver.
  - exists [k]. rewrite PyFacts.dict_keys_set_notin by done.
    split; [done|]. intros k'. rewrite elem_of_app, list_elem_of_singleton. done.
Qed.

Section written.
Variables (sep : string) (array_index_format : string → string).
Variables (key_transformer : string → string) (value_transformer : Data → Data).
Variable stop_for : list string.

Local Abbreviation key_in := (key_in sep key_transformer).
Local Abbreviation key_at := (key_at array_index_format key_transformer).

(** [written prefix data key x]: the flattening of [data], which holds no
    [None], under [prefix] comes to the value [x] with the key [key]: a
    scalar, or what lies under a prefix to stop for. *)
Inductive written : string → Data → string → Data → Prop :=
| written_stop prefix data :
    data ≠ DNone → prefix ∈ stop_for → written prefix data prefix data
| written_scalar prefix v :
    written prefix (DScalar v) prefix (DScalar v)
| written_item prefix items name value key x :
    prefix ∉ stop_for → (name, value) ∈ items →
    written (key_in prefix name) value key x → written prefix (DDict items) key x
| written_element prefix items i value key x :
    prefix ∉ stop_for → items !! i = Some value →
    written (key_at prefix i) value key x → written prefix (DList items) key x.

(** [out] is [output] with the values [Wr] tells of written over it: the
    keys of [output] stay where they are, the new ones come after them; a
    key that is written has a value that was written for it, and a key that
    is not has the value it had. *)
Definition extends (Wr : string → Data → Prop) (output out : Py.dict Data) : Prop :=
  (∀ k, k ∈ Py.dict_keys out ↔ k ∈ Py.dict_keys output ∨ ∃ x, Wr k x) ∧
  (∀ k v, Py.dict_get out k = Some v →
          (∃ x, Wr k x ∧ v = value_transformer x) ∨
          ((∀ x, ¬ Wr k x) ∧ Py.dict_get output k = Some v)) ∧
  (∃ new, Py.dict_keys out = Py.dict_keys output ++ new).

Lemma extends_refl output : extends (λ _ _, False) output output.
Proof.
  split_and!; [naive_solver|naive_solver|]. exists []. by rewrite app_nil_r.
Qed.

Lemma extends_set output prefix data :
  extends (λ k x, k = prefix ∧ x = data) output
    (Py.dict_set output prefix (value_transformer data)).
Proof.
  destruct (dict_keys_set output prefix (value_transformer data)) as (new & Hnew & Hkeys).
  split_and!.
  - intros k. rewrite Hkeys. naive_solver.
  - intros k v. rewrite dict_get_set.
    destruct (String.eqb_spec prefix k) as [->|Hne].
    + intros [= <-]. left. by exists data.
    + intros Hv. right. split; [|done]. by intros x [-> _].
  - by exists new.
Qed.

Lemma extends_trans W1 W2 o1 o2 o3 :
  extends W1 o1 o2 → extends W2 o2 o3 → extends (λ k x, W1 k x ∨ W2 k x) o1 o3.
Proof.
  intros (Hk1 & Hv1 & new1 & Hn1) (Hk2 & Hv2 & new2 & Hn2). split_and!.
  - intros k. rewrite Hk2, Hk1. naive_solver.
  - intros k v [(x & Hx & ->) | [Hno2 Hv]]%Hv2; [left; by eauto|].
    apply Hv1 in Hv as [(x & Hx & ->) | [Hno1 Hv]]; [left; by eauto|].
    right. split; [|done]. intros x [?|?]; [by eapply Hno1 | by eapply Hno2].
  - exists (new1 ++ new2). by rewrite Hn2, Hn1, <- app_assoc.
Qed.

Lemma extends_iff W W' output out :
  (∀ k x, W k x ↔ W' k x) → extends W output out → extends W' output out.
Proof.
  intros HW (Hk & Hv & Hn). split_and!; [| |done].
  - intros k. rewrite Hk. by setoid_rewrite HW.
  - intros k v [(x & Hx & ->) | [Hno Hv']]%Hv.
    + left. exists x. by rewrite <- HW.
    + right. split; [|done]. intros x Hx. apply (Hno x). by apply HW.
Qed.

Lemma for_items_extends {A} (l : list A)
    (body : A → Py.dict Data → option (Exn + Py.dict Data))
    (W : A → string → Data → Prop) output out :
  (∀ x o o', x ∈ l → body x o = Some (inr o') → extends (W x) o o') →
  for_items l body output = Some (inr out) →
  extends (λ k d, ∃ x, x ∈ l ∧ W x k d) output out.
Proof.
  revert output. induction l as [|y l IH]; intros output Hbody; simpl.
  - intros [= <-]. eapply extends_iff; [|apply extends_refl].
    intros k x. split; [done|]. by intros (? & ?%elem_of_nil & _).
  - destruct (body y output) as [[e|o1]|] eqn:Hy; [done| |done]. intros Hrest.
    eapply extends_iff; [|eapply extends_trans].
    2:{ apply (Hbody y output o1); [by left|done]. }
    2:{ apply (IH o1); [|done]. intros x o o' Hx. apply Hbody. by right. }
    intros k d. split.
    + intros [Hw | (x & Hx & Hw)]; [exists y; split; [by left|done]|].
      exists x. split; [by right|done].
    + intros (x & [-> | Hx]%elem_of_cons & Hw); [by left|right; by eauto].
Qed.

Lemma written_here prefix data key x :
  data ≠ DNone →
  (prefix ∈ stop_for ∨ ∃ v, data = DScalar v) →
  written prefix data key x ↔ key = prefix ∧ x = data.
Proof.
  intros Hne Hhere. split.
  - inversion 1; subst; try done; destruct Hhere as [? | [? ?]]; done.
  - intros [-> ->]. destruct Hhere as [? | [v ->]]; [by apply written_stop|].
    apply written_scalar.
Qed.

Lemma written_DDict prefix items key x :
  prefix ∉ stop_for →
  written prefix (DDict items) key x ↔
  ∃ item, item ∈ items ∧ written (key_in prefix item.1) item.2 key x.
Proof.
  intros Hstop. split.
  - inversion 1; subst; [done|]. by exists (name, value).
  - intros ([name value] & Hin & Hw). by eapply written_item.
Qed.

Lemma written_DList prefix items key x :
  prefix ∉ stop_for →
  written prefix (DList items) key x ↔
  ∃ item, item ∈ enumerate_from 0 items ∧ written (key_at prefix item.1) item.2 key x.
Proof.
  intros Hstop. split.
  - inversion 1; subst; [done|]. exists (i, value). split; [|done].
    apply elem_of_enumerate_from. split; [lia|]. by rewrite Nat.sub_0_r.
  - intros ([i value] & [_ Hin]%elem_of_enumerate_from & Hw).
    rewrite Nat.sub_0_r in Hin. by eapply written_element.
Qed.

Lemma written_value prefix data key x :
  written prefix data key x → (∃ v, x = DScalar v) ∨ key ∈ stop_for.
Proof. induction 1; eauto. Qed.

Lemma flatten_from_extends data_dict fuel prefix data output out :
  has_null data = false →
  flatten_from data_dict sep array_index_format key_transformer value_transformer stop_for
    fuel prefix data output = Some (inr out) →
  extends (written prefix data) output out.
Proof.
  revert prefix data output out.
  induction fuel as [|fuel IH]; intros prefix data output out Hnull; [done|].
  assert (data ≠ DNone) as Hne by by destruct data.
  rewrite flatten_from_S by done. unfold flatten_data. intros Hrun.
  case_bool_decide as Hstop.
  { injection Hrun as <-. eapply extends_iff; [|apply extends_set].
    intros k x. simpl. rewrite written_here; [done|done|by left]. }
  destruct data as [|v|items|items]; [done| | |].
  - injection Hrun as <-. eapply extends_iff; [|apply extends_set].
    intros k x. simpl. rewrite written_here; [done|done|right; by eauto].
  - eapply extends_iff; [intros k x; symmetry; by apply written_DDict|].
    eapply (for_items_extends items _
              (λ item, written (key_in prefix item.1) item.2)); [|exact Hrun].
    intros [name value] o o' Hin. apply IH. by eapply has_null_item.
  - eapply extends_iff; [intros k x; symmetry; by apply written_DList|].
    eapply (for_items_extends (enumerate_from 0 items) _
              (λ item, written (key_at prefix item.1) item.2)); [|exact Hrun].
    intros [i value] o o' [_ Hin]%elem_of_enumerate_from.
    apply list_elem_of_lookup_2 in Hin. apply IH. by eapply has_null_element.
Qed.

End written.

(** X13. On data that holds no [None], with fuel above its depth,
    [Config.flatten] returns, and what it returns is its [output] with
    what the data holds written over it, no more and no less: the result
    has the keys of [output], in their places, followed by new keys; a key
    is in the result exactly when it was in [output] or is the path of a
    scalar or of a prefix to stop for; the value of such a path is the
    transformed value found there, also when [output] had the key, and the
    value of any other key is the one [output] had. An empty dict or list
    gives no key at all. *)
Theorem flatten_writes_the_leaves (data_dict : Exn + Py.dict Data) (fuel : nat)
    (sep : string) (array_index_format : string → string)
    (key_transformer : string → string) (value_transformer : Data → Data)
    (stop_for : list string) (prefix : string) (data : Data)
    (output : Py.dict Data) :
  has_null data = false →
  (depth data < fuel)%nat →
  let written := written sep array_index_format key_transformer stop_for in
  ∃ out,
    flatten data_dict fuel (Some prefix) sep array_index_format (Some key_transformer)
      (Some value_transformer) stop_for data (Some output) = Some (inr out) ∧
    (∀ k, k ∈ Py.dict_keys out ↔
          k ∈ Py.dict_keys output ∨ ∃ x, written prefix data k x) ∧
    (∀ k v, Py.dict_get out k = Some v →
            (∃ x, written prefix data k x ∧ v = value_transformer x) ∨
            ((∀ x, ¬ written prefix data k x) ∧ Py.dict_get output k = Some v)) ∧
    (∃ new, Py.dict_keys out = Py.dict_keys output ++ new) ∧
    (∀ k x, written prefix data k x → (∃ v, x = DScalar v) ∨ k ∈ stop_for).
Proof.
  intros Hnull Hdepth written.
  destruct (flatten_from_returns data_dict sep array_index_format key_transformer
              value_transformer stop_for fuel prefix data output Hnull Hdepth)
    as [out Hrun].
  exists out. unfold flatten. simpl. split; [done|].
  destruct (flatten_from_extends _ _ _ _ _ _ _ _ _ _ _ Hnull Hrun)
    as (Hkeys & Hvalues & Hnew).
  split_and!; [done..|]. apply written_value.
Qed.

(** ** Overrides from the environment *)

Section overrides.
Variable env_override_prefix : string.
Variable environ_get : string → option string.
Variable upper : string → string.

Local Abbreviation apply_environ_overrides :=
  (apply_environ_overrides env_override_prefix environ_get upper).
Local Abbreviation set_in_environ := (set_in_environ environ_get).

(** The name of the variable looked up for the data itself, for an item
    of a dict and for an element of a list. *)
Definition variable_of (prefix : option string) : string :=
  upper match prefix with
        | Some p => if truthy p then p else env_override_prefix
        | None => env_override_prefix
        end.
Definition item_variable (prefix : option string) (name : string) : string :=
  upper (variable_of prefix +:+ "_" +:+ name).
Definition element_variable (prefix : option string) (i : nat) : string :=
  upper (variable_of prefix +:+ "[" +:+ str_of_index i +:+ "]").

Definition override_item (prefix : option string) (item : string * Data) : string * Data :=
  (item.1, apply_environ_overrides item.2 (Some (item_variable prefix item.1))).

Fixpoint override_elements (prefix : option string) (i : nat) (items : list Data) : list Data :=
  match items with
  | [] => []
  | value :: items' =>
      match set_in_environ (element_variable prefix i) with
      | Some _ => apply_environ_overrides value (Some (element_variable prefix i))
      | None => value
      end :: override_elements prefix (S i) items'
  end.

Lemma apply_environ_overrides_eq data prefix :
  apply_environ_overrides data prefix
  = match set_in_environ (variable_of prefix) with
    | Some environ_value => DScalar (SStr environ_value)
    | None =>
        match data with
        | DDict items => DDict (override_item prefix <$> items)
        | DList items => DList (override_elements prefix 0 items)
        | _ => data
        end
    end.
Proof.
  destruct data as [|v|items|items]; cbn [Config.apply_environ_overrides];
    fold (variable_of prefix); destruct (set_in_environ (variable_of prefix)); try done.
  - f_equal. induction items as [|[name value] items IH]; csimpl; [done|].
    by rewrite IH.
  - f_equal. generalize 0%nat. induction items as [|value items IH]; intros i; simpl; [done|].
    rewrite IH. unfold element_variable. by destruct (set_in_environ _).
Qed.

Lemma override_elements_length prefix i items :
  length (override_elements prefix i items) = length items.
Proof. revert i. induction items as [|v items IH]; intros i; simpl; [done|]. by rewrite IH. Qed.

Lemma override_elements_lookup prefix i items j value :
  items !! j = Some value →
  override_elements prefix i items !! j
  = Some match set_in_environ (element_variable prefix (i + j)) with
         | Some _ => apply_environ_overrides value (Some (element_variable prefix (i + j)))
         | None => value
         end.
Proof.
  revert i j. induction items as [|v items IH]; intros i j; [done|].
  destruct j as [|j]; simpl.
  - intros [= ->]. by rewrite Nat.add_0_r.
  - intros Hj. rewrite (IH (S i) j Hj). by replace (S i + j)%nat with (i + S j)%nat by lia.
Qed.

(** [overridden data data']: [data'] is [data] but for values replaced by
    strings that variables of the environment hold. *)
Inductive overridden : Data → Data → Prop :=
| overridden_same data : overridden data data
| overridden_value data name value :
    environ_get name = Some value → truthy value = true →
    overridden data (DScalar (SStr value))
| overridden_dict items items' :
    Forall2 (λ item item', item.1 = item'.1 ∧ overridden item.2 item'.2) items items' →
    overridden (DDict items) (DDict items')
| overridden_list items items' :
    Forall2 overridden items items' → overridden (DList items) (DList items').

Lemma set_in_environ_Some name value :
  set_in_environ name = Some value → environ_get name = Some value ∧ truthy value = true.
Proof.
  unfold Config.set_in_environ. destruct (environ_get name) as [v|]; [|done].
  destruct (truthy v) eqn:Hv; [|done]. by intros [= ->].
Qed.

(** X14. [apply_environ_overrides] keeps the shape of the data: all it
    does is to put, in the place of a value, a string that is not empty and
    that a variable of the environment holds; the keys of every dict, their
    order and the length of every list are kept. *)
Theorem apply_environ_overrides_shape (data : Data) (prefix : option string) :
  overridden data (apply_environ_overrides data prefix).
Proof.
  revert prefix. induction data as [|v|items IH|items IH] using Data_nested_ind;
    intros prefix; rewrite apply_environ_overrides_eq;
    destruct (set_in_environ (variable_of prefix)) as [e|] eqn:He;
    try (apply set_in_environ_Some in He as [He1 He2]; by eapply overridden_value);
    try apply overridden_same.
  - apply overridden_dict. induction IH as [|[name value] items Hv _ IH']; csimpl;
      constructor; [|done]. split; [done|]. apply Hv.
  - apply overridden_list. generalize 0%nat.
    induction IH as [|value items Hv _ IH']; intros i; simpl; constructor; [|done].
    destruct (set_in_environ (element_variable prefix i)); [apply Hv | apply overridden_same].
Qed.

(** X15. An element of a list is replaced only when a variable carries
    the name of the element itself: without one the element is kept as it
    is, whatever it holds and whatever other variables there are, so that a
    variable for a field of a dict inside a list is never applied. *)
Theorem list_element_without_variable_is_kept
    (prefix : option string) (items : list Data) (i : nat) (value : Data) :
  set_in_environ (variable_of prefix) = None →
  items !! i = Some value →
  set_in_environ (element_variable prefix i) = None →
  ∃ items', apply_environ_overrides (DList items) prefix = DList items' ∧
            length items' = length items ∧
            items' !! i = Some value.
Proof.
  intros Hp Hi Hvar. exists (override_elements prefix 0 items).
  rewrite apply_environ_overrides_eq, Hp. split; [done|].
  split; [apply override_elements_length|].
  rewrite (override_elements_lookup prefix 0 items i value Hi). simpl. by rewrite Hvar.
Qed.

(** X16. [apply_environ_overrides] is idempotent: applied again under
    the same prefix to what it returned, it changes nothing. *)
Theorem apply_environ_overrides_twice (data : Data) (prefix : option string) :
  apply_environ_overrides (apply_environ_overrides data prefix) prefix
  = apply_environ_overrides data prefix.
Proof.
  revert prefix. induction data as [|v|items IH|items IH] using Data_nested_ind;
    intros prefix; rewrite (apply_environ_overrides_eq _ prefix);
    destruct (set_in_environ (variable_of prefix)) as [e|] eqn:He;
    rewrite (apply_environ_overrides_eq _ prefix), He; try done.
  - f_equal. induction IH as [|[name value] items Hv _ IH']; csimpl; [done|].
    rewrite IH'. f_equal. unfold override_item. simpl. by rewrite Hv.
  - f_equal. generalize 0%nat.
    induction IH as [|value items Hv _ IH']; intros i; simpl; [done|].
    rewrite IH'. f_equal.
    destruct (set_in_environ (element_variable prefix i)); [apply Hv|done].
Qed.

End overrides.

Lemma apply_environ_overrides_ext env_override_prefix environ_get environ_get' upper
    data prefix :
  (∀ name, set_in_environ environ_get name = set_in_environ environ_get' name) →
  apply_environ_overrides env_override_prefix environ_get upper data prefix
  = apply_environ_overrides env_override_prefix environ_get' upper data prefix.
Proof.
  intros Hsame. revert prefix.
  induction data as [|v|items IH|items IH] using Data_nested_ind;
    intros prefix; rewrite !apply_environ_overrides_eq, Hsame;
    destruct (set_in_environ environ_get' _) as [e|]; try done.
  - f_equal. induction IH as [|[name value] items Hv _ IH']; csimpl; [done|].
    rewrite IH'. f_equal. unfold override_item. simpl. by rewrite Hv.
  - f_equal. generalize 0%nat.
    induction IH as [|value items Hv _ IH']; intros i; simpl; [done|].
    rewrite IH', Hsame. f_equal.
    destruct (set_in_environ environ_get' _); [apply Hv|done].
Qed.

(** X17. A variable that is set to the empty string overrides nothing:
    the result is the one of the environment without it. No value can be
    overridden with the empty string. *)
Theorem empty_variable_overrides_nothing (env_override_prefix : string)
    (environ_get : string → option string) (upper : string → string)
    (data : Data) (prefix : option string) :
  apply_environ_overrides env_override_prefix environ_get upper data prefix
  = apply_environ_overrides env_override_prefix (set_in_environ environ_get) upper
      data prefix.
Proof.
  apply apply_environ_overrides_ext. intros name. unfold set_in_environ.
  destruct (environ_get name) as [v|]; [|done]. by destruct (truthy v) eqn:Hv; rewrite ?Hv.
Qed.

End ConfigFacts.

(** * Runs of the configuration *)

Module ConfigRuns.
Import Config ConfigFacts.

(** [str.upper] on the letters a to z. *)
Definition ascii_upper (c : Ascii.ascii) : Ascii.ascii :=
  let n := Ascii.nat_of_ascii c in
  if (97 <=? n)%nat && (n <=? 122)%nat then Ascii.ascii_of_nat (n - 32) else c.

Fixpoint str_upper (s : string) : string :=
  match s with
  | EmptyString => EmptyString
  | String c s' => String (ascii_upper c) (str_upper s')
  end.

Definition docker_config : Data :=
  DDict [("docker", DDict [("ports", DList [DScalar (SInt 80); DScalar (SInt 443)]);
                           ("labels", DDict [])]);
         ("shell", DScalar (SStr "bash"))].

Definition services_config : list Data :=
  [DDict [("name", DScalar (SStr "web"))]; DScalar (SStr "db")].

(** An environment with a variable for a field of the first service. *)
Definition field_environ (name : string) : option string :=
  Py.dict_get [("DDB_OVERRIDE_SERVICES[0]_NAME", "api"); ("HOME", "/root")] name.

Lemma flatten_null_free_run :
  ∃ out, ∀ fuel data_dict', (depth docker_config < fuel)%nat →
    flatten data_dict' fuel (Some "DDB") "_" (percent_s "_" "_") (Some str_upper)
      (Some (λ x, x)) [] docker_config (Some []) = Some (inr out).
Proof.
  exact (flatten_null_free (inr []) "_" (percent_s "_" "_") str_upper (λ x, x) [] "DDB"
           docker_config [] eq_refl).
Defined.

(** An output that holds a key the data writes, and another one. *)
Definition former_output : Py.dict Data :=
  [("shell", DScalar (SStr "zsh")); ("user", DScalar (SStr "me"))].

Lemma flatten_writes_the_leaves_run :
  let written := written "." (percent_s "[" "]") (λ x, x) ["docker.labels"] in
  ∃ out,
    flatten (inl (KeyError "a.b")) 5 (Some EmptyString) "." (percent_s "[" "]")
      (Some (λ x, x)) (Some (λ x, x)) ["docker.labels"] docker_config (Some former_output)
    = Some (inr out) ∧
    out = [("shell", DScalar (SStr "bash")); ("user", DScalar (SStr "me"));
           ("docker.ports[0]", DScalar (SInt 80)); ("docker.ports[1]", DScalar (SInt 443));
           ("docker.labels", DDict [])] ∧
    (∀ k, k ∈ Py.dict_keys out ↔
          k ∈ Py.dict_keys former_output ∨ ∃ x, written EmptyString docker_config k x) ∧
    (∀ k v, Py.dict_get out k = Some v →
            (∃ x, written EmptyString docker_config k x ∧ v = x) ∨
            ((∀ x, ¬ written EmptyString docker_config k x) ∧
             Py.dict_get former_output k = Some v)) ∧
    (∃ new, Py.dict_keys out = Py.dict_keys former_output ++ new) ∧
    (∀ k x, written EmptyString docker_config k x →
            (∃ v, x = DScalar v) ∨ k ∈ ["docker.labels"]).
Proof.
  intros written.
  destruct (flatten_writes_the_leaves (inl (KeyError "a.b")) 5 "." (percent_s "[" "]")
              (λ x, x) (λ x, x) ["docker.labels"] EmptyString docker_config former_output)
    as (out & Hrun & Hrest).
  - reflexivity.
  - vm_compute. lia.
  - exists out. split; [exact Hrun|]. split; [|exact Hrest].
    vm_compute in Hrun. by injection Hrun as <-.
Defined.

Lemma list_element_without_variable_is_kept_run :
  ∃ items',
    apply_environ_overrides "DDB_OVERRIDE" field_environ str_upper
      (DList services_config) (Some "DDB_OVERRIDE_SERVICES") = DList items' ∧
    length items' = length services_config ∧
    items' !! 0%nat = Some (DDict [("name", DScalar (SStr "web"))]).
Proof.
  apply (list_element_without_variable_is_kept "DDB_OVERRIDE" field_environ str_upper
           (Some "DDB_OVERRIDE_SERVICES") services_config 0
           (DDict [("name", DScalar (SStr "web"))])).
  - vm_compute. reflexivity.
  - reflexivity.
  - vm_compute. reflexivity.
Defined.

End ConfigRuns.

(** * The shell *)

Module ShellFacts.
Import Shell.

(** ** The order of strings *)

Lemma ascii_compare_N (a b : Ascii.ascii) :
  Ascii.compare a b = N.compare (Ascii.N_of_ascii a) (Ascii.N_of_ascii b).
Proof. done. Qed.

Lemma string_compare_trans_le (s1 s2 s3 : string) :
  String.compare s1 s2 ≠ Gt → String.compare s2 s3 ≠ Gt → String.compare s1 s3 ≠ Gt.
Proof.
  revert s2 s3. induction s1 as [|a s1 IH]; intros [|b s2] [|c s3]; simpl; try done.
  rewrite !ascii_compare_N.
  destruct (N.compare_spec (Ascii.N_of_ascii a) (Ascii.N_of_ascii b)) as [Hab|Hab|Hab];
    destruct (N.compare_spec (Ascii.N_of_ascii b) (Ascii.N_of_ascii c)) as [Hbc|Hbc|Hbc];
    destruct (N.compare_spec (Ascii.N_of_ascii a) (Ascii.N_of_ascii c)) as [Hac|Hac|Hac];
    try done; try lia.
  apply IH.
Qed.

Lemma string_leb_trans (s1 s2 s3 : string) :
  String.leb s1 s2 = true → String.leb s2 s3 = true → String.leb s1 s3 = true.
Proof.
  unfold String.leb. intros H12 H23.
  pose proof (string_compare_trans_le s1 s2 s3) as Htrans.
  destruct (String.compare s1 s2), (String.compare s2 s3), (String.compare s1 s3);
    try done; exfalso; by apply Htrans.
Qed.

(** ** Sorting with a total order *)

Section sorted_total.
Context {A : Type} (leb : A → A → bool).
Hypothesis leb_total : ∀ x y, leb x y = true ∨ leb y x = true.
Hypothesis leb_trans : ∀ x y z, leb x y = true → leb y z = true → leb x z = true.

Lemma insert_sorted_total x l :
  StronglySorted (λ a b, leb a b = true) l →
  StronglySorted (λ a b, leb a b = true) (Py.insert_sorted leb x l).
Proof.
  induction 1 as [|y l Hl IH Hy]; simpl.
  - repeat constructor.
  - destruct (leb x y) eqn:Hxy.
    + constructor; [by constructor|]. constructor; [done|].
      eapply Forall_impl; [exact Hy|]. intros z Hz. by eapply leb_trans.
    + constructor; [done|]. rewrite SortedFacts.insert_sorted_perm. constructor; [|done].
      destruct (leb_total x y); congruence.
Qed.

Lemma sorted_total l : StronglySorted (λ a b, leb a b = true) (Py.sorted leb l).
Proof.
  induction l as [|x l IH]; simpl; [constructor|]. by apply insert_sorted_total.
Qed.

End sorted_total.

Lemma StronglySorted_filter {A} (R : A → A → Prop) (p : A → bool) l :
  StronglySorted R l → StronglySorted R (List.filter p l).
Proof.
  induction 1 as [|x l Hl IH Hx]; simpl; [constructor|].
  destruct (p x); [|done]. constructor; [done|].
  apply Forall_forall. intros y Hy%list_elem_of_In%filter_In.
  rewrite Forall_forall in Hx. apply Hx, list_elem_of_In, Hy.
Qed.

Lemma filter_Permutation {A} (p : A → bool) (l l' : list A) :
  l ≡ₚ l' → List.filter p l ≡ₚ List.filter p l'.
Proof.
  induction 1 as [|x l l' H IH|x y l|l l' l'' H1 IH1 H2 IH2]; simpl.
  - done.
  - destruct (p x); [by constructor|done].
  - destruct (p x), (p y); try done. apply Permutation_swap.
  - by etrans.
Qed.

Lemma StronglySorted_fmap {A B} (R : A → A → Prop) (R' : B → B → Prop) (f : A → B) l :
  (∀ x y, R x y → R' (f x) (f y)) →
  StronglySorted R l → StronglySorted R' (f <$> l).
Proof.
  intros Hf. induction 1 as [|x l Hl IH Hx]; csimpl; constructor; [done|].
  apply Forall_fmap. eapply Forall_impl; [exact Hx|]. intros y. apply Hf.
Qed.

(** ** Sorting the keys of one kind *)

Lemma sorted_fmap {A B} (f : A → B) (leb : A → A → bool) (leb' : B → B → bool) l :
  (∀ x y, leb' (f x) (f y) = leb x y) →
  Py.sorted leb' (f <$> l) = f <$> Py.sorted leb l.
Proof.
  intros Hleb. induction l as [|x l IH]; csimpl; [done|]. rewrite IH.
  generalize (Py.sorted leb l). intros s. induction s as [|y s IHs]; csimpl; [done|].
  rewrite Hleb. destruct (leb x y); csimpl; [done|]. by rewrite IHs.
Qed.

(** ** The calls *)

Definition call_key (c : ShellCall) : Key :=
  match c with
  | SetEnvironmentVariable key _ => key
  | RemoveEnvironmentVariable key => key
  end.

Definition call_of (variable : string * option string) : ShellCall :=
  match variable.2 with
  | Some value => SetEnvironmentVariable (KeyName variable.1) value
  | None => RemoveEnvironmentVariable (KeyName variable.1)
  end.

(** Whether every changed variable comes under its name. *)
Definition names_only (differences : list Difference) : bool :=
  forallb (λ difference,
             match difference with Change (KeyPath _) _ _ => false | _ => true end)
    differences.

(** Whether a changed variable comes as a list. *)
Definition has_path (differences : list Difference) : bool :=
  existsb (λ difference,
             match difference with Change (KeyPath _) _ _ => true | _ => false end)
    differences.

(** Whether a variable comes under its name. *)
Definition has_name (differences : list Difference) : bool :=
  existsb (λ difference,
             match difference with
             | Change (KeyName _) _ _ | Add (_ :: _) | Remove (_ :: _) => true
             | _ => false
             end)
    differences.

(** The variables of a difference that come under their name. *)
Definition named_variables (difference : Difference) : list (string * option string) :=
  match difference with
  | Add dest_items => (λ item, (item.1, Some item.2)) <$> dest_items
  | Change (KeyName name) _ new => [(name, Some new)]
  | Change (KeyPath _) _ _ => []
  | Remove dest_items => (λ item, (item.1, None)) <$> dest_items
  end.

Definition keyed (variable : string * option string) : Key * option string :=
  (KeyName variable.1, variable.2).

Definition variables_of_difference (difference : Difference) : list (Key * option string) :=
  match difference with
  | Add dest_items => (λ item, (KeyName item.1, Some item.2)) <$> dest_items
  | Change source _ new => [(source, Some new)]
  | Remove dest_items => (λ item, (KeyName item.1, None)) <$> dest_items
  end.

(** Whether [envignore] holds patterns and they match the name. *)
Definition ignored (is_ignored : list string → string → bool)
    (envignore : option (list string)) (name : string) : bool :=
  match envignore with
  | Some ((_ :: _) as patterns) => is_ignored patterns name
  | _ => false
  end.

Lemma variables_of_flat_map differences :
  variables_of differences = flat_map variables_of_difference differences.
Proof.
  unfold variables_of.
  assert (∀ acc, fold_left
            (λ variables difference,
               match difference with
               | Add dest_items =>
                   fold_left
                     (λ variables '(key, value), variables ++ [(KeyName key, Some value)])
                     dest_items variables
               | Change source _ new => variables ++ [(source, Some new)]
               | Remove dest_items =>
                   fold_left (λ variables '(key, _), variables ++ [(KeyName key, None)])
                     dest_items variables
               end) differences acc
          = acc ++ flat_map variables_of_difference differences) as Hfold.
  { induction differences as [|d ds IH]; intros acc; simpl; [by rewrite app_nil_r|].
    rewrite IH, app_assoc. f_equal. destruct d as [items|source old new|items]; simpl.
    - revert acc. induction items as [|[k v] items IHi]; intros acc; csimpl;
        [by rewrite app_nil_r|]. by rewrite IHi, <- app_assoc.
    - done.
    - revert acc. induction items as [|[k v] items IHi]; intros acc; csimpl;
        [by rewrite app_nil_r|]. by rewrite IHi, <- app_assoc. }
  apply (Hfold []).
Qed.

Lemma names_only_variables differences :
  names_only differences = true →
  flat_map variables_of_difference differences
  = keyed <$> flat_map named_variables differences.
Proof.
  induction differences as [|d ds IH]; simpl; [done|].
  intros [Hd Hds]%andb_true_iff. rewrite fmap_app, IH by done. f_equal.
  destruct d as [items|[name|path] old new|items]; simpl in *; try done.
  - rewrite <- list_fmap_compose. done.
  - rewrite <- list_fmap_compose. done.
Qed.

Lemma sorted_by_key_names (variables : list (string * option string)) :
  sorted_by_key (keyed <$> variables)
  = Some (keyed <$> Py.sorted (λ x y, String.leb x.1 y.1) variables).
Proof.
  unfold sorted_by_key. destruct variables as [|first variables]; [done|].
  rewrite fmap_cons.
  assert (forallb (λ variable, same_kind (keyed first).1 variable.1)
            (keyed first :: (keyed <$> variables)) = true) as ->.
  { apply forallb_forall. intros x [<- | Hx]; [done|].
    apply list_elem_of_In, list_elem_of_fmap in Hx as (v & -> & _). done. }
  f_equal. by apply (sorted_fmap keyed _ _ (first :: variables)).
Qed.

Lemma sorted_by_key_mixed (variables : list (Key * option string)) name path v v' :
  (KeyName name, v) ∈ variables → (KeyPath path, v') ∈ variables →
  sorted_by_key variables = None.
Proof.
  intros Hname Hpath. unfold sorted_by_key.
  destruct variables as [|first variables]; [by apply elem_of_nil in Hname|].
  destruct (forallb _ _) eqn:Hall; [|done]. exfalso.
  rewrite forallb_forall in Hall.
  pose proof (Hall _ (proj1 (list_elem_of_In _ _) Hname)) as H1.
  pose proof (Hall _ (proj1 (list_elem_of_In _ _) Hpath)) as H2.
  simpl in H1, H2. by destruct first.1.
Qed.

Section apply_diff.
Variable diff : Environment → Environment → list Difference.
Variable is_ignored : list string → string → bool.
Variable is_ignored_path : list string → list string → Exn + bool.

Lemma kept_name helper name :
  kept is_ignored is_ignored_path helper (KeyName name)
  = inr (negb match helper with
              | Some patterns => is_ignored patterns name
              | None => false
              end).
Proof. by destruct helper. Qed.

Lemma ignored_helper envignore name :
  match match envignore with
        | Some ((_ :: _) as patterns) => Some patterns
        | _ => None
        end with
  | Some patterns => is_ignored patterns name
  | None => false
  end = ignored is_ignored envignore name.
Proof. by destruct envignore as [[|pattern patterns]|]. Qed.

Lemma calls_of_names envignore (variables : list (string * option string)) :
  fold_left
    (λ '(calls, failure) '(key, value),
       match failure with
       | Some _ => (calls, failure)
       | None =>
           match kept is_ignored is_ignored_path
                   match envignore with
                   | Some ((_ :: _) as patterns) => Some patterns
                   | _ => None
                   end key with
           | inl e => (calls, Some (HelperError e))
           | inr true =>
               match value with
               | None => (calls ++ [RemoveEnvironmentVariable key], None)
               | Some value => (calls ++ [SetEnvironmentVariable key value], None)
               end
           | inr false => (calls, None)
           end
       end)
    (keyed <$> variables) ([], None)
  = (call_of <$> List.filter (λ variable, negb (ignored is_ignored envignore variable.1))
                   variables, None).
Proof.
  set (helper := match envignore with
                 | Some ((_ :: _) as patterns) => Some patterns
                 | _ => None
                 end).
  assert (∀ acc, fold_left
    (λ '(calls, failure) '(key, value),
       match failure with
       | Some _ => (calls, failure)
       | None =>
           match kept is_ignored is_ignored_path helper key with
           | inl e => (calls, Some (HelperError e))
           | inr true =>
               match value with
               | None => (calls ++ [RemoveEnvironmentVariable key], None)
               | Some value => (calls ++ [SetEnvironmentVariable key value], None)
               end
           | inr false => (calls, None)
           end
       end)
    (keyed <$> variables) (acc, None)
  = (acc ++ (call_of <$> List.filter
               (λ variable, negb (ignored is_ignored envignore variable.1)) variables),
     None)) as Hfold.
  { induction variables as [|[name value] variables IH]; intros acc;
      [by rewrite app_nil_r|].
    rewrite fmap_cons. cbn [fold_left keyed fst snd List.filter].
    rewrite kept_name.
    replace (match helper with
             | Some patterns => is_ignored patterns name
             | None => false
             end) with (ignored is_ignored envignore name)
      by (symmetry; apply ignored_helper).
    destruct (negb (ignored is_ignored envignore name)); [|apply IH].
    unfold call_of. destruct value; rewrite IH; csimpl; by rewrite <- app_assoc. }
  apply (Hfold []).
Qed.

(** X18. When [dictdiffer] reports every changed variable under its
    name, [apply_diff_to_shell] runs to its end, whatever the order the
    differences come in: it calls the shell in ascending order of the
    variable names, once for every variable reported that the ignore
    patterns do not match; it sets the variables that were added or
    changed, to their new value, and removes the ones that were removed;
    without patterns, or with an empty list of them, no variable is left
    out. When a changed variable comes as a list, as it does when its name
    holds a dot, and another variable under its name, [sorted] raises
    [TypeError] and the shell is not called at all. *)
Theorem apply_diff_to_shell_calls (source target : Environment)
    (envignore : option (list string)) :
  let result := apply_diff_to_shell diff is_ignored is_ignored_path source target
                  envignore in
  let differences := diff source target in
  let calls := result.1 in
  (names_only differences = true →
   result.2 = None ∧
   StronglySorted (λ c c', key_leb (call_key c) (call_key c') = true) calls ∧
   calls ≡ₚ call_of <$> List.filter
                          (λ variable, negb (ignored is_ignored envignore variable.1))
                          (flat_map named_variables differences) ∧
   (∀ name value, SetEnvironmentVariable (KeyName name) value ∈ calls ↔
      ignored is_ignored envignore name = false ∧
      ((∃ dest_items, Add dest_items ∈ differences ∧ (name, value) ∈ dest_items) ∨
       (∃ old, Change (KeyName name) old value ∈ differences))) ∧
   (∀ name, RemoveEnvironmentVariable (KeyName name) ∈ calls ↔
      ignored is_ignored envignore name = false ∧
      ∃ dest_items value, Remove dest_items ∈ differences ∧ (name, value) ∈ dest_items) ∧
   (∀ c, c ∈ calls → ∃ name, call_key c = KeyName name)) ∧
  (has_path differences = true → has_name differences = true →
   result = ([], Some TypeError)).
Proof.
  intros result differences calls. split.
  - intros Hnames. subst calls result. unfold apply_diff_to_shell. cbv zeta.
    fold differences. rewrite variables_of_flat_map, names_only_variables by done.
    rewrite sorted_by_key_names, calls_of_names. simpl.
    set (variables := flat_map named_variables differences).
    set (keep := λ variable : string * option string,
                   negb (ignored is_ignored envignore variable.1)).
    assert (∀ c, c ∈ call_of <$> List.filter keep
                   (Py.sorted (λ x y, String.leb x.1 y.1) variables)
                 ↔ ∃ variable, variable ∈ variables ∧
                     ignored is_ignored envignore variable.1 = false ∧
                     c = call_of variable) as Hcalls.
    { intros c. rewrite list_elem_of_fmap. split.
      - intros (v & -> & Hv). apply list_elem_of_In, filter_In in Hv as [Hv Hkeep].
        apply list_elem_of_In, SortedFacts.sorted_elem in Hv.
        exists v. by apply negb_true_iff in Hkeep.
      - intros (v & Hv & Hkeep & ->). exists v. split; [done|].
        apply list_elem_of_In, filter_In. split.
        + by apply list_elem_of_In, SortedFacts.sorted_elem.
        + by apply negb_true_iff. }
    assert (∀ variable, variable ∈ variables ↔
              ∃ d, d ∈ differences ∧ variable ∈ named_variables d) as Hvars.
    { intros v. unfold variables. rewrite list_elem_of_In, in_flat_map.
      by setoid_rewrite list_elem_of_In. }
    split_and!.
    + done.
    + apply (StronglySorted_fmap (λ a b, String.leb a.1 b.1 = true));
        [by intros [? []] [? []]|].
      apply StronglySorted_filter, sorted_total.
      * intros x y. apply String.leb_total.
      * intros x y z. apply string_leb_trans.
    + apply fmap_Permutation, filter_Permutation, SortedFacts.sorted_perm.
    + intros name value. rewrite Hcalls. split.
      * intros ([k [v|]] & Hv & Hkeep & Hc); unfold call_of in Hc; simpl in *; [|done].
        injection Hc as <- <-. split; [done|].
        apply Hvars in Hv as (d & Hd & Hv).
        destruct d as [items|[n|path] old new|items]; simpl in Hv.
        -- left. exists items. split; [done|].
           apply list_elem_of_fmap in Hv as ([k' v'] & [= -> ->] & Hin). done.
        -- right. apply list_elem_of_singleton in Hv as [= -> ->]. by exists old.
        -- by apply elem_of_nil in Hv.
        -- apply list_elem_of_fmap in Hv as (? & [=] & _).
      * intros [Hkeep [(items & Hd & Hin) | (old & Hd)]].
        -- exists (name, Some value). split_and!; [|done..]. apply Hvars.
           exists (Add items). split; [done|]. simpl. apply list_elem_of_fmap.
           by exists (name, value).
        -- exists (name, Some value). split_and!; [|done..]. apply Hvars.
           exists (Change (KeyName name) old value). split; [done|]. simpl. by left.
    + intros name. rewrite Hcalls. split.
      * intros ([k [v|]] & Hv & Hkeep & Hc); unfold call_of in Hc; simpl in *; [done|].
        injection Hc as <-. split; [done|].
        apply Hvars in Hv as (d & Hd & Hv).
        destruct d as [items|[n|path] old new|items]; simpl in Hv.
        -- apply list_elem_of_fmap in Hv as (? & [=] & _).
        -- apply list_elem_of_singleton in Hv as [=].
        -- by apply elem_of_nil in Hv.
        -- apply list_elem_of_fmap in Hv as ([k' v'] & [= ->] & Hin). by exists items, v'.
      * intros [Hkeep (items & value & Hd & Hin)].
        exists (name, None). split_and!; [|done..]. apply Hvars.
        exists (Remove items). split; [done|]. simpl. apply list_elem_of_fmap.
        by exists (name, value).
    + intros c (v & _ & _ & ->)%Hcalls. exists v.1. unfold call_of. by destruct v.2.
  - intros Hpath Hname. subst result. unfold apply_diff_to_shell. cbv zeta.
    fold differences. rewrite variables_of_flat_map.
    apply existsb_exists in Hpath as (dp & Hdp & Hp).
    apply existsb_exists in Hname as (dn & Hdn & Hn).
    assert (∃ path v, (KeyPath path, v) ∈ flat_map variables_of_difference differences)
      as (path & v & Hin).
    { destruct dp as [|[|path] old new|]; try done. exists path, (Some new).
      apply list_elem_of_In, in_flat_map. exists (Change (KeyPath path) old new).
      split; [done|]. by left. }
    assert (∃ name v, (KeyName name, v) ∈ flat_map variables_of_difference differences)
      as (name & v' & Hin').
    { destruct dn as [[|[k x] items]|[name|] old new|[|[k x] items]]; try done.
      - exists k, (Some x). apply list_elem_of_In, in_flat_map.
        exists (Add ((k, x) :: items)). split; [done|]. by left.
      - exists name, (Some new). apply list_elem_of_In, in_flat_map.
        exists (Change (KeyName name) old new). split; [done|]. by left.
      - exists k, None. apply list_elem_of_In, in_flat_map.
        exists (Remove ((k, x) :: items)). split; [done|]. by left. }
    by rewrite (sorted_by_key_mixed _ name path v' v).
Qed.

End apply_diff.

(** ** Two runs *)

(** A variable changed, two added, one of them ignored, and one removed. *)
Definition sample_differences : list Difference :=
  [Change (KeyName "PATH") "/bin" "/opt/bin:/bin";
   Add [("DDB_PROJECT_HOME", "/project"); ("LS_COLORS", "di=34")];
   Remove [("OLDPWD", "/tmp")]].

(** A changed variable whose name holds a dot, and one added. *)
Definition dotted_differences : list Difference :=
  [Change (KeyPath ["my.variable"]) "1" "2"; Add [("DDB_PROJECT_HOME", "/project")]].

Definition ignore_colors (patterns : list string) (name : string) : bool :=
  existsb (String.eqb name) patterns.

Lemma apply_diff_to_shell_calls_run :
  apply_diff_to_shell (λ _ _, sample_differences) ignore_colors (λ _ _, inr false) [] []
    (Some ["LS_COLORS"])
  = ([SetEnvironmentVariable (KeyName "DDB_PROJECT_HOME") "/project";
      RemoveEnvironmentVariable (KeyName "OLDPWD");
      SetEnvironmentVariable (KeyName "PATH") "/opt/bin:/bin"], None) ∧
  StronglySorted (λ c c', key_leb (call_key c) (call_key c') = true)
    [SetEnvironmentVariable (KeyName "DDB_PROJECT_HOME") "/project";
     RemoveEnvironmentVariable (KeyName "OLDPWD");
     SetEnvironmentVariable (KeyName "PATH") "/opt/bin:/bin"] ∧
  apply_diff_to_shell (λ _ _, dotted_differences) ignore_colors (λ _ _, inr false) [] []
    None
  = ([], Some TypeError).
Proof.
  destruct (proj1 (apply_diff_to_shell_calls (λ _ _, sample_differences) ignore_colors
                     (λ _ _, inr false) [] [] (Some ["LS_COLORS"])) eq_refl)
    as (Hend & Hsorted & _).
  split; [reflexivity|]. split; [exact Hsorted|].
  exact (proj2 (apply_diff_to_shell_calls (λ _ _, dotted_differences) ignore_colors
                  (λ _ _, inr false) [] [] None) eq_refl eq_refl).
Defined.

End ShellFacts.

(** * The order of discovery does not matter *)

Section DiscoveryOrder.
Context {W : Type} {env : Collaborators W}.
Implicit Types (f : Feature W) (s : State W) (ef : Py.dict (Feature W)).

Definition same_entries ef ef' : Prop := ∀ name, Py.dict_get ef name = Py.dict_get ef' name.

Lemma same_entries_set ef ef' f :
  same_entries ef ef' →
  same_entries (Py.dict_set ef (f_name f) f) (Py.dict_set ef' (f_name f) f).
Proof. intros Hsame name. rewrite !ConfigFacts.dict_get_set, Hsame. done. Qed.

Lemma same_entries_fold (l : list (Feature W)) ef ef' :
  same_entries ef ef' →
  same_entries (fold_left (λ d f, Py.dict_set d (f_name f) f) l ef)
               (fold_left (λ d f, Py.dict_set d (f_name f) f) l ef').
Proof.
  revert ef ef'. induction l as [|f l IH]; intros ef ef' Hsame; simpl; [done|].
  by apply IH, same_entries_set.
Qed.

Lemma same_entries_perm (l l' : list (Feature W)) ef ef' :
  l ≡ₚ l' → NoDup ((λ f, f_name f) <$> l) → same_entries ef ef' →
  same_entries (fold_left (λ d f, Py.dict_set d (f_name f) f) l ef)
               (fold_left (λ d f, Py.dict_set d (f_name f) f) l' ef').
Proof.
  intros Hperm. revert ef ef'.
  induction Hperm as [|x l l' Hperm IH|x y l|l l' l'' H1 IH1 H2 IH2];
    intros ef ef' Hnd Hsame; csimpl in *.
  - done.
  - apply NoDup_cons in Hnd as [_ Hnd]. by apply IH, same_entries_set.
  - apply NoDup_cons in Hnd as [Hy _]. apply not_elem_of_cons in Hy as [Hne _].
    apply same_entries_fold. intros name. rewrite !ConfigFacts.dict_get_set, Hsame.
    destruct (String.eqb_spec (f_name x) name) as [Hx|Hx],
             (String.eqb_spec (f_name y) name) as [Hy|Hy]; congruence.
  - intros name. rewrite (IH1 ef ef) by done.
    apply IH2; [|done]. by rewrite <- H1.
Qed.

Lemma build_entrypoint_features_perm (default default' : list (Feature W)) :
  default ≡ₚ default' → NoDup ((λ f, f_name f) <$> default) →
  same_entries (build_entrypoint_features default) (build_entrypoint_features default').
Proof.
  intros Hperm Hnd. unfold build_entrypoint_features.
  apply same_entries_fold. by apply same_entries_perm.
Qed.

Lemma same_entries_keys ef ef' name :
  same_entries ef ef' → name ∈ Py.dict_keys ef ↔ name ∈ Py.dict_keys ef'.
Proof.
  intros Hsame.
  destruct (decide (name ∈ Py.dict_keys ef)) as [Hin|Hin],
           (decide (name ∈ Py.dict_keys ef')) as [Hin'|Hin']; try done.
  - apply PyFacts.dict_get_None in Hin'. rewrite <- Hsame in Hin'.
    by apply PyFacts.dict_get_None in Hin'.
  - apply PyFacts.dict_get_None in Hin. rewrite Hsame in Hin.
    by apply PyFacts.dict_get_None in Hin.
Qed.

Lemma same_entries_graph ef ef' :
  NoDup (Py.dict_keys ef) → NoDup (Py.dict_keys ef') → same_entries ef ef' →
  graph_of ef ∅ = graph_of ef' ∅.
Proof.
  intros Hnd Hnd' Hsame. apply map_eq. intros name.
  destruct (Py.dict_get ef name) as [f|] eqn:Hget.
  - rewrite (graph_of_lookup ef ∅ name f) by done.
    rewrite Hsame in Hget. by rewrite (graph_of_lookup ef' ∅ name f).
  - rewrite graph_of_lookup_other by by apply PyFacts.dict_get_None.
    rewrite Hsame in Hget. by rewrite graph_of_lookup_other by by apply PyFacts.dict_get_None.
Qed.

Lemma same_entries_check ef ef' :
  NoDup (Py.dict_keys ef) → NoDup (Py.dict_keys ef') → same_entries ef ef' →
  first_missing ef (required_dependencies_of ef) = None →
  first_missing ef' (required_dependencies_of ef') = None.
Proof.
  intros Hnd Hnd' Hsame Hnone.
  destruct (first_missing ef' (required_dependencies_of ef')) as [[name d]|] eqn:Hfirst;
    [|done]. exfalso.
  apply first_missing_Some in Hfirst as (reqs & Hin & Hd & Hnot).
  apply required_dependencies_of_elem in Hin as (f & Hin & ->).
  apply Hnot, (same_entries_keys ef ef' d Hsame).
  apply (first_missing_None ef _ name (required_of f) d Hnone); [|done].
  apply required_dependencies_of_elem. exists f. split; [|done].
  apply PyFacts.dict_get_Some_elem. rewrite Hsame. by apply PyFacts.dict_elem_get.
Qed.

Lemma for_each_ext {S A} (l : list A) (body body' : A → M S unit) st :
  (∀ x st', body x st' = body' x st') → for_each l body st = for_each l body' st.
Proof.
  intros Hext. revert st. induction l as [|x l IH]; intros st; simpl; [done|].
  unfold bind. rewrite Hext. destruct (body' x st); [apply IH|done].
Qed.

(** X19. The order in which the features are discovered does not
    matter: when the default features have distinct names and
    [register_features] returns, it returns the same state, with the
    features registered in the same order, for the same features given in
    any other order. *)
Theorem register_features_order_independent
    (default default' : list (Feature W)) (s s' : State W) :
  default ≡ₚ default' →
  NoDup ((λ f, f_name f) <$> default) →
  register_features default s = Ret tt s' →
  register_features default' s = Ret tt s'.
Proof.
  intros Hperm Hnd Hrun.
  pose proof (build_entrypoint_features_perm default default' Hperm Hnd) as Hsame.
  pose proof (build_entrypoint_features_NoDup default) as Hkeys.
  pose proof (build_entrypoint_features_NoDup default') as Hkeys'.
  pose proof (register_features_check default s) as Hcheck.
  pose proof (register_features_check default' s) as Hcheck'.
  cbv zeta in Hcheck, Hcheck'.
  destruct (first_missing (build_entrypoint_features default) _) as [[n d]|] eqn:Hfirst;
    [by rewrite Hcheck in Hrun|].
  rewrite (same_entries_check _ _ Hkeys Hkeys' Hsame Hfirst) in Hcheck'.
  rewrite Hcheck', <- (same_entries_graph _ _ Hkeys Hkeys' Hsame), <- Hrun, Hcheck.
  destruct (merge_dependencies _ _) as [e|td]; [done|].
  unfold bind. destruct (call_toposort_flatten td s) as [names s1|e s1]; [|done].
  apply for_each_ext. intros name st. by rewrite Hsame.
Qed.

End DiscoveryOrder.

Section DiscoveryOrderRuns.
Import Example.

Lemma register_features_order_independent_run :
  register_features [shell; core; traefik; docker] (start plain)
  = Ret tt (final_state (register_features default_features (start plain))).
Proof.
  apply (register_features_order_independent default_features
           [shell; core; traefik; docker] (start plain)).
  - exact (Permutation_rev [docker; traefik; core; shell]).
  - apply (bool_decide_unpack _). vm_compute. exact I.
  - vm_compute. reflexivity.
Defined.

End DiscoveryOrderRuns.
